(** * Shiritori bot (bot.py): channel state machine and turn pipeline

    A shallow embedding of the parts of [bot.py] that hold the game logic:
    the peewee tables, the process caches of the [Iha] client, the
    tokenizer [parse_message], [word_upsert], [user_upsert], [channel_get],
    [channel_add], [channel_remove], [channel_sync], [channel_message],
    [game_start] and [game_ending].

    Conventions of the model:
    - Python strings are [String.string]; a character is an [ascii],
      read as a Latin-1 code point.
    - A table is the list of its rows in storage order; a query with
      [.get()] returns the first matching row.  New primary keys are
      [1 + max id] of the table (SQLite rowid allocation).
    - Foreign keys are not enforced: the [sqlite:///] connection never
      turns SQLite's [foreign_keys] pragma on, so a declared
      [on_delete='CASCADE'] deletes nothing and a row may outlive the row
      it references.
    - Python objects held in a cache are values; mutating the cached
      object and calling [save()] updates both the cache entry and the row.
      A record fetched afresh from a table is a different object.
    - A Python exception is the [inl] branch of the state/exception monad
      [M]; the state reached so far is kept.
    - Discord side effects ([add_reaction], [reply]) are appended to an
      output log. *)

From Stdlib Require Import String Ascii List Arith Lia DecimalString.
From stdpp Require Import base gmap strings list.
Import ListNotations.
Open Scope string_scope.
Open Scope nat_scope.

(* ------------------------------------------------------------------ *)
(** ** Constants *)

Definition WORD_SOURCE_LIST := 1.
Definition WORD_SOURCE_REJECTED := 2.
Definition WORD_SOURCE_GAME := 3.
Definition WORD_SOURCE_VETTED := 4.

Definition MESSAGE_STATE_UNKNOWN := 0.
Definition MESSAGE_STATE_OK := 1.
Definition MESSAGE_STATE_REPEAT := 2.
Definition MESSAGE_STATE_REJECTED := 3.

Inductive emoji :=
| EMOJI_NAY | EMOJI_THUMB_UP | EMOJI_THUMB_DOWN | EMOJI_THUMB_OWL
| EMOJI_QUESTION | EMOJI_THINKING_FACE | EMOJI_RECYCLE.

(* ------------------------------------------------------------------ *)
(** ** Tables (peewee models) *)

Record Words := mkWords {
  w_id : nat;
  w_word : string;
  w_source : option nat           (* IntegerField(null=True) *)
}.

Record BannedWords := mkBannedWords {
  bw_id : nat;
  bw_word : string
}.

Record Channels := mkChannels {
  c_id : nat;
  c_discord_id : nat;
  c_name : option string;
  c_current_game : option nat;    (* DeferredForeignKey('Games', null=True) *)
  c_game_running : bool
}.

Record Games := mkGames {
  g_id : nat;
  g_timestamp : nat;
  g_channel : nat
}.

Record Users := mkUsers {
  u_id : nat;
  u_discord_user_id : nat;
  u_name : option string
}.

(** A Turn of the spec. *)
Record Messages := mkMessages {
  m_id : nat;
  m_timestamp : nat;
  m_state : nat;
  m_content : string;
  m_word : nat;
  m_game : option nat;
  m_channel : nat;
  m_user : nat
}.

Record Db := mkDb {
  db_words : list Words;
  db_banned : list BannedWords;
  db_channels : list Channels;
  db_games : list Games;
  db_users : list Users;
  db_messages : list Messages
}.

(** The Discord side of an incoming [message]. *)
Record Incoming := mkIncoming {
  msg_id : nat;
  msg_channel : nat;              (* message.channel.id *)
  msg_author_id : nat;            (* message.author.id *)
  msg_author_name : string;
  msg_author_discriminator : string;
  msg_clean_content : string;
  msg_created_at : nat
}.

(** The lines of a reply, in the order the f-strings are appended to
    [reply_messages]. *)
Inductive reason :=
| ReasonRejected (word : string)            (* "{word} has previously been rejected." *)
| ReasonMustStart (letter : ascii)          (* "The word must start with the letter ..." *)
| ReasonUsedBy (discord_user_id : nat) (ts : nat). (* "... used by <@id> {timeago}" *)

Inductive action :=
| React (message : nat) (e : emoji)
| Reply (message : nat) (lines : list reason).

(** The [Iha] client: storage plus its three caches, and the Discord log. *)
Record Iha := mkIha {
  db : Db;
  channel_cache : gmap nat (option Channels);
  word_cache : gmap string Words;
  user_cache : gmap nat Users;
  out : list action
}.

Inductive exn :=
| Exception (msg : string)
| DoesNotExist
| IndexError
| TypeError (msg : string).

(* ------------------------------------------------------------------ *)
(** ** State / exception monad *)

Definition M (A : Type) := Iha -> Iha * (exn + A).

Definition ret {A} (a : A) : M A := fun s => (s, inr a).
Definition raise {A} (e : exn) : M A := fun s => (s, inl e).
Definition bind {A B} (m : M A) (k : A -> M B) : M B :=
  fun s => match m s with
           | (s', inl e) => (s', inl e)
           | (s', inr a) => k a s'
           end.
Definition get : M Iha := fun s => (s, inr s).
Definition modify (f : Iha -> Iha) : M unit := fun s => (f s, inr tt).

Notation "x <- m ;; k" := (bind m (fun x => k))
  (at level 98, m at next level, right associativity).
Notation "m ;;; k" := (bind m (fun _ => k))
  (at level 98, right associativity).

Definition set_db (f : Db -> Db) (s : Iha) : Iha :=
  mkIha (f (db s)) (channel_cache s) (word_cache s) (user_cache s) (out s).
Definition set_channel_cache (f : gmap nat (option Channels) -> gmap nat (option Channels)) (s : Iha) : Iha :=
  mkIha (db s) (f (channel_cache s)) (word_cache s) (user_cache s) (out s).
Definition set_word_cache (f : gmap string Words -> gmap string Words) (s : Iha) : Iha :=
  mkIha (db s) (channel_cache s) (f (word_cache s)) (user_cache s) (out s).
Definition set_user_cache (f : gmap nat Users -> gmap nat Users) (s : Iha) : Iha :=
  mkIha (db s) (channel_cache s) (word_cache s) (f (user_cache s)) (out s).
Definition emit (a : action) : M unit :=
  modify (fun s => mkIha (db s) (channel_cache s) (word_cache s) (user_cache s) (out s ++ [a])).

Definition with_words (f : list Words -> list Words) (d : Db) : Db :=
  mkDb (f (db_words d)) (db_banned d) (db_channels d) (db_games d) (db_users d) (db_messages d).
Definition with_channels (f : list Channels -> list Channels) (d : Db) : Db :=
  mkDb (db_words d) (db_banned d) (f (db_channels d)) (db_games d) (db_users d) (db_messages d).
Definition with_games (f : list Games -> list Games) (d : Db) : Db :=
  mkDb (db_words d) (db_banned d) (db_channels d) (f (db_games d)) (db_users d) (db_messages d).
Definition with_users (f : list Users -> list Users) (d : Db) : Db :=
  mkDb (db_words d) (db_banned d) (db_channels d) (db_games d) (f (db_users d)) (db_messages d).
Definition with_messages (f : list Messages -> list Messages) (d : Db) : Db :=
  mkDb (db_words d) (db_banned d) (db_channels d) (db_games d) (db_users d) (f (db_messages d)).
Definition with_banned (f : list BannedWords -> list BannedWords) (d : Db) : Db :=
  mkDb (db_words d) (f (db_banned d)) (db_channels d) (db_games d) (db_users d) (db_messages d).

(** Primary key of a new row: one more than the largest in the table. *)
Definition next_id {A} (key : A -> nat) (rows : list A) : nat :=
  S (fold_right (fun r acc => Nat.max (key r) acc) 0 rows).

(* ------------------------------------------------------------------ *)
(** ** Python string operations used by the bot *)

(** [str.lower] on one Latin-1 code point. *)
Definition lower_char (c : ascii) : ascii :=
  let n := nat_of_ascii c in
  if ((65 <=? n) && (n <=? 90)) || ((192 <=? n) && (n <=? 222) && negb (n =? 215))
  then ascii_of_nat (n + 32) else c.

(** [str.isspace] on one Latin-1 code point. *)
Definition is_space (c : ascii) : bool :=
  let n := nat_of_ascii c in
  ((9 <=? n) && (n <=? 13)) || ((28 <=? n) && (n <=? 32)) || (n =? 133) || (n =? 160).

Definition lower (s : string) : string :=
  string_of_list_ascii (map lower_char (list_ascii_of_string s)).

Fixpoint lstrip_list (cs : list ascii) : list ascii :=
  match cs with
  | c :: cs' => if is_space c then lstrip_list cs' else cs
  | [] => []
  end.

(** [str.strip]. *)
Definition strip (s : string) : string :=
  string_of_list_ascii (rev (lstrip_list (rev (lstrip_list (list_ascii_of_string s))))).

(** The delimiters of the pattern ['([ \(:!?])']. *)
Definition is_delim (c : ascii) : bool :=
  match c with
  | " "%char | "("%char | ":"%char | "!"%char | "?"%char => true
  | _ => false
  end.

(** [re.split('([ \(:!?])', s)]: the pieces between delimiters, each
    delimiter kept as an element of its own (capturing group). *)
Fixpoint re_split_aux (cs : list ascii) (cur : list ascii) : list string :=
  match cs with
  | [] => [string_of_list_ascii (rev cur)]
  | c :: cs' =>
      if is_delim c
      then string_of_list_ascii (rev cur) :: String c EmptyString :: re_split_aux cs' []
      else re_split_aux cs' (c :: cur)
  end.

Definition re_split (s : string) : list string := re_split_aux (list_ascii_of_string s) [].

(** [re.search(r'^[a-z]', element)]. *)
Definition starts_az (e : string) : bool :=
  match e with
  | String c _ => (97 <=? nat_of_ascii c) && (nat_of_ascii c <=? 122)
  | EmptyString => false
  end.

(** The [for element in elements] loop of [parse_message]. *)
Fixpoint collect_words (elements : list string) : list string :=
  match elements with
  | [] => []
  | element :: rest =>
      if String.eqb element " " then collect_words rest
      else if negb (starts_az element) then []
      else element :: collect_words rest
  end.

(** [Iha.parse_message], on [message.clean_content]. *)
Definition parse_message (clean_content : string) : list string :=
  collect_words (re_split (lower clean_content)).

(** [s[0]] and [s[-1]]; [None] is the [IndexError] of an empty string. *)
Definition first_char (s : string) : option ascii := String.get 0 s.
Definition last_char (s : string) : option ascii := String.get (String.length s - 1) s.

(** The text of an f-string field holding an optional string. *)
Definition py_str_opt (o : option string) : string :=
  match o with Some s => s | None => "None" end.

(* ------------------------------------------------------------------ *)
(** ** Caches and upserts *)

(** [save()] on a channel record: UPDATE of the row with its id. *)
Definition save_channel (r : Channels) : M unit :=
  modify (set_db (with_channels (map (fun r0 => if c_id r0 =? c_id r then r else r0)))).

Definition cache_channel (d : nat) (v : option Channels) : M unit :=
  modify (set_channel_cache (fun c => <[d := v]> c)).

(** [Channels.get(discord_id = d)]: the first row, if any. *)
Definition find_channel (d : nat) (rows : list Channels) : option Channels :=
  List.find (fun r => c_discord_id r =? d) rows.

(** [Iha.channel_get]. *)
Definition channel_get (d : nat) : M (option Channels) :=
  s <- get ;;
  match channel_cache s !! d with
  | Some v => ret v
  | None =>
      let v := find_channel d (db_channels (db s)) in
      cache_channel d v ;;; ret v
  end.

(** The record [channel_get] returns, from the cache or the table. *)
Definition channel_view (s : Iha) (d : nat) : option Channels :=
  match channel_cache s !! d with
  | Some v => v
  | None => find_channel d (db_channels (db s))
  end.

(** [Iha.user_upsert]. *)
Definition user_upsert (uid : nat) (name discriminator : string) : M Users :=
  s <- get ;;
  match user_cache s !! uid with
  | Some u => ret u
  | None =>
      let users := db_users (db s) in
      let u := match List.find (fun u => u_discord_user_id u =? uid) users with
               | Some u => u
               | None => mkUsers (next_id u_id users) uid (Some (name ++ "#" ++ discriminator))
               end in
      modify (set_db (with_users (fun us =>
        if existsb (fun u0 => u_discord_user_id u0 =? uid) us then us else app us [u]))) ;;;
      modify (set_user_cache (fun c => <[uid := u]> c)) ;;;
      ret u
  end.

(** [Iha.word_upsert]; a created row gets [source] by the following
    [save()], so the row lands with [Some source]. *)
Definition word_upsert (word0 : string) (source : nat) : M Words :=
  let word := strip (lower word0) in
  s <- get ;;
  match word_cache s !! word with
  | Some w => ret w
  | None =>
      let words := db_words (db s) in
      let w := match List.find (fun w => String.eqb (w_word w) word) words with
               | Some w => w
               | None => mkWords (next_id w_id words) word (Some source)
               end in
      modify (set_db (with_words (fun ws =>
        if existsb (fun w0 => String.eqb (w_word w0) word) ws then ws else app ws [w]))) ;;;
      modify (set_word_cache (fun c => <[word := w]> c)) ;;;
      ret w
  end.

(* ------------------------------------------------------------------ *)
(** ** Channel registry and game state machine *)

(** [Iha.channel_add]: [get_or_create], refresh of the name, caching. *)
Definition channel_add (d : nat) (name : string) : M Channels :=
  s <- get ;;
  let chans := db_channels (db s) in
  r <- match find_channel d chans with
       | Some r => ret r
       | None =>
           let r := mkChannels (next_id c_id chans) d None None false in
           modify (set_db (with_channels (fun cs => app cs [r]))) ;;; ret r
       end ;;
  r' <- (if decide (c_name r = Some name) then ret r
         else let r' := mkChannels (c_id r) (c_discord_id r) (Some name)
                                   (c_current_game r) (c_game_running r) in
              save_channel r' ;;; ret r') ;;
  cache_channel d (Some r') ;;;
  ret r'.

(** [delete_instance()] on a channel row: [DELETE] of the row with its
    id.  The cascades declared on [Games.channel] and [Messages.channel]
    are not enforced (foreign keys are off), so the channel's Games and
    Messages stay. *)
Definition delete_channel (r : Channels) (d : Db) : Db :=
  with_channels (List.filter (fun r0 => negb (c_id r0 =? c_id r))) d.

(** [Iha.channel_remove]. *)
Definition channel_remove (d : nat) : M bool :=
  cache_channel d None ;;;
  s <- get ;;
  match find_channel d (db_channels (db s)) with
  | Some r => modify (set_db (delete_channel r)) ;;; ret true
  | None => ret false
  end.

(** [Iha.game_start]; [now] is [datetime.datetime.now()].  The record
    mutated and saved is the one [channel_get] returned, i.e. the cached
    object. *)
Definition game_start (d : nat) (now : nat) : M Games :=
  r <- channel_get d ;;
  match r with
  | None => raise (Exception "Not a game channel")
  | Some r =>
      if c_game_running r
      then raise (Exception ("Game is already running in " ++ py_str_opt (c_name r)))
      else
        s <- get ;;
        let g := mkGames (next_id g_id (db_games (db s))) now (c_id r) in
        modify (set_db (with_games (fun gs => app gs [g]))) ;;;
        let r' := mkChannels (c_id r) (c_discord_id r) (c_name r) (Some (g_id g)) true in
        save_channel r' ;;;
        cache_channel d (Some r') ;;;
        ret g
  end.

(** The related Game of a record's [current_game] (lazy foreign key). *)
Definition load_game (o : option nat) : M (option Games) :=
  match o with
  | None => ret None
  | Some gid =>
      s <- get ;;
      match List.find (fun g => g_id g =? gid) (db_games (db s)) with
      | Some g => ret (Some g)
      | None => raise DoesNotExist
      end
  end.

(** [Iha.game_ending]: the registration test goes through the cache, the
    record that is cleared and saved is fetched afresh from the table. *)
Definition game_ending (d : nat) : M (option Games) :=
  r0 <- channel_get d ;;
  match r0 with
  | None => raise (Exception "Not a game channel")
  | Some _ =>
      s <- get ;;
      match find_channel d (db_channels (db s)) with
      | None => raise DoesNotExist
      | Some r =>
          if negb (c_game_running r)
          then raise (Exception ("No game is currently running in " ++ py_str_opt (c_name r)))
          else
            game_rec <- load_game (c_current_game r) ;;
            save_channel (mkChannels (c_id r) (c_discord_id r) (c_name r) None false) ;;;
            ret game_rec
      end
  end.

(* ------------------------------------------------------------------ *)
(** ** The turn pipeline *)

(** [Messages.game == game_rec]: peewee turns [== None] into [IS NULL]. *)
Definition game_is (t : Messages) (game_rec : option Games) : bool :=
  match m_game t, game_rec with
  | Some gid, Some g => gid =? g_id g
  | None, None => true
  | _, _ => false
  end.

(** [.order_by(Messages.timestamp.desc()).get()]: a row of largest
    timestamp, the first in storage order among equals. *)
Fixpoint latest (l : list Messages) : option Messages :=
  match l with
  | [] => None
  | t :: l' =>
      match latest l' with
      | None => Some t
      | Some t' => if m_timestamp t' <=? m_timestamp t then Some t else Some t'
      end
  end.

Definition find_word (wid : nat) (ws : list Words) : option Words :=
  List.find (fun w => w_id w =? wid) ws.

(** The query for the last valid message: joined with [Words], in the
    game, with state in [[UNKNOWN, OK]]. *)
Definition last_message_query (ms : list Messages) (ws : list Words) (game_rec : option Games)
  : option Messages :=
  latest (List.filter (fun t => game_is t game_rec
                           && ((m_state t =? MESSAGE_STATE_UNKNOWN) || (m_state t =? MESSAGE_STATE_OK))
                           && bool_decide (is_Some (find_word (m_word t) ws)))
                 ms).

(** The query for earlier uses of the word in the game. *)
Definition repeat_query (ms : list Messages) (game_rec : option Games) (word_rec : Words) : list Messages :=
  List.filter (fun t => game_is t game_rec && (m_word t =? w_id word_rec)) ms.

Definition when (b : bool) (m : M unit) : M unit := if b then m else ret tt.

(** The chain rule: the reasons it adds. *)
Definition chain_check (m : Incoming) (word : string) (game_rec : option Games) : M (list reason) :=
  s <- get ;;
  match last_message_query (db_messages (db s)) (db_words (db s)) game_rec with
  | None => ret []                                    (* pw.DoesNotExist: pass *)
  | Some last_message =>
      match find_word (m_word last_message) (db_words (db s)) with
      | None => raise DoesNotExist
      | Some lw =>
          match last_char (w_word lw), first_char word with
          | Some last_letter, Some c =>
              if Ascii.eqb c last_letter then ret []
              else emit (React (msg_id m) EMOJI_NAY) ;;; ret [ReasonMustStart last_letter]
          | _, _ => raise IndexError
          end
      end
  end.

(** The repeat rule: the reasons it adds. *)
Definition repeat_check (m : Incoming) (game_rec : option Games) (word_rec : Words) : M (list reason) :=
  s <- get ;;
  match repeat_query (db_messages (db s)) game_rec word_rec with
  | [] => ret []
  | repeat_message :: _ =>
      emit (React (msg_id m) EMOJI_RECYCLE) ;;;
      match List.find (fun u => u_id u =? m_user repeat_message) (db_users (db s)) with
      | None => raise DoesNotExist
      | Some u => ret [ReasonUsedBy (u_discord_user_id u) (m_timestamp repeat_message)]
      end
  end.

(** Python's [x == k] on the nullable [source] column. *)
Definition source_eq (o : option nat) (k : nat) : bool :=
  match o with Some n => n =? k | None => false end.

(** Truth value of a Python list. *)
Definition py_truthy {A} (l : list A) : bool :=
  match l with [] => false | _ => true end.

(** [Iha.channel_message]: [None] when the message is ignored or the word
    rejected, [Some] the created row otherwise.  Each rule sets
    [reject_word] exactly when it adds its reason. *)
Definition channel_message (m : Incoming) : M (option Messages) :=
  channel_rec <- channel_get (msg_channel m) ;;
  match channel_rec with
  | None => ret None
  | Some channel_rec =>
  if negb (c_game_running channel_rec) then ret None else
  match parse_message (msg_clean_content m) with
  | [word] =>
      word_rec <- word_upsert word WORD_SOURCE_GAME ;;
      let rejected := source_eq (w_source word_rec) WORD_SOURCE_REJECTED in
      when rejected (emit (React (msg_id m) EMOJI_THUMB_DOWN)) ;;;
      let r1 := if rejected then [ReasonRejected word] else [] in
      let is_game := source_eq (w_source word_rec) WORD_SOURCE_GAME in
      when is_game (emit (React (msg_id m) EMOJI_THINKING_FACE)) ;;;
      let message_state := if is_game then MESSAGE_STATE_UNKNOWN else MESSAGE_STATE_OK in
      game_rec <- load_game (c_current_game channel_rec) ;;
      r2 <- chain_check m word game_rec ;;
      r3 <- repeat_check m game_rec word_rec ;;
      let reply_messages := app r1 (app r2 r3) in
      when (py_truthy reply_messages) (emit (Reply (msg_id m) reply_messages)) ;;;
      let reject_word := rejected || py_truthy r2 || py_truthy r3 in
      if reject_word then ret None else
      user_rec <- user_upsert (msg_author_id m) (msg_author_name m) (msg_author_discriminator m) ;;
      s <- get ;;
      let row := mkMessages (next_id m_id (db_messages (db s))) (msg_created_at m)
                            message_state (msg_clean_content m) (w_id word_rec)
                            (option_map g_id game_rec) (c_id channel_rec) (u_id user_rec) in
      modify (set_db (with_messages (fun ts => app ts [row]))) ;;;
      ret (Some row)
  | _ => ret None
  end
  end.

(* ------------------------------------------------------------------ *)
(** ** Backfill *)

(** [Iha.channel_sync]; [history] is what [chan.history(after=...)] yields
    for the computed timestamp.  [Channels.get(discord_id == channel.id)]
    receives the Python bool [True]; peewee reads a single int argument as
    a primary key, so the row fetched is the one with id 1.  The call
    [self.word_upsert(word)] passes one argument to a two-parameter
    method. *)
Definition channel_sync (d : nat) (history : option nat -> list Incoming) : M unit :=
  s <- get ;;
  match List.find (fun r => c_id r =? 1) (db_channels (db s)) with
  | None => raise DoesNotExist
  | Some channel_rec =>
      let ts := map m_timestamp (List.filter (fun t => m_channel t =? c_id channel_rec) (db_messages (db s))) in
      let max_timestamp := match ts with [] => None | t :: ts' => Some (fold_right Nat.max t ts') end in
      (fix loop (h : list Incoming) : M unit :=
         match h with
         | [] => ret tt
         | message :: h' =>
             match parse_message (msg_clean_content message) with
             | [] => loop h'
             | _ => raise (TypeError "word_upsert() missing 1 required positional argument: 'source'")
             end
         end) (history max_timestamp)
  end.

(* ------------------------------------------------------------------ *)
(** ** Runs of the bot *)

(** The entry points: the commands [add], [remove], [sync], [start], the
    method [game_ending] (the [end] command calls [self.game_end], which
    the class does not define), and ordinary channel messages.  An
    exception ends the handler; the state it reached stays. *)
Inductive op :=
| OpAdd (d : nat) (name : string)
| OpRemove (d : nat)
| OpSync (d : nat) (history : list Incoming)
| OpStart (d : nat) (now : nat)
| OpEnd (d : nat)
| OpMessage (m : Incoming).

Definition run_op (o : op) (s : Iha) : Iha :=
  match o with
  | OpAdd d name => fst (channel_add d name s)
  | OpRemove d => fst (channel_remove d s)
  | OpSync d h => fst (channel_sync d (fun _ => h) s)
  | OpStart d now => fst (game_start d now s)
  | OpEnd d => fst (game_ending d s)
  | OpMessage m => fst (channel_message m s)
  end.

Definition run_ops (os : list op) (s : Iha) : Iha := fold_left (fun s o => run_op o s) os s.

(** A fresh process on a fresh database; the word list may already have
    been loaded (with distinct primary keys) and banned words entered. *)
Definition initial_state (words : list Words) (banned : list BannedWords) : Iha :=
  mkIha (mkDb words banned [] [] [] []) ∅ ∅ ∅ [].

(** A Turn of the Game with id [g]. *)
Definition in_game (g : nat) (t : Messages) : bool :=
  match m_game t with Some g' => g' =? g | None => false end.

(** In-order delivery, per Game: a message is later than every Turn
    already stored in the Game it would join, the current game of its
    channel's record (from the cache or the table).  Messages of a channel
    without a current game are not constrained. *)
Definition in_orderb (o : op) (s : Iha) : bool :=
  match o with
  | OpMessage m =>
      match channel_view s (msg_channel m) with
      | Some c =>
          match c_current_game c with
          | Some gid =>
              forallb (fun t => negb (in_game gid t) || (m_timestamp t <? msg_created_at m))
                      (db_messages (db s))
          | None => true
          end
      | None => true
      end
  | _ => true
  end.

Inductive reachable : Iha -> Prop :=
| reachable_fresh ws bs :
    NoDup (map w_id ws) -> reachable (initial_state ws bs)
| reachable_step s o : reachable s -> reachable (run_op o s).

(** The reachable states of runs with in-order delivery per Game. *)
Inductive reachable_in_order : Iha -> Prop :=
| rio_fresh ws bs :
    NoDup (map w_id ws) -> reachable_in_order (initial_state ws bs)
| rio_step s o : reachable_in_order s -> in_orderb o s = true -> reachable_in_order (run_op o s).

Fixpoint ops_in_order (os : list op) (s : Iha) : bool :=
  match os with
  | [] => true
  | o :: os' => in_orderb o s && ops_in_order os' (run_op o s)
  end.

(** Sample inputs: a message of user 42 in channel 7, and a short game. *)
Definition sample_msg (id ts : nat) (txt : string) : Incoming :=
  mkIncoming id 7 42 "bob" "0001" txt ts.

Definition sample_game : list op :=
  [OpAdd 7 "shiritori"; OpStart 7 100;
   OpMessage (sample_msg 1 10 "apple"); OpMessage (sample_msg 2 11 "eagle");
   OpMessage (sample_msg 3 12 "banana"); OpMessage (sample_msg 4 13 "eagle")].

(* ------------------------------------------------------------------ *)
(** ** Channel report *)

(** The [data] dict of [Iha.channel_info]. *)
Record ChannelInfo := mkChannelInfo {
  i_discord_id : nat;
  i_name : option string;
  i_messages : nat;
  i_game_running : bool;
  i_current_game : option Games
}.

(** [except pw.DoesNotExist: return None]. *)
Definition catch_does_not_exist {A} (m : M (option A)) : M (option A) :=
  fun s => match m s with
           | (s', inl DoesNotExist) => (s', inr None)
           | r => r
           end.

(** [Iha.channel_info].  The row comes from the table, not from the cache.
    [Messages.select(Messages.channel == chan)] selects the comparison as
    a column and has no WHERE clause, so its [.count()] is the number of
    rows of the whole Messages table.  Reading [chan.current_game] loads
    the related Game. *)
Definition channel_info (d : nat) : M (option ChannelInfo) :=
  catch_does_not_exist (
    s <- get ;;
    match find_channel d (db_channels (db s)) with
    | None => raise DoesNotExist
    | Some chan =>
        let messages := List.length (db_messages (db s)) in
        current_game <- load_game (c_current_game chan) ;;
        ret (Some (mkChannelInfo (c_discord_id chan) (c_name chan) messages
                                 (c_game_running chan) current_game))
    end).

(* ------------------------------------------------------------------ *)
(** ** Commands and events *)

Definition nl : string := String (ascii_of_nat 10) EmptyString.

Definition IHA_COMMANDS : string := "
Usage:
  @iha [options]
  @iha help
  @iha add [options]
  @iha info [options]
  @iha remove [options]
  @iha sync [options]
  @iha start [options]
  @iha end [options]
  @iha rules [options]

Options:
  -h --help     Show help

".

(** The dict [docopt.docopt] returns for [IHA_COMMANDS]. *)
Record DocoptArgs := mkDocoptArgs {
  a_help_opt : bool;   (* args['--help'] *)
  a_help : bool;
  a_add : bool;
  a_info : bool;
  a_remove : bool;
  a_sync : bool;
  a_start : bool;
  a_end : bool;
  a_rules : bool
}.

(** The outcome of [docopt.docopt(doc=IHA_COMMANDS, help=False,
    version=VERSION, argv=...)]: the dict, a [DocoptExit] (usage error),
    or the [SystemExit] of [sys.exit()] after printing [VERSION], which
    it raises when [--version] is among the arguments. *)
Inductive docopt_result :=
| DocoptArgsOk (args : DocoptArgs)
| DocoptUsageExit
| DocoptSystemExit.

(** A Discord message as [on_message] and [command_execute] read it. *)
Record Event := mkEvent {
  ev_msg : Incoming;             (* id, channel.id, author, clean_content, created_at *)
  ev_channel_name : string;      (* message.channel.name *)
  ev_content : string;           (* message.content *)
  ev_raw_mentions : list nat     (* message.raw_mentions *)
}.

(** What the [try] of [command_execute] can raise. *)
Inductive cmd_error :=
| CmdException (e : exn)               (* raised by a handler or by the command itself *)
| CmdAttributeError (msg : string)
| CmdValueError (msg : string)         (* shlex.split *)
| CmdDocoptExit
| CmdSystemExit.                       (* not an Exception: no except clause catches it *)

(** A text sent with [message.channel.send]. *)
Inductive sent :=
| SentText (text : string)
| SentParserError                      (* f"Parser Error: {ex}" *)
| SentInternalError (e : cmd_error).   (* f"Internal Error: {ex}" *)

(** A command handler: the client state and the texts sent so far. *)
Definition CM (A : Type) := Iha * list sent -> (Iha * list sent) * (cmd_error + A).

Definition cret {A} (a : A) : CM A := fun st => (st, inr a).
Definition craise {A} (e : cmd_error) : CM A := fun st => (st, inl e).
Definition cbind {A B} (m : CM A) (k : A -> CM B) : CM B :=
  fun st => match m st with
            | (st', inl e) => (st', inl e)
            | (st', inr a) => k a st'
            end.

(** An awaited handler of the client. *)
Definition lift {A} (m : M A) : CM A :=
  fun st => match m (fst st) with
            | (s', inl e) => ((s', snd st), inl (CmdException e))
            | (s', inr a) => ((s', snd st), inr a)
            end.

Definition send (x : sent) : CM unit := fun st => ((fst st, app (snd st) [x]), inr tt).

Section Commands.

(** The library calls of the command path: [shlex.split] ([inl] is the
    message of its [ValueError]), [docopt.docopt] on [argv[1:]], what [chan.history(after=...)] yields for a channel,
    [datetime.datetime.now()] and [timeago.format(timestamp, now)]. *)
Variable shlex_split : string -> string + list string.
Variable docopt : list string -> docopt_result.
Variable history : nat -> option nat -> list Incoming.
Variable now : nat.
Variable timeago : nat -> string.

(** [Iha.command_help]. *)
Definition command_help : CM unit :=
  send (SentText ("```" ++ nl ++ IHA_COMMANDS ++ nl ++ "```")).

(** The [if]/[elif] chain of [command_execute] on the parsed [args].  The
    [end] branch calls [self.game_end], which [Iha] does not define. *)
Definition command_dispatch (e : Event) (args : DocoptArgs) : CM unit :=
  let d := msg_channel (ev_msg e) in
  let name := ev_channel_name e in
  if a_help_opt args || a_help args then command_help
  else if a_add args then
    cbind (lift (channel_add d name)) (fun _ =>
    send (SentText (":white_check_mark: **" ++ name ++ "** Added. Start a new game with `@iha start`")))
  else if a_sync args then
    cbind (lift (channel_sync d (history d))) (fun _ =>
    send (SentText (":white_check_mark: **" ++ name ++ "** Syncronized")))
  else if a_info args then
    cbind (lift (channel_info d)) (fun info =>
    match info with
    | Some info =>
        cbind (send (SentText ("**" ++ py_str_opt (i_name info) ++ "** is registered. "
                               ++ "Currently logged "
                               ++ NilZero.string_of_uint (Nat.to_uint (i_messages info))
                               ++ " message(s)."))) (fun _ =>
        if i_game_running info then
          match i_current_game info with
          | Some g => send (SentText ("Currently in game. Started " ++ timeago (g_timestamp g) ++ "!"))
          | None => craise (CmdAttributeError "'NoneType' object has no attribute 'timestamp'")
          end
        else send (SentText "No game in session."))
    | None => send (SentText ("**" ++ name ++ "** is not a registered channel."))
    end)
  else if a_remove args then
    cbind (lift (channel_remove d)) (fun _ =>
    send (SentText ("**" ++ name ++ "** removed.")))
  else if a_start args then
    cbind (lift (game_start d now)) (fun _ =>
    send (SentText ("**" ++ name ++ "** game started.")))
  else if a_end args then
    craise (CmdAttributeError "'Iha' object has no attribute 'game_end'")
  else craise (CmdException (Exception ("Unknown Command! " ++ ev_content e))).

(** The body of the [try] of [Iha.command_execute]. *)
Definition command_body (e : Event) : CM unit :=
  match shlex_split (msg_clean_content (ev_msg e)) with
  | inl msg => craise (CmdValueError msg)
  | inr [] => craise (CmdException (Exception "Syntax Error"))
  | inr (arg0 :: argv) =>
      if negb (String.eqb (lower arg0) "@iha")
      then craise (CmdException (Exception "Unknown Mention"))
      else match docopt argv with
           | DocoptArgsOk args => command_dispatch e args
           | DocoptUsageExit => craise CmdDocoptExit
           | DocoptSystemExit => craise CmdSystemExit
           end
  end.

(** [Iha.command_execute]: the two [except] clauses; the state reached
    when the exception was raised stays.  [SystemExit] passes through. *)
Definition command_execute (e : Event) : CM unit :=
  fun st => match command_body e st with
            | (st', inl CmdSystemExit) => (st', inl CmdSystemExit)
            | (st', inl CmdDocoptExit) => ((fst st', app (snd st') [SentParserError]), inr tt)
            | (st', inl x) => ((fst st', app (snd st') [SentInternalError x]), inr tt)
            | (st', inr _) => (st', inr tt)
            end.

(** [Iha.on_message]; [bot_id] is [self.user.id] (discord users compare
    by id).  An exception of [channel_message] is not caught here. *)
Definition on_message (bot_id : nat) (e : Event) : CM unit :=
  if msg_author_id (ev_msg e) =? bot_id then cret tt
  else if existsb (fun k => k =? bot_id) (ev_raw_mentions e) then command_execute e
  else cbind (lift (channel_message (ev_msg e))) (fun _ => cret tt).

End Commands.

(* ------------------------------------------------------------------ *)
(** ** Loading a word list *)

(** The inner [for l in f] loop of [do_load]: lines are appended (stripped,
    with source LIST) until the batch holds more than 1000 of them. *)
Fixpoint fill_batch (words : list string) (lines : list string) : list string * list string :=
  match lines with
  | [] => (words, [])
  | l :: rest =>
      let words' := app words [strip l] in
      if 1000 <? List.length words' then (words', rest) else fill_batch words' rest
  end.

(** [Words.insert_many(words).execute()]: one INSERT of the rows in order,
    each taking the next rowid; a row whose [word] is already in the table
    (UNIQUE) fails the statement, which then inserts nothing. *)
Fixpoint insert_rows (batch : list string) (ws : list Words) : option (list Words) :=
  match batch with
  | [] => Some ws
  | w :: rest =>
      if existsb (fun r => String.eqb (w_word r) w) ws then None
      else insert_rows rest (app ws [mkWords (next_id w_id ws) w (Some WORD_SOURCE_LIST)])
  end.

Inductive load_error := IntegrityError.

(** The [while True] loop of [do_load].  Every round but the last reads a
    line at least, so [S (length lines)] rounds suffice.  SQLite runs each
    INSERT in autocommit mode: the batches before a failing one stay. *)
Fixpoint load_rounds (fuel : nat) (lines : list string) (ws : list Words)
  : list Words * option load_error :=
  match fuel with
  | 0 => (ws, None)
  | S fuel' =>
      let (words, rest) := fill_batch [] lines in
      match words with
      | [] => (ws, None)
      | _ :: _ =>
          match insert_rows words ws with
          | None => (ws, Some IntegrityError)
          | Some ws' => load_rounds fuel' rest ws'
          end
      end
  end.

(** [do_load] on the database [d]; [lines] are the lines of the words file
    as Python iterates them (line ends included). *)
Definition do_load (lines : list string) (d : Db) : Db * option load_error :=
  let (ws, err) := load_rounds (S (List.length lines)) lines (db_words d) in
  (with_words (fun _ => ws) d, err).

(* ------------------------------------------------------------------ *)
(** ** Properties of the bot *)

Open Scope list_scope.

(** *** The invariant of reachable states

    What the tables and the caches keep between two handlers: primary
    keys, the unique discord ids of the channels, the foreign keys of the
    Turns and of [current_game], and the agreement of the channel cache
    with the table on which channels are registered. *)
Record inv (s : Iha) : Prop := {
  inv_word_ids : NoDup (map w_id (db_words (db s)));
  inv_word_cache : forall k w, word_cache s !! k = Some w ->
      In w (db_words (db s)) /\ w_word w = k;
  inv_msg_word : forall t, In t (db_messages (db s)) ->
      exists w, find_word (m_word t) (db_words (db s)) = Some w;
  inv_msg_game : forall t g, In t (db_messages (db s)) -> m_game t = Some g ->
      exists gr, In gr (db_games (db s)) /\ g_id gr = g /\ g_channel gr = m_channel t;
  inv_game_ids : NoDup (map g_id (db_games (db s)));
  inv_chan_ids : NoDup (map c_id (db_channels (db s)));
  inv_chan_discord : NoDup (map c_discord_id (db_channels (db s)));
  inv_chan_state : forall r, In r (db_channels (db s)) ->
      (c_game_running r = true <-> c_current_game r <> None);
  inv_chan_game : forall r g, In r (db_channels (db s)) -> c_current_game r = Some g ->
      exists gr, In gr (db_games (db s)) /\ g_id gr = g /\ g_channel gr = c_id r;
  inv_cache_none : forall d, channel_cache s !! d = Some None ->
      find_channel d (db_channels (db s)) = None;
  inv_cache_some : forall d r, channel_cache s !! d = Some (Some r) ->
      c_discord_id r = d /\
      exists r0, find_channel d (db_channels (db s)) = Some r0 /\ c_id r0 = c_id r;
  inv_cache_state : forall d r, channel_cache s !! d = Some (Some r) ->
      (c_game_running r = true <-> c_current_game r <> None);
  inv_cache_game : forall d r g, channel_cache s !! d = Some (Some r) -> c_current_game r = Some g ->
      exists gr, In gr (db_games (db s)) /\ g_id gr = g /\ g_channel gr = c_id r
}.

(** *** List facts *)

Lemma nodup_map_inj {A} (f : A -> nat) (l : list A) x y :
  NoDup (map f l) -> In x l -> In y l -> f x = f y -> x = y.
Proof.
  induction l as [|a l IH]; simpl; intros Hnd Hx Hy Hf; [contradiction|].
  inversion Hnd as [|? ? Hnot Hnd']; subst.
  destruct Hx as [<-|Hx], Hy as [<-|Hy]; auto.
  - exfalso; apply Hnot, list_elem_of_In; rewrite Hf; apply in_map; exact Hy.
  - exfalso; apply Hnot, list_elem_of_In; rewrite <- Hf; apply in_map; exact Hx.
Qed.

Lemma nodup_map_filter {A} (f : A -> nat) (q : A -> bool) (l : list A) :
  NoDup (map f l) -> NoDup (map f (List.filter q l)).
Proof.
  induction l as [|a l IH]; simpl; intros Hnd; [constructor|].
  inversion Hnd as [|? ? Hnot Hnd']; subst.
  destruct (q a); simpl; [|auto].
  constructor; [|auto].
  intros Hin; apply Hnot, list_elem_of_In.
  apply list_elem_of_In, in_map_iff in Hin as (b & Hb & Hin).
  apply filter_In in Hin as [Hin _].
  rewrite <- Hb; apply in_map; exact Hin.
Qed.

Lemma next_id_gt {A} (key : A -> nat) (rows : list A) r :
  In r rows -> key r < next_id key rows.
Proof.
  unfold next_id; induction rows as [|a rows IH]; simpl; [contradiction|].
  intros [<-|Hin]; [lia|]. specialize (IH Hin); lia.
Qed.

Lemma nodup_map_snoc_gt {A} (key : A -> nat) (rows : list A) x :
  NoDup (map key rows) -> (forall r, In r rows -> key r < key x) -> NoDup (map key (rows ++ [x])).
Proof.
  intros Hnd Hk. rewrite map_app; simpl.
  apply NoDup_app. split; [exact Hnd|]. split; [|apply NoDup_singleton].
  intros y Hy Hy'. apply list_elem_of_In in Hy, Hy'.
  apply in_map_iff in Hy as (r & <- & Hr).
  destruct Hy' as [Heq|[]].
  pose proof (Hk r Hr). lia.
Qed.

Lemma nodup_map_snoc {A} (key : A -> nat) (rows : list A) x :
  NoDup (map key rows) -> key x = next_id key rows -> NoDup (map key (rows ++ [x])).
Proof.
  intros Hnd Hk. apply nodup_map_snoc_gt; [exact Hnd|].
  intros r Hr. rewrite Hk. apply next_id_gt; exact Hr.
Qed.

Lemma find_map_same {A} (p : A -> bool) (f : A -> A) (l : list A) :
  (forall x, In x l -> p (f x) = p x) ->
  List.find p (map f l) = option_map f (List.find p l).
Proof.
  induction l as [|a l IH]; simpl; intros H; [reflexivity|].
  rewrite (H a (or_introl eq_refl)).
  destruct (p a); [reflexivity|]. apply IH; auto.
Qed.

Lemma find_filter_some {A} (p q : A -> bool) (l : list A) x :
  List.find p l = Some x -> q x = true -> List.find p (List.filter q l) = Some x.
Proof.
  induction l as [|a l IH]; simpl; [discriminate|].
  destruct (p a) eqn:Hp.
  - intros [= <-] Hq. simpl. rewrite Hq; simpl; rewrite Hp; reflexivity.
  - intros Hf Hq. destruct (q a); simpl; [rewrite Hp|]; auto.
Qed.

Lemma find_filter_none {A} (p q : A -> bool) (l : list A) :
  List.find p l = None -> List.find p (List.filter q l) = None.
Proof.
  induction l as [|a l IH]; simpl; [reflexivity|].
  destruct (p a) eqn:Hp; [discriminate|].
  intros Hf. destruct (q a); simpl; [rewrite Hp|]; auto.
Qed.

Lemma find_app_some {A} (p : A -> bool) (l k : list A) x :
  List.find p l = Some x -> List.find p (l ++ k) = Some x.
Proof.
  induction l as [|a l IH]; simpl; [discriminate|].
  destruct (p a); auto.
Qed.

Lemma find_word_app (wid : nat) (ws ext : list Words) w :
  find_word wid ws = Some w -> find_word wid (ws ++ ext) = Some w.
Proof. apply find_app_some. Qed.

Lemma find_word_in (ws : list Words) w :
  NoDup (map w_id ws) -> In w ws -> find_word (w_id w) ws = Some w.
Proof.
  intros Hnd Hin. unfold find_word.
  destruct (List.find (fun w0 => w_id w0 =? w_id w) ws) as [w'|] eqn:Hf.
  - apply find_some in Hf as [Hin' Heq]. apply Nat.eqb_eq in Heq.
    f_equal. eapply nodup_map_inj; eauto.
  - eapply find_none in Hf; [|exact Hin]. rewrite Nat.eqb_refl in Hf. discriminate.
Qed.

(** *** Frames of the handlers' steps *)

(** What a step of [channel_message] before the commit may change. *)
Definition frame (s s' : Iha) : Prop :=
  inv s' /\ db_channels (db s') = db_channels (db s) /\ db_games (db s') = db_games (db s) /\
  db_messages (db s') = db_messages (db s) /\
  exists ext, db_words (db s') = db_words (db s) ++ ext.

Lemma frame_refl s : inv s -> frame s s.
Proof. intros H. unfold frame. split_and!; auto. exists []. rewrite app_nil_r. reflexivity. Qed.

Lemma frame_trans s1 s2 s3 : frame s1 s2 -> frame s2 s3 -> frame s1 s3.
Proof.
  unfold frame. intros (_ & Hc1 & Hg1 & Hm1 & e1 & Hw1) (Hi & Hc2 & Hg2 & Hm2 & e2 & Hw2).
  split_and!; try congruence. exists (e1 ++ e2). rewrite Hw2, Hw1, app_assoc. reflexivity.
Qed.

Lemma inv_ext s s' :
  db s' = db s -> channel_cache s' = channel_cache s -> word_cache s' = word_cache s ->
  inv s -> inv s'.
Proof.
  destruct s, s'; simpl; intros -> -> -> []; constructor; simpl in *; assumption.
Qed.

Lemma frame_of_db s s' : inv s' -> db s' = db s -> frame s s'.
Proof.
  intros Hi Hd. unfold frame. rewrite Hd. split_and!; auto.
  exists []. rewrite app_nil_r. reflexivity.
Qed.

Lemma frame_same s s' :
  inv s -> db s' = db s -> channel_cache s' = channel_cache s -> word_cache s' = word_cache s ->
  frame s s'.
Proof.
  intros Hi Hd Hc Hw. pose proof (inv_ext s s' Hd Hc Hw Hi).
  unfold frame. split_and!; try rewrite Hd; auto. exists []. rewrite app_nil_r. reflexivity.
Qed.

(** A change of the word table by appending, with the other tables and
    the channel cache left alone. *)
Lemma inv_words_grow s s' ext :
  inv s ->
  db_words (db s') = db_words (db s) ++ ext ->
  db_messages (db s') = db_messages (db s) -> db_channels (db s') = db_channels (db s) ->
  db_games (db s') = db_games (db s) -> channel_cache s' = channel_cache s ->
  NoDup (map w_id (db_words (db s'))) ->
  (forall k w, word_cache s' !! k = Some w -> In w (db_words (db s')) /\ w_word w = k) ->
  inv s'.
Proof.
  intros [] Hw Hm Hc Hg Hcc Hnd Hwc.
  constructor; try rewrite Hm; try rewrite Hc; try rewrite Hg; try rewrite Hcc; auto.
  intros t Ht. destruct (inv_msg_word0 t Ht) as [w Hf].
  exists w. rewrite Hw. apply find_word_app. exact Hf.
Qed.

Lemma emit_eq a s :
  emit a s = (mkIha (db s) (channel_cache s) (word_cache s) (user_cache s) (out s ++ [a]), inr tt).
Proof. reflexivity. Qed.

Lemma when_emit_frame b a s s' r :
  inv s -> when b (emit a) s = (s', r) -> r = inr tt /\ frame s s' /\ db s' = db s.
Proof.
  intros Hi. destruct b; simpl; [rewrite emit_eq|]; intros [= <- <-]; split_and!; auto;
    apply frame_same; auto.
Qed.

Lemma channel_get_spec d s s' r :
  inv s -> channel_get d s = (s', r) ->
  let v := match channel_cache s !! d with
           | Some v => v | None => find_channel d (db_channels (db s)) end in
  r = inr v /\ channel_cache s' !! d = Some v /\ frame s s' /\
  db s' = db s /\ word_cache s' = word_cache s /\ out s' = out s.
Proof.
  intros Hi. unfold channel_get, bind, get, ret, cache_channel, modify; simpl.
  destruct (channel_cache s !! d) as [v|] eqn:Hc.
  - intros [= <- <-]. split_and!; auto. apply frame_refl; exact Hi.
  - intros [= <- <-]. simpl.
    assert (Hi' : inv (set_channel_cache (fun c => <[d:=find_channel d (db_channels (db s))]> c) s)).
    { destruct Hi; constructor; simpl; auto.
      - intros d' Hd'. destruct (decide (d' = d)) as [->|Hne].
        + rewrite lookup_insert_eq in Hd'. congruence.
        + rewrite lookup_insert_ne in Hd' by congruence. auto.
      - intros d' r0 Hd'. destruct (decide (d' = d)) as [->|Hne].
        + rewrite lookup_insert_eq in Hd'. injection Hd' as Hf.
          split; [|exists r0; split; auto].
          unfold find_channel in Hf. apply find_some in Hf as [_ Hf]. apply Nat.eqb_eq; exact Hf.
        + rewrite lookup_insert_ne in Hd' by congruence. auto.
      - intros d' r0 Hd'. destruct (decide (d' = d)) as [->|Hne].
        + rewrite lookup_insert_eq in Hd'. injection Hd' as Hf.
          unfold find_channel in Hf. apply find_some in Hf as [Hin _]. auto.
        + rewrite lookup_insert_ne in Hd' by congruence. eauto.
      - intros d' r0 g Hd'. destruct (decide (d' = d)) as [->|Hne].
        + rewrite lookup_insert_eq in Hd'. injection Hd' as Hf.
          unfold find_channel in Hf. apply find_some in Hf as [Hin _]. eauto.
        + rewrite lookup_insert_ne in Hd' by congruence. eauto. }
    split_and!; auto.
    + simpl. apply lookup_insert_eq.
    + apply frame_of_db; auto.
Qed.

(** The channel cache and the table agree on whether a channel is
    registered. *)
Lemma channel_get_registered d s :
  inv s ->
  match channel_cache s !! d with
  | Some v => v | None => find_channel d (db_channels (db s)) end = None <->
  find_channel d (db_channels (db s)) = None.
Proof.
  intros Hi. destruct (channel_cache s !! d) as [[r|]|] eqn:Hc.
  - destruct (inv_cache_some s Hi d r Hc) as (_ & r0 & Hf & _). split; congruence.
  - split; intros _; [exact (inv_cache_none s Hi d Hc)|reflexivity].
  - tauto.
Qed.

Lemma existsb_find {A} (p : A -> bool) (l : list A) :
  existsb p l = match List.find p l with Some _ => true | None => false end.
Proof. induction l as [|a l IH]; simpl; [reflexivity|]. destruct (p a); auto. Qed.

Lemma word_upsert_spec w0 src s s' r :
  inv s -> word_upsert w0 src s = (s', r) ->
  exists wr, r = inr wr /\ frame s s' /\
    db_users (db s') = db_users (db s) /\ user_cache s' = user_cache s /\
    channel_cache s' = channel_cache s /\ out s' = out s /\
    In wr (db_words (db s')) /\ w_word wr = strip (lower w0) /\
    word_cache s' !! strip (lower w0) = Some wr /\
    ((forall w, In w (db_words (db s)) -> w_word w <> strip (lower w0)) ->
       db_words (db s') = db_words (db s) ++ [wr] /\ w_source wr = Some src).
Proof.
  intros Hi.
  cbv beta iota zeta delta [word_upsert bind get ret modify set_db with_words set_word_cache].
  set (key := strip (lower w0)).
  destruct (word_cache s !! key) as [w|] eqn:Hc.
  - intros [= <- <-]. exists w.
    destruct (inv_word_cache s Hi key w Hc) as [Hin Hw].
    split_and!; auto using frame_refl.
    intros Hnot. exfalso. exact (Hnot w Hin Hw).
  - rewrite existsb_find.
    destruct (List.find (fun w => String.eqb (w_word w) key) (db_words (db s))) as [w|] eqn:Hf.
    + intros [= <- <-]. exists w.
      apply find_some in Hf as [Hin Hw]. apply String.eqb_eq in Hw.
      match goal with |- _ /\ frame s ?s2 /\ _ => assert (Hi' : inv s2) end.
      { apply (inv_words_grow s _ []); simpl; try rewrite app_nil_r; auto.
        - apply (inv_word_ids s Hi).
        - intros k w' Hk. destruct (decide (k = key)) as [->|Hne].
          + rewrite lookup_insert_eq in Hk. injection Hk as <-. auto.
          + rewrite lookup_insert_ne in Hk by congruence.
            apply (inv_word_cache s Hi k w' Hk). }
      split_and!; simpl; auto.
      * unfold frame; split_and!; auto. exists []. rewrite app_nil_r. reflexivity.
      * apply lookup_insert_eq.
      * intros Hnot. exfalso. exact (Hnot w Hin Hw).
    + intros [= <- <-]. eexists.
      set (w := mkWords (next_id w_id (db_words (db s))) key (Some src)).
      assert (Hnd : NoDup (map w_id (db_words (db s) ++ [w]))).
      { apply nodup_map_snoc; [apply (inv_word_ids s Hi)|reflexivity]. }
      match goal with |- _ /\ frame s ?s2 /\ _ => assert (Hi' : inv s2) end.
      { apply (inv_words_grow s _ [w]); simpl; auto.
        intros k w' Hk. destruct (decide (k = key)) as [->|Hne].
        + rewrite lookup_insert_eq in Hk. injection Hk as <-.
          split; [apply in_or_app; right; left|]; reflexivity.
        + rewrite lookup_insert_ne in Hk by congruence.
          destruct (inv_word_cache s Hi k w' Hk) as [Hin Hw].
          split; [apply in_or_app; left|]; auto. }
      split_and!; simpl; auto.
      * unfold frame; split_and!; auto. exists [w]. reflexivity.
      * apply in_or_app; right; left; reflexivity.
      * apply lookup_insert_eq.
Qed.

Lemma user_upsert_spec uid name discriminator s s' r :
  inv s -> user_upsert uid name discriminator s = (s', r) ->
  exists u, r = inr u /\ frame s s' /\ db_words (db s') = db_words (db s) /\
    channel_cache s' = channel_cache s /\ word_cache s' = word_cache s.
Proof.
  intros Hi.
  cbv beta iota zeta delta [user_upsert bind get ret modify set_db with_users set_user_cache].
  destruct (user_cache s !! uid) as [u|] eqn:Hc.
  - intros [= <- <-]. exists u. split_and!; auto using frame_refl.
  - intros [= <- <-]. eexists.
    match goal with |- _ /\ frame s ?s2 /\ _ => assert (Hi' : inv s2) end.
    { apply (inv_words_grow s _ []); simpl; try rewrite app_nil_r; auto.
      - apply (inv_word_ids s Hi).
      - apply (inv_word_cache s Hi). }
    split_and!; simpl; auto.
    unfold frame; split_and!; auto. exists []. rewrite app_nil_r. reflexivity.
Qed.

Lemma load_game_spec o s s' r :
  load_game o s = (s', r) ->
  s' = s /\
  forall g, r = inr g ->
    match o with
    | None => g = None
    | Some gid => exists gr, g = Some gr /\ List.find (fun g0 => g_id g0 =? gid) (db_games (db s)) = Some gr
    end.
Proof.
  destruct o as [gid|]; cbv beta iota zeta delta [load_game bind get ret raise].
  - destruct (List.find (fun g0 => g_id g0 =? gid) (db_games (db s))) as [gr|] eqn:Hf;
      intros [= <- <-]; split; auto; intros g [= <-]; eauto.
  - intros [= <- <-]. split; auto. intros g [= <-]. reflexivity.
Qed.

(** A state that differs only in the Discord log. *)
Definition out_only (s s' : Iha) : Prop :=
  db s' = db s /\ channel_cache s' = channel_cache s /\ word_cache s' = word_cache s /\
  user_cache s' = user_cache s.

Lemma chain_check_spec m word game_rec s s' r :
  chain_check m word game_rec s = (s', r) ->
  out_only s s' /\
  (r = inr [] ->
   match last_message_query (db_messages (db s)) (db_words (db s)) game_rec with
   | None => True
   | Some lm => exists lw c, find_word (m_word lm) (db_words (db s)) = Some lw /\
                  last_char (w_word lw) = Some c /\ first_char word = Some c
   end).
Proof.
  cbv beta iota zeta delta [chain_check bind get ret raise emit modify].
  destruct (last_message_query (db_messages (db s)) (db_words (db s)) game_rec) as [lm|].
  - destruct (find_word (m_word lm) (db_words (db s))) as [lw|] eqn:Hw.
    + destruct (last_char (w_word lw)) as [c|] eqn:Hl, (first_char word) as [c'|] eqn:Hf0;
        try (intros [= <- <-]; split; [repeat split|discriminate]).
      destruct (Ascii.eqb c' c) eqn:Heq.
      * apply Ascii.eqb_eq in Heq; subst c'.
        intros [= <- <-]. split; [repeat split|]. intros _. eauto.
      * intros [= <- <-]. split; [repeat split|discriminate].
    + intros [= <- <-]. split; [repeat split|discriminate].
  - intros [= <- <-]. split; [repeat split|auto].
Qed.

Lemma repeat_check_spec m game_rec word_rec s s' r :
  repeat_check m game_rec word_rec s = (s', r) ->
  out_only s s' /\ (r = inr [] -> repeat_query (db_messages (db s)) game_rec word_rec = []).
Proof.
  cbv beta iota zeta delta [repeat_check bind get ret raise emit modify].
  destruct (repeat_query (db_messages (db s)) game_rec word_rec) as [|t ts].
  - intros [= <- <-]. split; [repeat split|auto].
  - destruct (List.find (fun u => u_id u =? m_user t) (db_users (db s))) as [u|];
      intros [= <- <-]; split; try (repeat split); discriminate.
Qed.

Lemma frame_out_only s s' : inv s -> out_only s s' -> frame s s'.
Proof. intros Hi (Hd & Hc & Hw & _). apply frame_same; auto. Qed.

(** *** The pipeline's effect on the tables *)

(** What the commit of a move stores, and the checks it passed. *)
Definition committed (m : Incoming) (s s' : Iha) (row : Messages) : Prop :=
  exists word wr game_rec,
    parse_message (msg_clean_content m) = [word] /\
    w_word wr = strip (lower word) /\
    find_word (w_id wr) (db_words (db s')) = Some wr /\
    m_word row = w_id wr /\ m_game row = option_map g_id game_rec /\
    m_timestamp row = msg_created_at m /\
    (m_state row = MESSAGE_STATE_UNKNOWN \/ m_state row = MESSAGE_STATE_OK) /\
    db_messages (db s') = db_messages (db s) ++ [row] /\
    match last_message_query (db_messages (db s)) (db_words (db s')) game_rec with
    | None => True
    | Some lm => exists lw c, find_word (m_word lm) (db_words (db s')) = Some lw /\
                   last_char (w_word lw) = Some c /\ first_char word = Some c
    end /\
    repeat_query (db_messages (db s)) game_rec wr = [] /\
    exists c, channel_view s (msg_channel m) = Some c /\
      option_map g_id game_rec = c_current_game c.

Definition msg_outcome (m : Incoming) (s s' : Iha) : Prop :=
  inv s' /\ db_channels (db s') = db_channels (db s) /\ db_games (db s') = db_games (db s) /\
  (exists ext, db_words (db s') = db_words (db s) ++ ext) /\
  (db_messages (db s') = db_messages (db s) \/ exists row, committed m s s' row).

Lemma outcome_of_frame m s s' : frame s s' -> msg_outcome m s s'.
Proof. intros (Hi & Hc & Hg & Hm & Hw). unfold msg_outcome. split_and!; auto. Qed.

Lemma py_truthy_false {A} (l : list A) : py_truthy l = false -> l = [].
Proof. destruct l; simpl; congruence. Qed.

Lemma inv_msg_append s s' row :
  inv s ->
  db_words (db s') = db_words (db s) -> db_channels (db s') = db_channels (db s) ->
  db_games (db s') = db_games (db s) -> db_messages (db s') = db_messages (db s) ++ [row] ->
  channel_cache s' = channel_cache s -> word_cache s' = word_cache s ->
  (exists w, find_word (m_word row) (db_words (db s)) = Some w) ->
  (forall g, m_game row = Some g ->
     exists gr, In gr (db_games (db s)) /\ g_id gr = g /\ g_channel gr = m_channel row) ->
  inv s'.
Proof.
  intros [] Hw Hc Hg Hm Hcc Hwc Hrw Hrg.
  constructor; rewrite ?Hw, ?Hc, ?Hg, ?Hm, ?Hcc, ?Hwc; auto.
  - intros t Ht. apply in_app_or in Ht as [Ht|[<-|[]]]; auto.
  - intros t g Ht. apply in_app_or in Ht as [Ht|[<-|[]]]; auto.
Qed.

Lemma channel_message_spec m s s' res :
  inv s -> channel_message m s = (s', res) -> msg_outcome m s s'.
Proof.
  intros Hi.
  cbv beta iota zeta delta [channel_message bind ret get modify].
  destruct (channel_get (msg_channel m) s) as [s0 r0] eqn:E0.
  apply channel_get_spec in E0 as (-> & Hc0 & F0 & Hd0 & _); [|exact Hi].
  destruct (match channel_cache s !! msg_channel m with
            | Some v => v | None => find_channel (msg_channel m) (db_channels (db s)) end)
    as [r|] eqn:Ev; [|intros [= <- <-]; apply outcome_of_frame; exact F0].
  destruct (c_game_running r) eqn:Hrun; [|intros [= <- <-]; apply outcome_of_frame; exact F0].
  cbv beta iota delta [negb].
  destruct (parse_message (msg_clean_content m)) as [|word [|w2 rest]] eqn:Hp;
    try (intros [= <- <-]; apply outcome_of_frame; exact F0).
  destruct (word_upsert word WORD_SOURCE_GAME s0) as [s1 r1] eqn:E1.
  apply word_upsert_spec in E1 as (wr & -> & F1 & _ & _ & _ & _ & Hin1 & Hw1 & _ & _);
    [|exact (proj1 F0)].
  pose proof (frame_trans _ _ _ F0 F1) as F01.
  destruct (when _ (emit (React (msg_id m) EMOJI_THUMB_DOWN)) s1) as [s2 r2] eqn:E2.
  apply when_emit_frame in E2 as (-> & F2 & D2); [|exact (proj1 F1)].
  pose proof (frame_trans _ _ _ F01 F2) as F02.
  destruct (when _ (emit (React (msg_id m) EMOJI_THINKING_FACE)) s2) as [s3 r3] eqn:E3.
  apply when_emit_frame in E3 as (-> & F3 & D3); [|exact (proj1 F2)].
  pose proof (frame_trans _ _ _ F02 F3) as F03.
  destruct (load_game (c_current_game r) s3) as [s4 r4] eqn:E4.
  apply load_game_spec in E4 as [-> Hg4].
  destruct r4 as [e|game_rec]; [intros [= <- <-]; apply outcome_of_frame; exact F03|].
  destruct (chain_check m word game_rec s3) as [s5 r5] eqn:E5.
  apply chain_check_spec in E5 as [O5 Hchain].
  pose proof (frame_trans _ _ _ F03 (frame_out_only _ _ (proj1 F3) O5)) as F05.
  destruct r5 as [e|rs2]; [intros [= <- <-]; apply outcome_of_frame; exact F05|].
  destruct (repeat_check m game_rec wr s5) as [s6 r6] eqn:E6.
  apply repeat_check_spec in E6 as [O6 Hrep].
  pose proof (frame_trans _ _ _ F05 (frame_out_only _ _ (proj1 F05) O6)) as F06.
  destruct r6 as [e|rs3]; [intros [= <- <-]; apply outcome_of_frame; exact F06|].
  destruct (when _ (emit (Reply (msg_id m) _)) s6) as [s7 r7] eqn:E7.
  apply when_emit_frame in E7 as (-> & F7 & D7); [|exact (proj1 F06)].
  pose proof (frame_trans _ _ _ F06 F7) as F07.
  destruct (source_eq (w_source wr) WORD_SOURCE_REJECTED || py_truthy rs2 || py_truthy rs3) eqn:Hrej;
    [intros [= <- <-]; apply outcome_of_frame; exact F07|].
  apply orb_false_iff in Hrej as [Hrej Hr3]. apply orb_false_iff in Hrej as [_ Hr2].
  apply py_truthy_false in Hr2, Hr3. subst rs2 rs3.
  destruct (user_upsert (msg_author_id m) (msg_author_name m) (msg_author_discriminator m) s7)
    as [s8 r8] eqn:E8.
  apply user_upsert_spec in E8 as (u & -> & F8 & Hw8 & Hc8 & Hwc8); [|exact (proj1 F7)].
  pose proof (frame_trans _ _ _ F07 F8) as F08.
  intros [= <- <-].
  match goal with
  | |- msg_outcome _ _ (set_db (with_messages (fun ts => ts ++ [?row])) _) => set (rw := row)
  end.
  destruct O5 as (D5 & _). destruct O6 as (D6 & _).
  assert (Hws : db_words (db s8) = db_words (db s1)) by congruence.
  assert (Hws3 : db_words (db s8) = db_words (db s3)) by congruence.
  destruct F08 as (Hi8 & Hc8s & Hg8 & Hm8 & Hext8).
  destruct F05 as (_ & _ & Hg5 & Hm5 & _).
  assert (Hfw : find_word (w_id wr) (db_words (db s8)) = Some wr).
  { apply find_word_in; [apply (inv_word_ids s8 Hi8)|rewrite Hws; exact Hin1]. }
  assert (Hgame : forall g, m_game rw = Some g ->
            exists gr, In gr (db_games (db s8)) /\ g_id gr = g /\ g_channel gr = m_channel rw).
  { intros g. simpl. specialize (Hg4 game_rec eq_refl).
    destruct (c_current_game r) as [gid|] eqn:Hcur.
    - destruct Hg4 as (gr & -> & Hfg). simpl. intros [= <-].
      destruct (inv_cache_game s0 (proj1 F0) _ _ _ Hc0 Hcur) as (gr' & Hin' & Hid' & Hch').
      apply find_some in Hfg as [Hing Hidg]. apply Nat.eqb_eq in Hidg.
      assert (Hgg : db_games (db s3) = db_games (db s0)).
      { destruct F0 as (_ & _ & G0 & _). destruct F03 as (_ & _ & G3 & _). congruence. }
      rewrite Hgg in Hing.
      assert (gr = gr') as ->.
      { eapply nodup_map_inj; [apply (inv_game_ids s0 (proj1 F0))|exact Hing|exact Hin'|congruence]. }
      exists gr'. split_and!; auto.
      destruct F0 as (_ & _ & G0 & _). rewrite Hg8. rewrite <- G0. exact Hin'.
    - subst game_rec. simpl. discriminate. }
  unfold msg_outcome. split_and!.
  - apply (inv_msg_append s8 _ rw); simpl; auto. exists wr. exact Hfw.
  - simpl. destruct Hi8. exact Hc8s.
  - simpl. exact Hg8.
  - simpl. exact Hext8.
  - right. exists rw. exists word, wr, game_rec. simpl. split_and!; auto.
    + destruct (source_eq (w_source wr) WORD_SOURCE_GAME); auto.
    + rewrite Hm8. reflexivity.
    + rewrite Hws3. destruct F03 as (_ & _ & _ & Hm3 & _).
      rewrite <- Hm3. apply Hchain. reflexivity.
    + rewrite <- Hm5. apply Hrep. reflexivity.
    + exists r. split; [exact Ev|]. specialize (Hg4 game_rec eq_refl).
      destruct (c_current_game r) as [gid|].
      * destruct Hg4 as (gr & -> & Hfg). apply find_some in Hfg as [_ Hid].
        apply Nat.eqb_eq in Hid. simpl. congruence.
      * subst game_rec. reflexivity.
Qed.

(** *** The channel handlers and the invariant *)

Definition save_map (r' : Channels) (cs : list Channels) : list Channels :=
  map (fun r0 => if c_id r0 =? c_id r' then r' else r0) cs.

Lemma save_channel_eq r' s :
  save_channel r' s = (set_db (with_channels (save_map r')) s, inr tt).
Proof. reflexivity. Qed.

Lemma save_map_props cs r r' :
  NoDup (map c_id cs) -> In r cs -> c_id r = c_id r' -> c_discord_id r = c_discord_id r' ->
  map c_id (save_map r' cs) = map c_id cs /\
  map c_discord_id (save_map r' cs) = map c_discord_id cs /\
  (forall d, find_channel d (save_map r' cs) =
             option_map (fun r0 => if c_id r0 =? c_id r' then r' else r0) (find_channel d cs)) /\
  (forall x, In x (save_map r' cs) -> In x cs \/ x = r').
Proof.
  intros Hnd Hin Hid Hdc.
  assert (Hsame : forall r0, In r0 cs -> c_id r0 = c_id r' -> r0 = r).
  { intros r0 Hr0 Heq. eapply nodup_map_inj; eauto. congruence. }
  unfold save_map. split_and!.
  - rewrite map_map. apply map_ext_in. intros r0 _.
    destruct (c_id r0 =? c_id r') eqn:E; [apply Nat.eqb_eq in E|]; auto.
  - rewrite map_map. apply map_ext_in. intros r0 Hr0.
    destruct (c_id r0 =? c_id r') eqn:E; [apply Nat.eqb_eq in E|]; auto.
    rewrite (Hsame r0 Hr0 E). auto.
  - intros d. unfold find_channel. apply find_map_same.
    intros r0 Hr0. destruct (c_id r0 =? c_id r') eqn:E; [apply Nat.eqb_eq in E|]; auto.
    rewrite (Hsame r0 Hr0 E), Hdc. reflexivity.
  - intros x Hx. apply in_map_iff in Hx as (r0 & <- & Hr0).
    destruct (c_id r0 =? c_id r'); auto.
Qed.

Lemma find_channel_some d cs r : find_channel d cs = Some r -> In r cs /\ c_discord_id r = d.
Proof.
  unfold find_channel. intros H. apply find_some in H as [Hin Heq].
  apply Nat.eqb_eq in Heq. auto.
Qed.

(** Saving a record over its row. *)
Lemma inv_save s s' r r' :
  inv s -> In r (db_channels (db s)) -> c_id r = c_id r' -> c_discord_id r = c_discord_id r' ->
  (c_game_running r' = true <-> c_current_game r' <> None) ->
  (forall g, c_current_game r' = Some g ->
     exists gr, In gr (db_games (db s)) /\ g_id gr = g /\ g_channel gr = c_id r') ->
  db s' = with_channels (save_map r') (db s) ->
  channel_cache s' = channel_cache s -> word_cache s' = word_cache s ->
  inv s'.
Proof.
  intros Hi Hin Hid Hdc Hst Hgm Hd Hc Hw.
  destruct (save_map_props _ _ _ (inv_chan_ids s Hi) Hin Hid Hdc) as (Hids & Hdcs & Hfind & Hmem).
  destruct Hi; constructor; rewrite ?Hd, ?Hc, ?Hw; simpl; auto.
  - rewrite Hids; auto.
  - rewrite Hdcs; auto.
  - intros x Hx. destruct (Hmem x Hx) as [Hx' | -> ]; auto.
  - intros x g Hx Hg. destruct (Hmem x Hx) as [Hx' | -> ]; eauto.
  - intros d Hd'. rewrite Hfind, (inv_cache_none0 d Hd'). reflexivity.
  - intros d r1 Hd'. destruct (inv_cache_some0 d r1 Hd') as (Hdr & r0 & Hf & Hid0).
    split; [exact Hdr|]. rewrite Hfind, Hf. simpl.
    eexists; split; [reflexivity|].
    destruct (c_id r0 =? c_id r') eqn:E; [apply Nat.eqb_eq in E|]; congruence.
Qed.

(** Putting a record in the cache for its discord id. *)
Lemma inv_cache_put s s' d r' :
  inv s -> c_discord_id r' = d ->
  (exists r0, find_channel d (db_channels (db s)) = Some r0 /\ c_id r0 = c_id r') ->
  (c_game_running r' = true <-> c_current_game r' <> None) ->
  (forall g, c_current_game r' = Some g ->
     exists gr, In gr (db_games (db s)) /\ g_id gr = g /\ g_channel gr = c_id r') ->
  db s' = db s -> channel_cache s' = <[d := Some r']> (channel_cache s) ->
  word_cache s' = word_cache s ->
  inv s'.
Proof.
  intros Hi Hdr Hex Hst Hgm Hd Hc Hw.
  destruct Hi; constructor; rewrite ?Hd, ?Hc, ?Hw; auto.
  - intros d' Hd'. destruct (decide (d' = d)) as [->|Hne].
    + rewrite lookup_insert_eq in Hd'. discriminate.
    + rewrite lookup_insert_ne in Hd' by congruence. auto.
  - intros d' r1 Hd'. destruct (decide (d' = d)) as [->|Hne].
    + rewrite lookup_insert_eq in Hd'. injection Hd' as <-. auto.
    + rewrite lookup_insert_ne in Hd' by congruence. auto.
  - intros d' r1 Hd'. destruct (decide (d' = d)) as [->|Hne].
    + rewrite lookup_insert_eq in Hd'. injection Hd' as <-. auto.
    + rewrite lookup_insert_ne in Hd' by congruence. eauto.
  - intros d' r1 g Hd'. destruct (decide (d' = d)) as [->|Hne].
    + rewrite lookup_insert_eq in Hd'. injection Hd' as <-. auto.
    + rewrite lookup_insert_ne in Hd' by congruence. eauto.
Qed.

Lemma inv_game_append s s' g :
  inv s -> db_games (db s') = db_games (db s) ++ [g] -> g_id g = next_id g_id (db_games (db s)) ->
  db_words (db s') = db_words (db s) -> db_messages (db s') = db_messages (db s) ->
  db_channels (db s') = db_channels (db s) ->
  channel_cache s' = channel_cache s -> word_cache s' = word_cache s ->
  inv s'.
Proof.
  intros Hi Hg Hid Hw Hm Hc Hcc Hwc.
  assert (Hsub : forall gr, In gr (db_games (db s)) -> In gr (db_games (db s'))).
  { intros gr H. rewrite Hg. apply in_or_app. auto. }
  destruct Hi; constructor; rewrite ?Hw, ?Hm, ?Hc, ?Hcc, ?Hwc; auto.
  - intros t g0 Ht Htg. destruct (inv_msg_game0 t g0 Ht Htg) as (gr & ? & ? & ?). eauto.
  - rewrite Hg. apply nodup_map_snoc; auto.
  - intros r g0 Hr Hrg. destruct (inv_chan_game0 r g0 Hr Hrg) as (gr & ? & ? & ?). eauto.
  - intros d r g0 Hd Hrg. destruct (inv_cache_game0 d r g0 Hd Hrg) as (gr & ? & ? & ?). eauto.
Qed.

(** Facts about the handlers that leave the Turns and the words alone. *)
Definition keeps_turns (s s' : Iha) : Prop :=
  inv s' /\ db_messages (db s') = db_messages (db s) /\ db_words (db s') = db_words (db s).

Lemma keeps_turns_of_frame s s' : frame s s' -> db s' = db s -> keeps_turns s s'.
Proof. intros (Hi & _) Hd. unfold keeps_turns. rewrite Hd. auto. Qed.

Lemma game_start_spec d now s s' r :
  inv s -> game_start d now s = (s', r) -> keeps_turns s s'.
Proof.
  intros Hi. cbv beta iota zeta delta [game_start bind get ret raise modify].
  destruct (channel_get d s) as [s0 r0] eqn:E0.
  apply channel_get_spec in E0 as (-> & Hc0 & F0 & Hd0 & Hw0 & _); [|exact Hi].
  destruct (match channel_cache s !! d with
            | Some v => v | None => find_channel d (db_channels (db s)) end) as [rc|] eqn:Ev;
    [|intros [= <- <-]; apply keeps_turns_of_frame; auto].
  destruct (c_game_running rc) eqn:Hrun; [intros [= <- <-]; apply keeps_turns_of_frame; auto|].
  rewrite save_channel_eq. unfold cache_channel, modify. intros [= <- <-].
  set (g := mkGames (next_id g_id (db_games (db s0))) now (c_id rc)).
  set (r' := mkChannels (c_id rc) (c_discord_id rc) (c_name rc) (Some (g_id g)) true).
  set (s1 := set_db (with_games (fun gs => gs ++ [g])) s0).
  assert (Hi0 : inv s0) by apply F0.
  assert (Hi1 : inv s1) by (apply (inv_game_append s0 s1 g); auto).
  destruct (inv_cache_some s0 Hi0 d rc Hc0) as (Hdr & r0 & Hf0 & Hid0).
  destruct (find_channel_some _ _ _ Hf0) as [Hin0 Hdc0].
  assert (Hst' : c_game_running r' = true <-> c_current_game r' <> None)
    by (simpl; split; [discriminate|auto]).
  assert (Hgm' : forall g0, c_current_game r' = Some g0 ->
            exists gr, In gr (db_games (db s1)) /\ g_id gr = g0 /\ g_channel gr = c_id r').
  { intros g0 [= <-]. exists g. simpl. split_and!; auto. apply in_or_app; right; left; reflexivity. }
  set (s2 := set_db (with_channels (save_map r')) s1).
  assert (Hi2 : inv s2).
  { apply (inv_save s1 s2 r0 r'); auto. simpl; congruence. }
  destruct (save_map_props (db_channels (db s1)) r0 r' (inv_chan_ids s1 Hi1) Hin0 Hid0
              (eq_trans Hdc0 (eq_sym Hdr))) as (_ & _ & Hfind & _).
  unfold keeps_turns. split_and!; [|simpl; congruence|simpl; congruence].
  apply (inv_cache_put s2 _ d r'); auto.
  - exists r'. split; [|reflexivity].
    change (find_channel d (save_map r' (db_channels (db s1))) = Some r').
    rewrite Hfind. change (db_channels (db s1)) with (db_channels (db s0)). rewrite Hf0. simpl.
    rewrite Hid0, Nat.eqb_refl. reflexivity.
Qed.

Lemma game_ending_spec d s s' r :
  inv s -> game_ending d s = (s', r) -> keeps_turns s s' /\ db_games (db s') = db_games (db s).
Proof.
  intros Hi. cbv beta iota zeta delta [game_ending bind get ret raise].
  destruct (channel_get d s) as [s0 r0] eqn:E0.
  apply channel_get_spec in E0 as (-> & Hc0 & F0 & Hd0 & Hw0 & _); [|exact Hi].
  assert (K0 : keeps_turns s s0 /\ db_games (db s0) = db_games (db s))
    by (split; [apply keeps_turns_of_frame; auto|rewrite Hd0; reflexivity]).
  destruct (match channel_cache s !! d with
            | Some v => v | None => find_channel d (db_channels (db s)) end) as [rc|];
    [|intros [= <- <-]; exact K0].
  destruct (find_channel d (db_channels (db s0))) as [rw|] eqn:Hf; [|intros [= <- <-]; exact K0].
  destruct (negb (c_game_running rw)); [intros [= <- <-]; exact K0|].
  destruct (load_game (c_current_game rw) s0) as [s1 x] eqn:El.
  apply load_game_spec in El as [-> _].
  destruct x as [e|gr]; [intros [= <- <-]; exact K0|].
  rewrite save_channel_eq. intros [= <- <-].
  assert (Hi0 : inv s0) by apply F0.
  destruct (find_channel_some _ _ _ Hf) as [Hin _].
  destruct K0 as ((_ & Hm0 & Hw0') & Hg0).
  split; [split_and!|]; simpl; auto.
  apply (inv_save s0 _ rw (mkChannels (c_id rw) (c_discord_id rw) (c_name rw) None false)); auto.
  - simpl. split; [discriminate|intros H; contradiction H; reflexivity].
  - simpl. discriminate.
Qed.

Lemma inv_cache_delete s s' d :
  inv s -> db s' = db s -> channel_cache s' = delete d (channel_cache s) ->
  word_cache s' = word_cache s -> inv s'.
Proof.
  intros Hi Hd Hc Hw.
  destruct Hi; constructor; rewrite ?Hd, ?Hc, ?Hw; auto;
    intros d'; destruct (decide (d' = d)) as [->|Hne];
    rewrite ?lookup_delete_eq, ?lookup_delete_ne by congruence; try discriminate; eauto.
Qed.

Lemma find_app_none {A} (p : A -> bool) (l k : list A) :
  List.find p l = None -> List.find p (l ++ k) = List.find p k.
Proof.
  induction l as [|a l IH]; simpl; [reflexivity|].
  destruct (p a); [discriminate|auto].
Qed.

Lemma inv_chan_append s s' r :
  inv s -> channel_cache s !! c_discord_id r = None ->
  c_id r = next_id c_id (db_channels (db s)) ->
  find_channel (c_discord_id r) (db_channels (db s)) = None ->
  c_game_running r = false -> c_current_game r = None ->
  db s' = with_channels (fun cs => cs ++ [r]) (db s) ->
  channel_cache s' = channel_cache s -> word_cache s' = word_cache s -> inv s'.
Proof.
  intros Hi Hcn Hid Hf Hrun Hcur Hd Hc Hw.
  assert (Hnot : forall x, In x (db_channels (db s)) -> c_discord_id x <> c_discord_id r).
  { intros x Hx Heq. unfold find_channel in Hf.
    pose proof (find_none _ _ Hf x Hx) as Hx'. simpl in Hx'. rewrite Heq, Nat.eqb_refl in Hx'.
    discriminate. }
  destruct Hi; constructor; rewrite ?Hd, ?Hc, ?Hw; simpl; auto.
  - apply nodup_map_snoc; auto.
  - rewrite map_app; simpl. apply NoDup_app. split; [auto|]. split; [|apply NoDup_singleton].
    intros x Hx Hx1. apply list_elem_of_In in Hx. apply list_elem_of_In in Hx1.
    apply in_map_iff in Hx as (y & <- & Hy). destruct Hx1 as [Hx1|[]].
    apply (Hnot y Hy); auto.
  - intros x Hx. apply in_app_or in Hx as [Hx|[<-|[]]]; auto.
    rewrite Hrun, Hcur. split; [discriminate|intros H; contradiction H; reflexivity].
  - intros x g Hx Hg. apply in_app_or in Hx as [Hx|[<-|[]]]; eauto. congruence.
  - intros d' Hd'. unfold find_channel. rewrite find_app_none. 
    + simpl. destruct (c_discord_id r =? d') eqn:E; [|reflexivity].
      apply Nat.eqb_eq in E. congruence.
    + apply inv_cache_none0. exact Hd'.
  - intros d' r1 Hd'. destruct (inv_cache_some0 d' r1 Hd') as (? & r0 & Hf0 & ?).
    split; auto. exists r0. split; auto. unfold find_channel. apply find_app_some. exact Hf0.
Qed.

Lemma channel_add_spec d name s s' r :
  inv s -> channel_add d name s = (s', r) ->
  keeps_turns s s' /\ db_games (db s') = db_games (db s).
Proof.
  intros Hi. cbv beta iota zeta delta [channel_add bind get ret modify].
  assert (Hs : forall r0 r', find_channel d (db_channels (db s)) = Some r0 -> c_id r0 = c_id r' ->
             c_discord_id r' = d ->
             (c_game_running r' = true <-> c_current_game r' <> None) ->
             (forall g, c_current_game r' = Some g ->
                exists gr, In gr (db_games (db s)) /\ g_id gr = g /\ g_channel gr = c_id r') ->
             inv (set_channel_cache (fun c => <[d := Some r']> c) s)).
  { intros r0 r' Hf Hid Hdr Hst Hgm. apply (inv_cache_put s _ d r'); eauto. }
  destruct (find_channel d (db_channels (db s))) as [r0|] eqn:Hf.
  - destruct (find_channel_some _ _ _ Hf) as [Hin Hdr].
    destruct (decide (c_name r0 = Some name)) as [Hn|Hn].
    + unfold cache_channel, modify. intros [= <- <-].
      split; [split_and!|]; simpl; auto.
      apply (Hs r0 r0); auto; [apply (inv_chan_state s Hi); auto|].
      intros g Hg. apply (inv_chan_game s Hi); auto.
    + rewrite save_channel_eq. unfold cache_channel, modify. intros [= <- <-].
      set (r' := mkChannels (c_id r0) (c_discord_id r0) (Some name) (c_current_game r0) (c_game_running r0)).
      assert (Hst : c_game_running r' = true <-> c_current_game r' <> None)
        by (apply (inv_chan_state s Hi r0); auto).
      assert (Hgm : forall g, c_current_game r' = Some g ->
                exists gr, In gr (db_games (db s)) /\ g_id gr = g /\ g_channel gr = c_id r')
        by (intros g Hg; apply (inv_chan_game s Hi r0); auto).
      set (s1 := set_db (with_channels (save_map r')) s).
      assert (Hi1 : inv s1) by (apply (inv_save s s1 r0 r'); auto).
      destruct (save_map_props (db_channels (db s)) r0 r' (inv_chan_ids s Hi) Hin eq_refl eq_refl)
        as (_ & _ & Hfind & _).
      split; [split_and!|]; simpl; auto.
      apply (inv_cache_put s1 _ d r'); auto.
      exists r'. split; [|reflexivity].
      change (find_channel d (save_map r' (db_channels (db s))) = Some r').
      rewrite Hfind, Hf. simpl. rewrite Nat.eqb_refl. reflexivity.
  - destruct (decide (c_name (mkChannels (next_id c_id (db_channels (db s))) d None None false) = Some name))
      as [Hn|_]; [discriminate|].
    rewrite save_channel_eq. unfold cache_channel, modify. intros [= <- <-].
    set (r0 := mkChannels (next_id c_id (db_channels (db s))) d None None false).
    set (r' := mkChannels (c_id r0) (c_discord_id r0) (Some name) None false).
    set (sD := set_channel_cache (delete d) s).
    assert (HiD : inv sD) by (apply (inv_cache_delete s sD d); auto).
    set (sA := set_db (with_channels (fun cs => cs ++ [r0])) sD).
    assert (HiA : inv sA).
    { apply (inv_chan_append sD sA r0); auto. simpl. apply lookup_delete_eq. }
    set (sS := set_db (with_channels (save_map r')) sA).
    assert (Hin : In r0 (db_channels (db sA))) by (simpl; apply in_or_app; right; left; reflexivity).
    assert (HiS : inv sS).
    { apply (inv_save sA sS r0 r'); auto.
      - simpl. split; [discriminate|intros H; contradiction H; reflexivity].
      - simpl. discriminate. }
    destruct (save_map_props (db_channels (db sA)) r0 r' (inv_chan_ids sA HiA) Hin eq_refl eq_refl)
      as (_ & _ & Hfind & _).
    set (sC := set_channel_cache (fun c => <[d := Some r']> c) sS).
    assert (HiC : inv sC).
    { apply (inv_cache_put sS sC d r'); auto.
      - exists r'. split; [|reflexivity].
        change (find_channel d (save_map r' (db_channels (db sA))) = Some r').
        rewrite Hfind. unfold find_channel. simpl. rewrite find_app_none by exact Hf.
        simpl. rewrite Nat.eqb_refl. simpl. rewrite Nat.eqb_refl. reflexivity.
      - simpl. split; [discriminate|intros H; contradiction H; reflexivity].
      - simpl. discriminate. }
    split; [split_and!|]; simpl; auto.
    apply (inv_ext sC); auto. simpl. symmetry; apply insert_delete_eq.
Qed.

Lemma find_none_intro {A} (p : A -> bool) (l : list A) :
  (forall x, In x l -> p x = false) -> List.find p l = None.
Proof.
  induction l as [|a l IH]; simpl; intros H; [reflexivity|].
  rewrite (H a (or_introl eq_refl)). apply IH. auto.
Qed.

Lemma inv_cache_none_put s s' d :
  inv s -> find_channel d (db_channels (db s)) = None ->
  db s' = db s -> channel_cache s' = <[d := None]> (channel_cache s) ->
  word_cache s' = word_cache s -> inv s'.
Proof.
  intros Hi Hf Hd Hc Hw.
  destruct Hi; constructor; rewrite ?Hd, ?Hc, ?Hw; auto;
    intros d'; destruct (decide (d' = d)) as [->|Hne];
    rewrite ?lookup_insert_eq, ?lookup_insert_ne by congruence; try congruence; eauto.
Qed.

Lemma channel_remove_spec d s s' r :
  inv s -> channel_remove d s = (s', r) ->
  keeps_turns s s' /\ db_games (db s') = db_games (db s).
Proof.
  intros Hi. cbv beta iota zeta delta [channel_remove bind get ret modify cache_channel].
  simpl.
  destruct (find_channel d (db_channels (db s))) as [rd|] eqn:Hf.
  2:{ intros [= <- <-]. unfold keeps_turns. simpl. split_and!; [|reflexivity..].
      apply (inv_cache_none_put s _ d); auto. }
  intros [= <- <-].
  destruct (find_channel_some _ _ _ Hf) as [Hin Hdd].
  set (k := c_id rd).
  assert (Hnk : forall x, In x (db_channels (db s)) -> c_discord_id x <> d -> c_id x <> k).
  { intros x Hx Hxd Hxk. apply Hxd. rewrite <- Hdd. f_equal.
    apply (nodup_map_inj c_id _ _ _ (inv_chan_ids s Hi)); auto. }
  unfold keeps_turns. simpl. split_and!; [|reflexivity..].
  destruct Hi; constructor; simpl; auto.
  - apply nodup_map_filter; auto.
  - apply nodup_map_filter; auto.
  - intros x Hx. apply filter_In in Hx as [Hx _]. auto.
  - intros x g Hx Hxg. apply filter_In in Hx as [Hx _]. auto.
  - intros d' Hd'. destruct (decide (d' = d)) as [->|Hne].
    + unfold find_channel. apply find_none_intro. intros x Hx.
      apply filter_In in Hx as [Hx Hxk]. apply Nat.eqb_neq. intros Hxd.
      apply negb_true_iff, Nat.eqb_neq in Hxk. apply Hxk.
      unfold k. f_equal. apply (nodup_map_inj c_discord_id _ _ _ inv_chan_discord0); auto. congruence.
    + rewrite lookup_insert_ne in Hd' by congruence. unfold find_channel. apply find_filter_none. apply inv_cache_none0. exact Hd'.
  - intros d' r1 Hd'. destruct (decide (d' = d)) as [->|Hne];
      [rewrite lookup_insert_eq in Hd'; discriminate|].
    rewrite lookup_insert_ne in Hd' by congruence.
    destruct (inv_cache_some0 d' r1 Hd') as (Hr1 & r0 & Hf0 & Hid0).
    split; auto. exists r0. split; auto. apply find_filter_some; auto.
    destruct (find_channel_some _ _ _ Hf0) as [Hr0 Hd0].
    apply negb_true_iff, Nat.eqb_neq. apply Hnk; auto. congruence.
  - intros d' r1 Hd'. destruct (decide (d' = d)) as [->|Hne];
      [rewrite lookup_insert_eq in Hd'; discriminate|].
    rewrite lookup_insert_ne in Hd' by congruence. eauto.
  - intros d' r1 g Hd' Hg. destruct (decide (d' = d)) as [->|Hne];
      [rewrite lookup_insert_eq in Hd'; discriminate|].
    rewrite lookup_insert_ne in Hd' by congruence. eauto.
Qed.

Lemma channel_sync_state d h s s' r : channel_sync d h s = (s', r) -> s' = s.
Proof.
  cbv beta iota zeta delta [channel_sync bind get ret raise].
  destruct (List.find (fun r0 => c_id r0 =? 1) (db_channels (db s))) as [rc|];
    [|intros [= <- _]; reflexivity].
  match goal with |- ?f ?l s = _ -> _ => generalize l end.
  intros l. induction l as [|x l IH]; simpl; [intros [= <- _]; reflexivity|].
  destruct (parse_message (msg_clean_content x)); [exact IH|intros [= <- _]; reflexivity].
Qed.

Lemma inv_initial ws bs : NoDup (map w_id ws) -> inv (initial_state ws bs).
Proof.
  intros Hnd. constructor; simpl; try (intros; exfalso; assumption);
    try (intros ? ?; rewrite lookup_empty; discriminate);
    try (intros ? ? ?; rewrite lookup_empty; discriminate);
    try (intros ? ? ? ?; rewrite lookup_empty; discriminate);
    auto; constructor.
Qed.

(** One handler, on the tables the Turn invariants read. *)
Definition step_tables (o : op) (s s' : Iha) : Prop :=
  inv s' /\ (exists ext, db_words (db s') = db_words (db s) ++ ext) /\
  (db_messages (db s') = db_messages (db s) \/
   (exists m row, o = OpMessage m /\ committed m s s' row)).

Lemma step_tables_keeps o s s' : keeps_turns s s' -> step_tables o s s'.
Proof.
  intros (Hi & Hm & Hw). split_and!; auto. exists []. rewrite app_nil_r. auto.
Qed.

Lemma run_op_spec o s : inv s -> step_tables o s (run_op o s).
Proof.
  intros Hi. destruct o as [d name|d|d h|d now|d|m]; simpl.
  - destruct (channel_add d name s) as [s' r] eqn:E.
    apply step_tables_keeps. eapply channel_add_spec; eauto.
  - destruct (channel_remove d s) as [s' r] eqn:E.
    apply step_tables_keeps. eapply channel_remove_spec; eauto.
  - destruct (channel_sync d (fun _ => h) s) as [s' r] eqn:E.
    apply channel_sync_state in E. subst s'. simpl.
    split_and!; auto. exists []. rewrite app_nil_r. auto.
  - destruct (game_start d now s) as [s' r] eqn:E.
    apply step_tables_keeps. eapply game_start_spec; eauto.
  - destruct (game_ending d s) as [s' r] eqn:E.
    apply step_tables_keeps. eapply game_ending_spec; eauto.
  - destruct (channel_message m s) as [s' r] eqn:E.
    destruct (channel_message_spec m s s' r Hi E) as (Hi' & _ & _ & Hw & Hm). simpl.
    split_and!; auto. destruct Hm as [Hm|[row Hm]]; eauto 6.
Qed.

Lemma reachable_inv s : reachable s -> inv s.
Proof.
  induction 1 as [ws bs Hnd|s o _ IH]; [apply inv_initial; exact Hnd|].
  apply (run_op_spec o s IH).
Qed.

Lemma reachable_in_order_reachable s : reachable_in_order s -> reachable s.
Proof. induction 1; constructor; auto. Qed.

(** *** Strings and the latest Turn *)

Lemma az_char c : (97 <=? nat_of_ascii c) && (nat_of_ascii c <=? 122) = true ->
  lower_char c = c /\ is_space c = false.
Proof.
  destruct c as [[] [] [] [] [] [] [] []]; vm_compute; intros H;
    first [discriminate H | split; reflexivity].
Qed.

Lemma lstrip_snoc l c : is_space c = false -> lstrip_list (l ++ [c]) = lstrip_list l ++ [c].
Proof.
  intros Hc. induction l as [|a l IH]; simpl; [rewrite Hc; reflexivity|].
  destruct (is_space a); auto.
Qed.

Lemma strip_lower_first w :
  starts_az w = true -> first_char (strip (lower w)) = first_char w.
Proof.
  destruct w as [|c rest]; simpl; [discriminate|]. intros Haz.
  destruct (az_char c Haz) as [Hl Hs].
  unfold strip, lower. rewrite list_ascii_of_string_of_list_ascii. simpl.
  rewrite Hl, Hs. simpl. rewrite lstrip_snoc by exact Hs. rewrite rev_app_distr. reflexivity.
Qed.

Lemma collect_words_az l w : In w (collect_words l) -> starts_az w = true.
Proof.
  induction l as [|e l IH]; simpl; [contradiction|].
  destruct (String.eqb e " "); [exact IH|].
  destruct (starts_az e) eqn:E; simpl; [|contradiction].
  intros [<-|H]; auto.
Qed.

Lemma parse_message_az c w : parse_message c = [w] -> starts_az w = true.
Proof.
  unfold parse_message. intros H. apply (collect_words_az (re_split (lower c))).
  rewrite H. left. reflexivity.
Qed.

Lemma latest_none l : latest l = None -> l = [].
Proof. destruct l as [|a l]; simpl; [auto|]. destruct (latest l); [destruct (_ <=? _)|]; discriminate. Qed.

Lemma latest_some l x : latest l = Some x ->
  In x l /\ forall y, In y l -> m_timestamp y <= m_timestamp x.
Proof.
  revert x. induction l as [|a l IH]; simpl; intros x; [discriminate|].
  destruct (latest l) as [t'|] eqn:E.
  - destruct (IH t' eq_refl) as [Hin Hmax].
    destruct (m_timestamp t' <=? m_timestamp a) eqn:Hle; intros [= <-];
      [apply Nat.leb_le in Hle | apply Nat.leb_gt in Hle].
    + split; auto. intros y [<-|Hy]; [lia|]. specialize (Hmax y Hy). lia.
    + split; auto. intros y [<-|Hy]; [lia|auto].
  - intros [= <-]. apply latest_none in E. subst l.
    split; auto. intros y [<-|[]]. lia.
Qed.


(** *** The Turn invariants *)

(** A Turn with state in [[UNKNOWN, OK]]: the condition of the chain query. *)
Definition ok_state (t : Messages) : bool :=
  (m_state t =? MESSAGE_STATE_UNKNOWN) || (m_state t =? MESSAGE_STATE_OK).

(** Consecutive valid Turns of a Game, in timestamp order, chain. *)
Definition chain_inv (ms : list Messages) (ws : list Words) : Prop :=
  forall g t1 t2, In t1 ms -> In t2 ms -> m_game t1 = Some g -> m_game t2 = Some g ->
    ok_state t1 = true -> ok_state t2 = true -> m_timestamp t1 < m_timestamp t2 ->
    (forall t3, In t3 ms -> m_game t3 = Some g -> ok_state t3 = true ->
       ~ (m_timestamp t1 < m_timestamp t3 /\ m_timestamp t3 < m_timestamp t2)) ->
    exists w1 w2 c, find_word (m_word t1) ws = Some w1 /\ find_word (m_word t2) ws = Some w2 /\
      last_char (w_word w1) = Some c /\ first_char (w_word w2) = Some c.


(** The words of the Turns of each Game are pairwise distinct. *)
Definition no_repeat (ms : list Messages) : Prop :=
  forall g, NoDup (map m_word (List.filter (in_game g) ms)).

Lemma game_is_some t gr : game_is t (Some gr) = true -> m_game t = Some (g_id gr).
Proof.
  unfold game_is. destruct (m_game t) as [gid|]; [|discriminate].
  intros H. apply Nat.eqb_eq in H. congruence.
Qed.

(** Within each Game, the Turns have pairwise distinct timestamps. *)
Definition game_times (ms : list Messages) : Prop :=
  forall g, NoDup (map m_timestamp (List.filter (in_game g) ms)).

Lemma chain_commit m s s' row :
  inv s -> chain_inv (db_messages (db s)) (db_words (db s)) ->
  game_times (db_messages (db s)) ->
  in_orderb (OpMessage m) s = true ->
  (exists ext, db_words (db s') = db_words (db s) ++ ext) ->
  committed m s s' row ->
  chain_inv (db_messages (db s')) (db_words (db s')) /\
  game_times (db_messages (db s')).
Proof.
  intros Hi Hch Hnd Hord [ext Hw]
    (word & wr & game_rec & Hp & Hww & Hfw & Hmw & Hmg & Hts & _ & Hms & Hlast & _ & c & Hv & Hcg).
  assert (Hord' : forall gr, game_rec = Some gr -> forall t, In t (db_messages (db s)) ->
            m_game t = Some (g_id gr) -> m_timestamp t < msg_created_at m).
  { intros gr -> t Ht Htg. unfold in_orderb in Hord. rewrite Hv, <- Hcg in Hord. simpl in Hord.
    rewrite forallb_forall in Hord. specialize (Hord t Ht).
    unfold in_game in Hord. rewrite Htg, Nat.eqb_refl in Hord. simpl in Hord.
    apply Nat.ltb_lt. exact Hord. }
  assert (Hin_game : forall g t, In t (db_messages (db s)) -> m_game t = Some g ->
            In t (List.filter (in_game g) (db_messages (db s)))).
  { intros g t Ht Htg. apply filter_In. split; [exact Ht|].
    unfold in_game. rewrite Htg. apply Nat.eqb_refl. }
  rewrite Hms. split.
  2:{ intros g. rewrite List.filter_app. simpl.
      destruct (in_game g row) eqn:Hrow; [|rewrite app_nil_r; apply Hnd].
      apply nodup_map_snoc_gt; [apply Hnd|].
      intros t Ht. apply filter_In in Ht as [Ht Htg].
      unfold in_game in Hrow, Htg. rewrite Hmg in Hrow.
      destruct game_rec as [gr|]; simpl in Hrow; [|discriminate].
      destruct (m_game t) as [g'|] eqn:Hg'; [|discriminate].
      apply Nat.eqb_eq in Hrow, Htg. subst.
      rewrite Hts. apply (Hord' gr eq_refl t Ht). exact Hg'. }
  intros g t1 t2 H1 H2 Hg1 Hg2 Ho1 Ho2 Hlt H3.
  apply in_app_or in H1 as [H1|[<-|[]]]; apply in_app_or in H2 as [H2|[<-|[]]].
  - destruct (Hch g t1 t2 H1 H2 Hg1 Hg2 Ho1 Ho2 Hlt) as (w1 & w2 & c' & Hf1 & Hf2 & Hc1 & Hc2).
    { intros t3 H3' ; apply H3. apply in_or_app; auto. }
    exists w1, w2, c'. rewrite Hw. split_and!; auto; apply find_word_app; auto.
  - destruct game_rec as [gr|]; simpl in Hmg; rewrite Hmg in Hg2; [|discriminate Hg2].
    injection Hg2 as Hg2.
    set (P := fun t => game_is t (Some gr) && ok_state t &&
                       bool_decide (is_Some (find_word (m_word t) (db_words (db s'))))).
    assert (Hp1 : P t1 = true).
    { unfold P, game_is. rewrite Hg1, <- Hg2, Nat.eqb_refl, Ho1. simpl.
      apply bool_decide_eq_true. destruct (inv_msg_word s Hi t1 H1) as [w Hfw1].
      exists w. rewrite Hw. apply find_word_app. exact Hfw1. }
    replace (last_message_query (db_messages (db s)) (db_words (db s')) (Some gr))
      with (latest (List.filter P (db_messages (db s)))) in Hlast by reflexivity.
    destruct (latest (List.filter P (db_messages (db s)))) as [lm|] eqn:El.
    2:{ apply latest_none in El. assert (Hin : In t1 (List.filter P (db_messages (db s))))
          by (apply filter_In; auto). rewrite El in Hin. contradiction. }
    destruct (latest_some _ _ El) as [Hlm Hmax].
    assert (Hin1 : In t1 (List.filter P (db_messages (db s)))) by (apply filter_In; auto).
    specialize (Hmax t1 Hin1).
    apply filter_In in Hlm as [Hlm HPlm]. unfold P in HPlm.
    apply andb_true_iff in HPlm as [HPlm _]. apply andb_true_iff in HPlm as [Hglm Holm].
    apply game_is_some in Hglm.
    assert (Heq : m_timestamp lm = m_timestamp t1).
    { destruct (Nat.eq_dec (m_timestamp lm) (m_timestamp t1)) as [E|E]; [exact E|].
      exfalso. apply (H3 lm (in_or_app _ _ _ (or_introl Hlm))); [congruence|exact Holm|].
      split; [lia|]. rewrite Hts. apply (Hord' gr eq_refl lm Hlm Hglm). }
    assert (lm = t1) as ->.
    { apply (nodup_map_inj m_timestamp (List.filter (in_game g) (db_messages (db s)))); auto.
      apply Hin_game; [exact Hlm|congruence]. }
    destruct Hlast as (lw & c' & Hflw & Hlc & Hfc).
    exists lw, wr, c'. rewrite Hmw. split_and!; auto.
    rewrite Hww, strip_lower_first; [exact Hfc|]. apply (parse_message_az _ _ Hp).
  - destruct game_rec as [gr|]; simpl in Hmg; rewrite Hmg in Hg1; [|discriminate Hg1].
    injection Hg1 as Hg1. rewrite Hts in Hlt.
    assert (Hlt2 : m_timestamp t2 < msg_created_at m)
      by (apply (Hord' gr eq_refl t2 H2); congruence).
    lia.
  - lia.
Qed.

Lemma no_repeat_commit m s s' row :
  no_repeat (db_messages (db s)) -> committed m s s' row -> no_repeat (db_messages (db s')).
Proof.
  intros Hnr (word & wr & game_rec & _ & _ & _ & Hmw & Hmg & _ & _ & Hms & _ & Hrep & _) g.
  rewrite Hms, List.filter_app, map_app. simpl.
  destruct (in_game g row) eqn:Hrow; simpl; [|rewrite app_nil_r; apply Hnr].
  apply NoDup_app. split; [apply Hnr|]. split; [|apply NoDup_singleton].
  intros x Hx Hx1. apply list_elem_of_In in Hx. apply list_elem_of_In in Hx1.
  destruct Hx1 as [<-|[]].
  apply in_map_iff in Hx as (t & Ht & Hin). apply filter_In in Hin as [Hin Hg].
  unfold in_game in Hg, Hrow. rewrite Hmg in Hrow.
  destruct game_rec as [gr|]; simpl in Hrow; [|discriminate].
  assert (Hq : In t (repeat_query (db_messages (db s)) (Some gr) wr)).
  { apply filter_In. split; auto. apply andb_true_iff. split.
    - unfold game_is. destruct (m_game t); [|discriminate].
      apply Nat.eqb_eq in Hg, Hrow. subst. apply Nat.eqb_refl.
    - apply Nat.eqb_eq. congruence. }
  rewrite Hrep in Hq. contradiction.
Qed.

(** What the handlers keep of the Turn tables, under in-order delivery. *)
Lemma turns_in_order s :
  reachable_in_order s ->
  chain_inv (db_messages (db s)) (db_words (db s)) /\ game_times (db_messages (db s)).
Proof.
  induction 1 as [ws bs Hnd|s o Hr IH Ho].
  - split; [intros g t1 t2 []|intros g; constructor].
  - destruct IH as [Hch Hts].
    pose proof (reachable_inv s (reachable_in_order_reachable s Hr)) as Hi.
    destruct (run_op_spec o s Hi) as (_ & [ext Hw] & Hm).
    destruct Hm as [Hm|(m & row & -> & Hc)].
    + rewrite Hm, Hw. split; auto.
      intros g t1 t2 H1 H2 Hg1 Hg2 Ho1 Ho2 Hlt H3.
      destruct (Hch g t1 t2 H1 H2 Hg1 Hg2 Ho1 Ho2 Hlt H3) as (w1 & w2 & c & ? & ? & ? & ?).
      exists w1, w2, c. split_and!; auto; apply find_word_app; auto.
    + apply (chain_commit m s _ row Hi Hch Hts Ho); eauto.
Qed.

Lemma turns_no_repeat s : reachable s -> no_repeat (db_messages (db s)).
Proof.
  induction 1 as [ws bs Hnd|s o Hr IH].
  - intros g. constructor.
  - destruct (run_op_spec o s (reachable_inv s Hr)) as (_ & _ & Hm).
    destruct Hm as [Hm|(m & row & _ & Hc)].
    + rewrite Hm. exact IH.
    + apply (no_repeat_commit m s _ row); auto.
Qed.

(** *** The BannedWords table is never read by the pipeline *)

(** The same state with the banned list [b]. *)
Definition ban (b : list BannedWords) (s : Iha) : Iha := set_db (with_banned (fun _ => b)) s.

Definition banned_blind {A} (m : M A) : Prop :=
  forall b s, m (ban b s) = (ban b (fst (m s)), snd (m s)).

Lemma blind_ret {A} (a : A) : banned_blind (ret a).
Proof. intros b s. reflexivity. Qed.

Lemma blind_raise {A} e : banned_blind (@raise A e).
Proof. intros b s. reflexivity. Qed.

Lemma blind_bind {A B} (m : M A) (k : A -> M B) :
  banned_blind m -> (forall a, banned_blind (k a)) -> banned_blind (bind m k).
Proof.
  intros Hm Hk b s. unfold bind. rewrite Hm.
  destruct (m s) as [s1 [e|a]]; simpl; [reflexivity|]. apply Hk.
Qed.

Lemma blind_get {B} (k : Iha -> M B) :
  (forall s0, banned_blind (k s0)) -> (forall b s0 s, k (ban b s0) s = k s0 s) ->
  banned_blind (bind get k).
Proof. intros Hk Hk' b s. unfold bind, get. rewrite Hk'. apply Hk. Qed.

Lemma blind_modify f : (forall b s, f (ban b s) = ban b (f s)) -> banned_blind (modify f).
Proof. intros Hf b s. unfold modify. rewrite Hf. reflexivity. Qed.

Ltac blind_step :=
  match goal with
  | |- banned_blind (match ?x with _ => _ end) => destruct x
  | |- banned_blind (if ?x then _ else _) => destruct x
  | |- banned_blind (ret _) => apply blind_ret
  | |- banned_blind (raise _) => apply blind_raise
  | |- banned_blind (bind get _) =>
      apply blind_get; [intros ?s0 | intros ?b ?s0 ?s; reflexivity]
  | |- banned_blind (modify _) => apply blind_modify; intros ?b ?s; reflexivity
  | |- banned_blind (bind _ _) => apply blind_bind; intros
  | |- _ => progress cbv beta zeta
  end.

Lemma channel_message_blind m : banned_blind (channel_message m).
Proof.
  unfold channel_message, channel_get, word_upsert, user_upsert, when, load_game,
    chain_check, repeat_check, cache_channel, emit.
  repeat blind_step.
Qed.

(** *** The Discord log only grows *)

Definition out_grows {A} (m : M A) : Prop := forall s, exists l, out (fst (m s)) = out s ++ l.

Lemma grows_ret {A} (a : A) : out_grows (ret a).
Proof. intros s. exists []. rewrite app_nil_r. reflexivity. Qed.

Lemma grows_raise {A} e : out_grows (@raise A e).
Proof. intros s. exists []. rewrite app_nil_r. reflexivity. Qed.

Lemma grows_bind {A B} (m : M A) (k : A -> M B) :
  out_grows m -> (forall a, out_grows (k a)) -> out_grows (bind m k).
Proof.
  intros Hm Hk s. unfold bind. destruct (Hm s) as [l1 H1].
  destruct (m s) as [s1 [e|a]]; simpl in *; [eauto|].
  destruct (Hk a s1) as [l2 H2]. exists (l1 ++ l2). rewrite H2, H1, app_assoc. reflexivity.
Qed.

Lemma grows_get {B} (k : Iha -> M B) : (forall s0, out_grows (k s0)) -> out_grows (bind get k).
Proof. intros Hk s. apply Hk. Qed.

Lemma grows_modify f : (forall s, exists l, out (f s) = out s ++ l) -> out_grows (modify f).
Proof. intros Hf s. apply Hf. Qed.

Ltac grows_step :=
  match goal with
  | |- out_grows (match ?x with _ => _ end) => destruct x
  | |- out_grows (if ?x then _ else _) => destruct x
  | |- out_grows (ret _) => apply grows_ret
  | |- out_grows (raise _) => apply grows_raise
  | |- out_grows (bind get _) => apply grows_get; intros ?s0
  | |- out_grows (modify _) =>
      apply grows_modify; intros ?s;
      first [exists []; rewrite app_nil_r; reflexivity | eexists; reflexivity]
  | |- out_grows (bind _ _) => apply grows_bind; intros
  | |- _ => progress cbv beta zeta
  end.

Lemma chain_check_grows m word game_rec : out_grows (chain_check m word game_rec).
Proof. unfold chain_check, emit. repeat grows_step. Qed.

Lemma repeat_check_grows m game_rec word_rec : out_grows (repeat_check m game_rec word_rec).
Proof. unfold repeat_check, emit. repeat grows_step. Qed.

Lemma when_grows b a : out_grows (when b (emit a)).
Proof. unfold when, emit. repeat grows_step. Qed.

Lemma grows_of {A} (m : M A) s s' r : out_grows m -> m s = (s', r) -> exists l, out s' = out s ++ l.
Proof. intros Hm E. destruct (Hm s) as [l H]. rewrite E in H. eauto. Qed.


Lemma word_upsert_present w0 src s s' wr :
  inv s -> (exists w, In w (db_words (db s)) /\ w_word w = strip (lower w0)) ->
  word_upsert w0 src s = (s', inr wr) -> In wr (db_words (db s)).
Proof.
  intros Hi (w & Hw & Hww). cbv beta iota zeta delta [word_upsert bind get ret modify].
  destruct (word_cache s !! strip (lower w0)) as [wc|] eqn:Hc.
  - intros [= <- <-]. apply (inv_word_cache s Hi _ _ Hc).
  - destruct (List.find (fun w1 => String.eqb (w_word w1) (strip (lower w0))) (db_words (db s)))
      as [wf|] eqn:Hf.
    + intros [= <- <-]. apply find_some in Hf as [Hf _]. exact Hf.
    + exfalso. pose proof (find_none _ _ Hf w Hw) as H. simpl in H.
      rewrite Hww, String.eqb_refl in H. discriminate.
Qed.

Lemma rejected_source_no_turn m s s' res r word :
  inv s ->
  channel_view s (msg_channel m) = Some r -> c_game_running r = true ->
  parse_message (msg_clean_content m) = [word] ->
  (exists w, In w (db_words (db s)) /\ w_word w = strip (lower word)) ->
  (forall w, In w (db_words (db s)) -> w_word w = strip (lower word) ->
     w_source w = Some WORD_SOURCE_REJECTED) ->
  channel_message m s = (s', res) ->
  db_messages (db s') = db_messages (db s) /\
  In (React (msg_id m) EMOJI_THUMB_DOWN) (out s') /\
  (forall t, res <> inr (Some t)) /\
  (forall x, res = inr x -> exists rs, In (Reply (msg_id m) (ReasonRejected word :: rs)) (out s')).
Proof.
  intros Hi Hv Hrun Hp Hex Hall.
  cbv beta iota zeta delta [channel_message bind ret get modify].
  destruct (channel_get (msg_channel m) s) as [s0 r0] eqn:E0.
  apply channel_get_spec in E0 as (-> & Hc0 & F0 & Hd0 & Hw0 & _); [|exact Hi].
  unfold channel_view in Hv. rewrite Hv, Hrun. cbv beta iota delta [negb]. rewrite Hp.
  destruct (word_upsert word WORD_SOURCE_GAME s0) as [s1 r1] eqn:E1.
  assert (Hex0 : exists w, In w (db_words (db s0)) /\ w_word w = strip (lower word))
    by (rewrite Hd0; exact Hex).
  pose proof E1 as E1'.
  apply word_upsert_spec in E1 as (wr & -> & F1 & _ & _ & _ & _ & _ & Hw1 & _ & _);
    [|exact (proj1 F0)].
  apply word_upsert_present in E1'; [|exact (proj1 F0)|exact Hex0].
  rewrite Hd0 in E1'.
  assert (Hsrc : source_eq (w_source wr) WORD_SOURCE_REJECTED = true)
    by (rewrite (Hall wr E1' Hw1); reflexivity).
  rewrite Hsrc.
  pose proof (frame_trans _ _ _ F0 F1) as F01.
  destruct (when true (emit (React (msg_id m) EMOJI_THUMB_DOWN)) s1) as [s2 r2] eqn:E2.
  assert (Ho2 : out s2 = out s1 ++ [React (msg_id m) EMOJI_THUMB_DOWN])
    by (simpl in E2; injection E2 as <- _; reflexivity).
  apply when_emit_frame in E2 as (-> & F2 & D2); [|exact (proj1 F1)].
  pose proof (frame_trans _ _ _ F01 F2) as F02.
  assert (Hin2 : In (React (msg_id m) EMOJI_THUMB_DOWN) (out s2))
    by (rewrite Ho2; apply in_or_app; right; left; reflexivity).
  assert (Hfin : forall s3, (exists l, out s3 = out s2 ++ l) ->
            In (React (msg_id m) EMOJI_THUMB_DOWN) (out s3)).
  { intros s3 [l ->]. apply in_or_app. left. exact Hin2. }
  assert (Hm2 : db_messages (db s2) = db_messages (db s))
    by (destruct F02 as (_ & _ & _ & H & _); exact H).
  destruct (when _ (emit (React (msg_id m) EMOJI_THINKING_FACE)) s2) as [s3 r3] eqn:E3.
  pose proof (grows_of _ _ _ _ (when_grows _ _) E3) as G3.
  apply when_emit_frame in E3 as (-> & F3 & D3); [|exact (proj1 F2)].
  destruct G3 as [l3 G3].
  assert (Hm3 : db_messages (db s3) = db_messages (db s)) by (rewrite D3; exact Hm2).
  assert (Hg3 : forall s4, (exists l, out s4 = out s3 ++ l) -> exists l, out s4 = out s2 ++ l).
  { intros s4 [l H]. exists (l3 ++ l). rewrite H, G3, app_assoc. reflexivity. }
  destruct (load_game (c_current_game r) s3) as [s4 r4] eqn:E4.
  apply load_game_spec in E4 as [-> _].
  destruct r4 as [e|game_rec].
  { intros [= <- <-]. split_and!; [exact Hm3|apply Hfin, Hg3; exists []; symmetry; apply app_nil_r|discriminate|intros ? [=]]. }
  destruct (chain_check m word game_rec s3) as [s5 r5] eqn:E5.
  pose proof (grows_of _ _ _ _ (chain_check_grows _ _ _) E5) as G5.
  apply chain_check_spec in E5 as [O5 _].
  pose proof (frame_trans _ _ _ (frame_trans _ _ _ F02 F3) (frame_out_only _ _ (proj1 F3) O5)) as F05.
  destruct O5 as (D5 & _).
  assert (Hm5 : db_messages (db s5) = db_messages (db s)) by (rewrite D5; exact Hm3).
  destruct G5 as [l5 G5].
  assert (Hg5 : forall s6, (exists l, out s6 = out s5 ++ l) -> exists l, out s6 = out s2 ++ l).
  { intros s6 [l H]. apply Hg3. exists (l5 ++ l). rewrite H, G5, app_assoc. reflexivity. }
  destruct r5 as [e|rs2].
  { intros [= <- <-]. split_and!; [exact Hm5|apply Hfin, Hg5; exists []; symmetry; apply app_nil_r|discriminate|intros ? [=]]. }
  destruct (repeat_check m game_rec wr s5) as [s6 r6] eqn:E6.
  pose proof (grows_of _ _ _ _ (repeat_check_grows _ _ _) E6) as G6.
  apply repeat_check_spec in E6 as [O6 _].
  pose proof (frame_out_only _ _ (proj1 F05) O6) as F6.
  destruct O6 as (D6 & _).
  assert (Hm6 : db_messages (db s6) = db_messages (db s)) by (rewrite D6; exact Hm5).
  destruct G6 as [l6 G6].
  assert (Hg6 : forall s7, (exists l, out s7 = out s6 ++ l) -> exists l, out s7 = out s2 ++ l).
  { intros s7 [l H]. apply Hg5. exists (l6 ++ l). rewrite H, G6, app_assoc. reflexivity. }
  destruct r6 as [e|rs3].
  { intros [= <- <-]. split_and!; [exact Hm6|apply Hfin, Hg6; exists []; symmetry; apply app_nil_r|discriminate|intros ? [=]]. }
  destruct (when _ (emit (Reply (msg_id m) _)) s6) as [s7 r7] eqn:E7.
  pose proof (grows_of _ _ _ _ (when_grows _ _) E7) as G7.
  assert (Hrep7 : exists rs, In (Reply (msg_id m) (ReasonRejected word :: rs)) (out s7)).
  { pose proof E7 as E7'. simpl in E7'. injection E7' as <- _.
    eexists. simpl. apply in_or_app. right. left. reflexivity. }
  apply when_emit_frame in E7 as (-> & _ & D7); [|exact (proj1 F6)].
  simpl. intros [= <- <-]. split_and!.
  - rewrite D7. exact Hm6.
  - apply Hfin, Hg6. exact G7.
  - discriminate.
  - intros x _. exact Hrep7.
Qed.

(** *** Runs *)

Lemma rio_run_ops os s :
  reachable_in_order s -> ops_in_order os s = true -> reachable_in_order (run_ops os s).
Proof.
  revert s. induction os as [|o os IH]; simpl; intros s Hr H; [exact Hr|].
  apply andb_true_iff in H as [H1 H2]. apply IH; auto.
  constructor; auto.
Qed.

Lemma reachable_run_ops os s : reachable s -> reachable (run_ops os s).
Proof.
  revert s. induction os as [|o os IH]; simpl; intros s Hr; [exact Hr|].
  apply IH. constructor. exact Hr.
Qed.

Lemma channel_get_eq d s s' r :
  channel_get d s = (s', r) ->
  r = inr (channel_view s d) /\ db s' = db s /\ out s' = out s.
Proof.
  unfold channel_get, channel_view, bind, get, ret, cache_channel, modify; simpl.
  destruct (channel_cache s !! d); intros [= <- <-]; auto.
Qed.

(** *** Tokens *)

Lemma re_split_aux_pieces cs cur e :
  (forall ch, In ch cur -> is_delim ch = false) -> In e (re_split_aux cs cur) ->
  (forall ch, In ch (list_ascii_of_string e) -> is_delim ch = false) \/
  (exists c, e = String c EmptyString /\ is_delim c = true).
Proof.
  revert cur. induction cs as [|c cs IH]; simpl; intros cur Hcur He.
  - destruct He as [<-|[]]. left. rewrite list_ascii_of_string_of_list_ascii.
    intros ch Hch. apply Hcur. apply in_rev. exact Hch.
  - destruct (is_delim c) eqn:Hc.
    + destruct He as [<-|[<-|He]].
      * left. rewrite list_ascii_of_string_of_list_ascii.
        intros ch Hch. apply Hcur. apply in_rev. exact Hch.
      * right. eauto.
      * apply (IH []); simpl; auto. intros ch [].
    + apply (IH (c :: cur)); auto. intros ch [<-|Hch]; auto.
Qed.

Lemma delim_not_az c : is_delim c = true -> starts_az (String c EmptyString) = false.
Proof. destruct c as [[] [] [] [] [] [] [] []]; vm_compute; congruence. Qed.

Lemma collect_words_in l w : In w (collect_words l) -> In w l.
Proof.
  induction l as [|e l IH]; simpl; [contradiction|].
  destruct (String.eqb e " "); [auto|].
  destruct (starts_az e); simpl; [|contradiction].
  intros [<-|H]; auto.
Qed.

Lemma parse_message_tokens c w :
  In w (parse_message c) ->
  starts_az w = true /\ forall ch, In ch (list_ascii_of_string w) -> is_delim ch = false.
Proof.
  intros H. pose proof (collect_words_az _ _ H) as Haz. split; [exact Haz|].
  apply collect_words_in in H. unfold re_split in H.
  destruct (re_split_aux_pieces _ [] w (fun ch (H : In ch []) => match H with end) H)
    as [Hd|(c0 & -> & Hc0)]; [exact Hd|].
  rewrite delim_not_az in Haz by exact Hc0. discriminate.
Qed.

(** The tokens are the longest prefix of the pieces other than " " whose
    pieces all begin with a-z. *)
Lemma collect_words_prefix l :
  exists rest, List.filter (fun e => negb (String.eqb e " ")) l = collect_words l ++ rest /\
    match rest with [] => True | e :: _ => starts_az e = false end.
Proof.
  induction l as [|e l (rest & IH & Hr)]; [exists []; split; [reflexivity|exact I]|].
  simpl. destruct (String.eqb e " ") eqn:Hsp; simpl; [exists rest; auto|].
  destruct (starts_az e) eqn:Haz; simpl.
  - exists rest. rewrite IH. auto.
  - exists (e :: List.filter (fun e0 => negb (String.eqb e0 " ")) l). auto.
Qed.

Lemma when_emit_caches b a s s' r :
  when b (emit a) s = (s', r) ->
  db s' = db s /\ word_cache s' = word_cache s /\ r = inr tt /\ channel_cache s' = channel_cache s.
Proof. destruct b; simpl; intros [= <- <-]; auto. Qed.

(* ------------------------------------------------------------------ *)
(** ** The claims *)

(** C1 (counterexample): a message created before the last Turn but
    delivered after it is checked against that Turn.  With "apple" stored
    at time 10, "egg" of time 5 starts with the last letter of "apple" and
    is stored; in timestamp order "egg" then "apple" do not chain. *)
Lemma chain_broken_late_message :
  let s := run_ops [OpAdd 7 "shiritori"; OpStart 7 100;
                    OpMessage (sample_msg 1 10 "apple"); OpMessage (sample_msg 2 5 "egg")]
                   (initial_state [] []) in
  reachable s /\ ~ chain_inv (db_messages (db s)) (db_words (db s)).
Proof.
  intros s. split; [apply reachable_run_ops; constructor; constructor|].
  intros H.
  destruct (H 1 (mkMessages 2 5 0 "egg" 2 (Some 1) 1 1) (mkMessages 1 10 0 "apple" 1 (Some 1) 1 1))
    as (w1 & w2 & c & H1 & H2 & H3 & H4).
  - vm_compute. right. left. reflexivity.
  - vm_compute. left. reflexivity.
  - reflexivity.
  - reflexivity.
  - reflexivity.
  - reflexivity.
  - simpl. lia.
  - intros t3 Ht3 _ _ [Ha Hb]. vm_compute in Ht3.
    destruct Ht3 as [<-|[<-|[]]]; simpl in Ha, Hb; lia.
  - vm_compute in H1, H2. injection H1 as <-. injection H2 as <-.
    vm_compute in H3, H4. congruence.
Qed.

(** C1 (amended): in every state reached by handlers in which each
    message is later than every Turn already stored in the Game it would
    join (the current game of its channel's record), for every Game, two
    Turns of the Game with state in [[UNKNOWN, OK]] that are consecutive
    in timestamp order chain: the first character of the later Turn's
    word is the last character of the earlier Turn's word. *)
Theorem chain_invariant s :
  reachable_in_order s -> chain_inv (db_messages (db s)) (db_words (db s)).
Proof. intros H. apply (turns_in_order s H). Qed.

Lemma chain_invariant_witness :
  reachable_in_order (run_ops sample_game (initial_state [] [])) /\
  chain_inv (db_messages (db (run_ops sample_game (initial_state [] []))))
            (db_words (db (run_ops sample_game (initial_state [] [])))).
Proof.
  assert (H : reachable_in_order (run_ops sample_game (initial_state [] []))).
  { apply rio_run_ops; [constructor; constructor|vm_compute; reflexivity]. }
  split; [exact H|]. apply (chain_invariant _ H).
Defined.

(** C2: in every reachable state, for every Game, the Turns of the Game
    reference pairwise distinct Words: the list of their word ids has no
    duplicate. *)
Theorem no_repeat_invariant s : reachable s -> no_repeat (db_messages (db s)).
Proof. intros H. apply (turns_no_repeat s H). Qed.

Lemma no_repeat_invariant_witness :
  reachable (run_ops sample_game (initial_state [] [])) /\
  no_repeat (db_messages (db (run_ops sample_game (initial_state [] [])))).
Proof.
  assert (H : reachable (run_ops sample_game (initial_state [] [])))
    by (apply reachable_run_ops; constructor; constructor).
  split; [exact H|]. apply (no_repeat_invariant _ H).
Defined.

(** C6: in every reachable state, every Channel row has [game_running]
    true exactly when [current_game] is set. *)
Theorem running_iff_current_game s :
  reachable s -> forall r, In r (db_channels (db s)) ->
  (c_game_running r = true <-> c_current_game r <> None).
Proof. intros H. apply (inv_chan_state s (reachable_inv s H)). Qed.

Lemma running_iff_current_game_witness :
  reachable (run_ops sample_game (initial_state [] [])) /\
  forall r, In r (db_channels (db (run_ops sample_game (initial_state [] [])))) ->
  (c_game_running r = true <-> c_current_game r <> None).
Proof.
  assert (H : reachable (run_ops sample_game (initial_state [] [])))
    by (apply reachable_run_ops; constructor; constructor).
  split; [exact H|]. apply (running_iff_current_game _ H).
Defined.

(** C4: after [add], [start], a Turn "apple" and a successful [game_ending]
    that returns the Game and clears the channel row, a message "eagle" in
    the channel still passes the gate (the cached record still says the
    game runs) and is stored as a Turn of the ended Game 1. *)
Theorem turn_after_game_ending :
  let s := run_ops [OpAdd 7 "shiritori"; OpStart 7 100; OpMessage (sample_msg 1 10 "apple")]
                   (initial_state [] []) in
  snd (game_ending 7 s) = inr (Some (mkGames 1 100 1)) /\
  map (fun r => (c_current_game r, c_game_running r)) (db_channels (db (fst (game_ending 7 s))))
    = [(None, false)] /\
  exists t, snd (channel_message (sample_msg 2 11 "eagle") (fst (game_ending 7 s))) = inr (Some t) /\
    m_game t = Some 1 /\
    In t (db_messages (db (fst (channel_message (sample_msg 2 11 "eagle") (fst (game_ending 7 s)))))).
Proof.
  vm_compute. split_and!; [reflexivity|reflexivity|].
  eexists. split_and!; [reflexivity|reflexivity|right; left; reflexivity].
Qed.

(** C7: [channel_sync] on a registered channel whose history holds the
    single-word message "apple" raises [TypeError] (the call to
    [word_upsert] lacks its [source] argument) and stores no Turn. *)
Theorem channel_sync_type_error :
  let s := run_ops [OpAdd 7 "shiritori"] (initial_state [] []) in
  channel_sync 7 (fun _ => [sample_msg 1 10 "apple"]) s =
    (s, inl (TypeError "word_upsert() missing 1 required positional argument: 'source'")) /\
  db_messages (db s) = [].
Proof. vm_compute. split; reflexivity. Qed.

(** C8: after [add], [start] and a successful [game_ending], the channel
    row is IDLE ([current_game] unset, [game_running] false), yet [start]
    fails with "Game is already running in shiritori" and creates no Game. *)
Theorem start_after_game_ending_refused :
  let s := run_ops [OpAdd 7 "shiritori"; OpStart 7 100; OpEnd 7] (initial_state [] []) in
  map (fun r => (c_current_game r, c_game_running r)) (db_channels (db s)) = [(None, false)] /\
  snd (game_start 7 200 s) = inl (Exception "Game is already running in shiritori") /\
  db_games (db (fst (game_start 7 200 s))) = db_games (db s).
Proof. vm_compute. split_and!; reflexivity. Qed.

(** C3 (counterexample): with "apple" in the BannedWords table, a running
    game and no Word row for it, the message "apple" gets no thumbs-down
    and is stored as a Turn. *)
Lemma banned_word_stored :
  let s := run_ops [OpAdd 7 "shiritori"; OpStart 7 100]
                   (initial_state [] [mkBannedWords 1 "apple"]) in
  map bw_word (db_banned (db s)) = ["apple"] /\
  out (fst (channel_message (sample_msg 1 10 "apple") s)) = [React 1 EMOJI_THINKING_FACE] /\
  exists t, snd (channel_message (sample_msg 1 10 "apple") s) = inr (Some t) /\
    db_messages (db (fst (channel_message (sample_msg 1 10 "apple") s))) = [t].
Proof.
  vm_compute. split_and!; [reflexivity|reflexivity|]. eexists. split; reflexivity.
Qed.

(** C3 (amended): the pipeline never reads the BannedWords table: run on
    the same state with any other banned list, it gives the same result
    and the same state (with that list).  Only [Word.source == REJECTED]
    rejects: for a gated single-word message whose Word rows have source
    REJECTED, a thumbs-down reaction is sent, no Turn is stored, and when
    the handler returns it has sent a reply whose first line is the
    reason "<word> has previously been rejected.". *)
Theorem banned_table_unused b m s s' res r word :
  channel_message m (ban b s) = (ban b (fst (channel_message m s)), snd (channel_message m s)) /\
  (reachable s ->
   channel_view s (msg_channel m) = Some r -> c_game_running r = true ->
   parse_message (msg_clean_content m) = [word] ->
   (exists w, In w (db_words (db s)) /\ w_word w = strip (lower word)) ->
   (forall w, In w (db_words (db s)) -> w_word w = strip (lower word) ->
      w_source w = Some WORD_SOURCE_REJECTED) ->
   channel_message m s = (s', res) ->
   db_messages (db s') = db_messages (db s) /\
   In (React (msg_id m) EMOJI_THUMB_DOWN) (out s') /\
   (forall t, res <> inr (Some t)) /\
   (forall x, res = inr x ->
      exists rs, In (Reply (msg_id m) (ReasonRejected word :: rs)) (out s'))).
Proof.
  split; [apply channel_message_blind|].
  intros Hr. apply rejected_source_no_turn. apply reachable_inv. exact Hr.
Qed.

Lemma banned_table_unused_witness :
  let s := run_ops [OpAdd 7 "shiritori"; OpStart 7 100]
                   (initial_state [mkWords 1 "apple" (Some WORD_SOURCE_REJECTED)] []) in
  let m := sample_msg 1 10 "apple" in
  reachable s /\
  channel_view s 7 = Some (mkChannels 1 7 (Some "shiritori") (Some 1) true) /\
  db_messages (db (fst (channel_message m s))) = db_messages (db s) /\
  In (React 1 EMOJI_THUMB_DOWN) (out (fst (channel_message m s))) /\
  (forall t, snd (channel_message m s) <> inr (Some t)) /\
  exists rs, In (Reply 1 (ReasonRejected "apple" :: rs)) (out (fst (channel_message m s))).
Proof.
  intros s m.
  assert (Hr : reachable s).
  { apply reachable_run_ops. constructor. vm_compute. constructor; [intros H; inversion H|constructor]. }
  destruct (proj2 (banned_table_unused [] m s (fst (channel_message m s)) (snd (channel_message m s))
                     (mkChannels 1 7 (Some "shiritori") (Some 1) true) "apple")
                  Hr) as (H1 & H2 & H3 & H4).
  - vm_compute. reflexivity.
  - reflexivity.
  - vm_compute. reflexivity.
  - exists (mkWords 1 "apple" (Some WORD_SOURCE_REJECTED)). split; [left; reflexivity|reflexivity].
  - intros w [<-|[]] _. reflexivity.
  - destruct (channel_message m s); reflexivity.
  - split_and!; [exact Hr|vm_compute; reflexivity|exact H1|exact H2|exact H3|].
    apply (H4 None). vm_compute. reflexivity.
Defined.

(** C5 (counterexample): "a1" is not alphabetic, yet it is a token, and in
    a running game the message "a1" is stored as a Turn. *)
Lemma non_alpha_token_stored :
  let s := run_ops [OpAdd 7 "shiritori"; OpStart 7 100] (initial_state [] []) in
  parse_message "a1" = ["a1"] /\
  exists t, snd (channel_message (sample_msg 1 10 "a1") s) = inr (Some t) /\
    db_messages (db (fst (channel_message (sample_msg 1 10 "a1") s))) = [t].
Proof. vm_compute. split; [reflexivity|]. eexists. split; reflexivity. Qed.

(** C5 (amended): after lowercasing and splitting on space, '(', ':', '!'
    and '?', the tokens are collected while each piece (other than a
    single space) begins with a letter a-z: the token list is the longest
    prefix of those pieces whose first characters are a-z, and the rest
    of a token is not checked ("a1" is a token).  So every token begins
    with a-z and holds no delimiter.  A message whose token list is not a
    single token leaves the tables and the Discord log unchanged and gives
    [None]; "apple pie" gives two tokens. *)
Theorem tokens_begin_with_letter c m s s' res :
  (forall w, In w (parse_message c) ->
     starts_az w = true /\ forall ch, In ch (list_ascii_of_string w) -> is_delim ch = false) /\
  (exists rest,
     List.filter (fun e => negb (String.eqb e " ")) (re_split (lower c)) = parse_message c ++ rest /\
     match rest with [] => True | e :: _ => starts_az e = false end) /\
  parse_message "a1" = ["a1"] /\
  (msg_clean_content m = c -> (forall w, parse_message c <> [w]) ->
   channel_message m s = (s', res) -> db s' = db s /\ out s' = out s /\ res = inr None) /\
  parse_message "apple pie" = ["apple"; "pie"].
Proof.
  split_and!; [apply parse_message_tokens|apply collect_words_prefix|reflexivity| |reflexivity].
  intros <- Hnot. cbv beta iota zeta delta [channel_message bind ret].
  destruct (channel_get (msg_channel m) s) as [s0 r0] eqn:E0.
  apply channel_get_eq in E0 as (-> & Hd0 & Ho0).
  destruct (channel_view s (msg_channel m)) as [r|]; [|intros [= <- <-]; auto].
  destruct (c_game_running r); simpl; [|intros [= <- <-]; auto].
  destruct (parse_message (msg_clean_content m)) as [|w [|w2 l]];
    [intros [= <- <-]; auto|exfalso; apply (Hnot w); reflexivity|intros [= <- <-]; auto].
Qed.

Lemma tokens_begin_with_letter_witness :
  let s := run_ops [OpAdd 7 "shiritori"; OpStart 7 100] (initial_state [] []) in
  let m := sample_msg 1 10 "apple pie" in
  db (fst (channel_message m s)) = db s /\ out (fst (channel_message m s)) = out s /\
  snd (channel_message m s) = inr None.
Proof.
  intros s m.
  destruct (tokens_begin_with_letter "apple pie" m s (fst (channel_message m s))
              (snd (channel_message m s))) as (_ & _ & _ & H & _).
  apply H.
  - reflexivity.
  - vm_compute. intros w H'. discriminate H'.
  - destruct (channel_message m s); reflexivity.
Defined.

(** C9: in a reachable state, on a registered channel, [game_ending] on an
    IDLE row raises "No game is currently running in <name>" and leaves
    the tables unchanged; on a RUNNING row it returns the Game the row
    points to, which stays in the Games table (unchanged), leaves the
    Turns alone and saves the row with [current_game] unset and
    [game_running] false. *)
Theorem game_ending_outcome d s s' res r :
  reachable s -> find_channel d (db_channels (db s)) = Some r -> game_ending d s = (s', res) ->
  (c_game_running r = false ->
     res = inl (Exception ("No game is currently running in " ++ py_str_opt (c_name r))) /\
     db s' = db s) /\
  (c_game_running r = true ->
     exists gr, res = inr (Some gr) /\ c_current_game r = Some (g_id gr) /\
       In gr (db_games (db s)) /\
       db_games (db s') = db_games (db s) /\ db_messages (db s') = db_messages (db s) /\
       find_channel d (db_channels (db s')) =
         Some (mkChannels (c_id r) (c_discord_id r) (c_name r) None false)).
Proof.
  intros Hr Hf. pose proof (reachable_inv s Hr) as Hi.
  cbv beta iota zeta delta [game_ending load_game bind get ret raise].
  destruct (channel_get d s) as [s0 r0] eqn:E0.
  apply channel_get_spec in E0 as (-> & _ & F0 & Hd0 & _); [|exact Hi].
  destruct (channel_cache s !! d) as [[rc|]|] eqn:Hc.
  2:{ rewrite (inv_cache_none s Hi d Hc) in Hf. discriminate. }
  all: rewrite ?Hf; rewrite Hd0, Hf.
  all: destruct (c_game_running r) eqn:Hrun; simpl;
    [|intros [= <- <-]; split; [auto|intros; discriminate]].
  all: destruct (c_current_game r) as [gid|] eqn:Hcur;
    [|exfalso; apply (proj1 (inv_chan_state s Hi r (proj1 (find_channel_some _ _ _ Hf))) Hrun);
      exact Hcur].
  all: destruct (inv_chan_game s Hi r gid (proj1 (find_channel_some _ _ _ Hf)) Hcur)
         as (gr & Hgr & Hid & _).
  all: rewrite Hd0.
  all: destruct (List.find (fun g0 => g_id g0 =? gid) (db_games (db s))) as [gf|] eqn:Hfg.
  2,4: exfalso; pose proof (find_none _ _ Hfg gr Hgr) as H; simpl in H;
       rewrite Hid, Nat.eqb_refl in H; discriminate.
  all: apply find_some in Hfg as [Hinf Hidf]; apply Nat.eqb_eq in Hidf.
  all: intros [= <- <-]; split; [intros; discriminate|intros _].
  all: set (r' := mkChannels (c_id r) (c_discord_id r) (c_name r) None false).
  all: destruct (save_map_props (db_channels (db s)) r r' (inv_chan_ids s Hi)
                   (proj1 (find_channel_some _ _ _ Hf)) eq_refl eq_refl) as (_ & _ & Hfind & _).
  all: assert (Hf' : find_channel d (save_map r' (db_channels (db s))) = Some r')
         by (rewrite Hfind, Hf; simpl; rewrite Nat.eqb_refl; reflexivity).
  all: exists gf; split_and!; [reflexivity|rewrite Hidf; reflexivity|exact Hinf| | |];
       simpl; rewrite Hd0; [reflexivity|reflexivity|exact Hf'].
Qed.

Lemma game_ending_outcome_witness :
  let s := run_ops [OpAdd 7 "shiritori"; OpStart 7 100] (initial_state [] []) in
  reachable s /\
  find_channel 7 (db_channels (db s)) = Some (mkChannels 1 7 (Some "shiritori") (Some 1) true) /\
  exists gr, snd (game_ending 7 s) = inr (Some gr) /\ In gr (db_games (db s)) /\
    db_games (db (fst (game_ending 7 s))) = db_games (db s).
Proof.
  intros s.
  assert (Hr : reachable s) by (apply reachable_run_ops; constructor; constructor).
  assert (Hf : find_channel 7 (db_channels (db s)) =
               Some (mkChannels 1 7 (Some "shiritori") (Some 1) true)) by (vm_compute; reflexivity).
  destruct (proj2 (game_ending_outcome 7 s (fst (game_ending 7 s)) (snd (game_ending 7 s)) _ Hr Hf
                     (surjective_pairing _)) eq_refl)
    as (gr & H1 & _ & H2 & H3 & _).
  split_and!; [exact Hr|exact Hf|]. exists gr. split_and!; assumption.
Defined.

(** C10: in a reachable state, for a gated single-word message whose word
    has no Word row, a row with the word and source GAME is appended to
    the Words table and cached; whatever follows, the Words table keeps
    it, and when no Turn is stored (rejection or error) the Turns and
    Users tables are unchanged. *)
Theorem new_word_recorded m s s' res r word :
  reachable s ->
  channel_view s (msg_channel m) = Some r -> c_game_running r = true ->
  parse_message (msg_clean_content m) = [word] ->
  (forall w, In w (db_words (db s)) -> w_word w <> strip (lower word)) ->
  channel_message m s = (s', res) ->
  exists wr, w_word wr = strip (lower word) /\ w_source wr = Some WORD_SOURCE_GAME /\
    db_words (db s') = db_words (db s) ++ [wr] /\
    word_cache s' !! strip (lower word) = Some wr /\
    ((forall t, res <> inr (Some t)) ->
       db_messages (db s') = db_messages (db s) /\ db_users (db s') = db_users (db s)).
Proof.
  intros Hr Hv Hrun Hp Hnew. pose proof (reachable_inv s Hr) as Hi.
  cbv beta iota zeta delta [channel_message bind ret get modify].
  destruct (channel_get (msg_channel m) s) as [s0 r0] eqn:E0.
  apply channel_get_spec in E0 as (-> & _ & F0 & Hd0 & Hwc0 & _); [|exact Hi].
  unfold channel_view in Hv. rewrite Hv, Hrun. cbv beta iota delta [negb]. rewrite Hp.
  destruct (word_upsert word WORD_SOURCE_GAME s0) as [s1 r1] eqn:E1.
  apply word_upsert_spec in E1
    as (wr & -> & F1 & Hu1 & _ & _ & _ & _ & Hw1 & Hc1 & Hnew1); [|exact (proj1 F0)].
  destruct Hnew1 as [Hws1 Hsrc1]; [rewrite Hd0; exact Hnew|].
  rewrite Hd0 in Hws1. rewrite Hd0 in Hu1.
  assert (Hm1 : db_messages (db s1) = db_messages (db s)).
  { destruct F1 as (_ & _ & _ & H & _). rewrite H, Hd0. reflexivity. }
  intros E. exists wr. split_and!; [exact Hw1|exact Hsrc1| | |]; revert E.
  all: destruct (when _ (emit (React (msg_id m) EMOJI_THUMB_DOWN)) s1) as [s2 r2] eqn:E2;
       apply when_emit_caches in E2 as (D2 & C2 & -> & K2).
  all: destruct (when _ (emit (React (msg_id m) EMOJI_THINKING_FACE)) s2) as [s3 r3] eqn:E3;
       apply when_emit_caches in E3 as (D3 & C3 & -> & K3).
  all: destruct (load_game (c_current_game r) s3) as [s4 r4] eqn:E4;
       apply load_game_spec in E4 as [-> _].
  all: destruct r4 as [e|game_rec];
       [intros [= <- <-]; rewrite ?D3, ?D2, ?C3, ?C2; auto|].
  all: destruct (chain_check m word game_rec s3) as [s5 r5] eqn:E5;
       apply chain_check_spec in E5 as [(D5 & K5 & C5 & _) _].
  all: destruct r5 as [e|rs2];
       [intros [= <- <-]; rewrite ?D5, ?D3, ?D2, ?C5, ?C3, ?C2; auto|].
  all: destruct (repeat_check m game_rec wr s5) as [s6 r6] eqn:E6;
       apply repeat_check_spec in E6 as [(D6 & K6 & C6 & _) _].
  all: destruct r6 as [e|rs3];
       [intros [= <- <-]; rewrite ?D6, ?D5, ?D3, ?D2, ?C6, ?C5, ?C3, ?C2; auto|].
  all: destruct (when _ (emit (Reply (msg_id m) _)) s6) as [s7 r7] eqn:E7;
       apply when_emit_caches in E7 as (D7 & C7 & -> & K7).
  all: destruct (_ || py_truthy rs2 || py_truthy rs3);
       [intros [= <- <-]; rewrite ?D7, ?D6, ?D5, ?D3, ?D2, ?C7, ?C6, ?C5, ?C3, ?C2; auto|].
  all: destruct (user_upsert (msg_author_id m) (msg_author_name m) (msg_author_discriminator m) s7)
         as [s8 r8] eqn:E8.
  all: assert (Hi7 : inv s7) by (apply (inv_ext s1); [congruence|congruence|congruence|apply F1]).
  all: apply user_upsert_spec in E8 as (u & -> & _ & Hw8 & _ & Hwc8); [|exact Hi7].
  all: intros [= <- <-]; simpl.
  - rewrite Hw8, D7, D6, D5, D3, D2. exact Hws1.
  - rewrite Hwc8, C7, C6, C5, C3, C2. exact Hc1.
  - intros Hnot. exfalso. eapply Hnot. reflexivity.
Qed.


Lemma new_word_recorded_witness :
  let s := run_ops [OpAdd 7 "shiritori"; OpStart 7 100; OpMessage (sample_msg 1 10 "apple")]
                   (initial_state [] []) in
  let m := sample_msg 2 11 "banana" in
  reachable s /\
  snd (channel_message m s) = inr None /\
  exists wr, w_word wr = "banana" /\ w_source wr = Some WORD_SOURCE_GAME /\
    db_words (db (fst (channel_message m s))) = db_words (db s) ++ [wr] /\
    db_messages (db (fst (channel_message m s))) = db_messages (db s) /\
    db_users (db (fst (channel_message m s))) = db_users (db s).
Proof.
  intros s m.
  assert (Hr : reachable s) by (apply reachable_run_ops; constructor; constructor).
  assert (Hres : snd (channel_message m s) = inr None) by (vm_compute; reflexivity).
  destruct (new_word_recorded m s (fst (channel_message m s)) (snd (channel_message m s))
              (mkChannels 1 7 (Some "shiritori") (Some 1) true) "banana")
    as (wr & H1 & H2 & H3 & _ & H5).
  - exact Hr.
  - vm_compute. reflexivity.
  - reflexivity.
  - vm_compute. reflexivity.
  - vm_compute. intros w [<-|[]]. discriminate.
  - destruct (channel_message m s); reflexivity.
  - destruct H5 as [H5 H6]; [rewrite Hres; intros t; discriminate|].
    split_and!; [exact Hr|exact Hres|]. exists wr. split_and!; assumption.
Defined.
(* ------------------------------------------------------------------ *)
(** ** Further properties: helper facts *)

(** *** Tokens of a single word *)

(** The characters [[a-zA-Z]] of the pattern of [parse_message]. *)
Definition ascii_letter (ch : ascii) : bool :=
  let n := nat_of_ascii ch in ((65 <=? n) && (n <=? 90)) || ((97 <=? n) && (n <=? 122)).

(** Lower-case ASCII letters. *)
Definition az (ch : ascii) : bool := (97 <=? nat_of_ascii ch) && (nat_of_ascii ch <=? 122).

Lemma letter_lower_az ch : ascii_letter ch = true -> az (lower_char ch) = true.
Proof.
  destruct ch as [[] [] [] [] [] [] [] []]; vm_compute; intros H; first [discriminate H | reflexivity].
Qed.

Lemma az_not_delim ch : az ch = true -> is_delim ch = false.
Proof.
  destruct ch as [[] [] [] [] [] [] [] []]; vm_compute; intros H; first [discriminate H | reflexivity].
Qed.

Lemma lower_cons c rest : lower (String c rest) = String (lower_char c) (lower rest).
Proof. reflexivity. Qed.

Lemma lower_app a b : lower (a ++ b)%string = (lower a ++ lower b)%string.
Proof.
  induction a as [|c a IH]; [reflexivity|].
  change (String c a ++ b)%string with (String c (a ++ b)%string).
  rewrite !lower_cons, IH. reflexivity.
Qed.

Lemma list_ascii_app a b : list_ascii_of_string (a ++ b)%string = list_ascii_of_string a ++ list_ascii_of_string b.
Proof. induction a as [|c a IH]; simpl; [reflexivity|]. rewrite IH. reflexivity. Qed.

Lemma re_split_aux_nodelim cs rest cur :
  (forall ch, In ch cs -> is_delim ch = false) ->
  re_split_aux (cs ++ rest) cur = re_split_aux rest (rev cs ++ cur).
Proof.
  revert cur. induction cs as [|c cs IH]; simpl; intros cur H; [reflexivity|].
  rewrite (H c (or_introl eq_refl)). rewrite IH by auto. rewrite <- app_assoc. reflexivity.
Qed.

Lemma re_split_aux_head cs cur :
  exists p tl, re_split_aux cs cur = string_of_list_ascii (rev cur ++ p) :: tl.
Proof.
  revert cur. induction cs as [|c cs IH]; simpl; intros cur.
  - exists [], []. rewrite app_nil_r. reflexivity.
  - destruct (is_delim c).
    + exists []. eexists. rewrite app_nil_r. reflexivity.
    + destruct (IH (c :: cur)) as (p & tl & ->). exists (c :: p), tl. simpl. rewrite <- app_assoc. reflexivity.
Qed.

Lemma starts_az_word v :
  v <> EmptyString -> (forall ch, In ch (list_ascii_of_string v) -> az ch = true) -> starts_az v = true.
Proof. destruct v as [|c v]; [congruence|]. intros _ H. apply (H c). left; reflexivity. Qed.

Lemma word_not_space v :
  v <> EmptyString -> (forall ch, In ch (list_ascii_of_string v) -> az ch = true) -> String.eqb v " " = false.
Proof.
  intros Hne H. apply String.eqb_neq. intros ->. specialize (H " "%char (or_introl eq_refl)). discriminate.
Qed.

Lemma collect_words_cons e tl :
  collect_words (e :: tl) =
  if String.eqb e " " then collect_words tl
  else if negb (starts_az e) then [] else e :: collect_words tl.
Proof. reflexivity. Qed.

Lemma delim_lower c : is_delim c = true -> lower_char c = c.
Proof. destruct c as [[] [] [] [] [] [] [] []]; vm_compute; intros H; first [discriminate H | reflexivity]. Qed.

Lemma lower_letters w :
  (forall ch, In ch (list_ascii_of_string w) -> ascii_letter ch = true) ->
  forall ch, In ch (list_ascii_of_string (lower w)) -> az ch = true.
Proof.
  intros H ch Hch. unfold lower in Hch. rewrite list_ascii_of_string_of_list_ascii in Hch.
  apply in_map_iff in Hch as (x & <- & Hx). apply letter_lower_az, H, Hx.
Qed.

Lemma lower_nonempty w : w <> EmptyString -> lower w <> EmptyString.
Proof. destruct w; [congruence|]. intros _. rewrite lower_cons. discriminate. Qed.

Lemma re_split_word_delim v c r :
  (forall ch, In ch (list_ascii_of_string v) -> az ch = true) -> is_delim c = true ->
  re_split (v ++ String c r)%string = v :: String c EmptyString :: re_split r.
Proof.
  intros Hv Hc. unfold re_split. rewrite list_ascii_app, re_split_aux_nodelim, app_nil_r.
  - cbn [list_ascii_of_string re_split_aux]. rewrite Hc, rev_involutive, string_of_list_ascii_of_string.
    reflexivity.
  - intros ch Hch. apply az_not_delim, Hv, Hch.
Qed.

Lemma re_split_word_end v :
  (forall ch, In ch (list_ascii_of_string v) -> az ch = true) -> re_split v = [v].
Proof.
  intros Hv. unfold re_split. rewrite <- (app_nil_r (list_ascii_of_string v)), re_split_aux_nodelim.
  - cbn [re_split_aux]. rewrite app_nil_r, rev_involutive, string_of_list_ascii_of_string. reflexivity.
  - intros ch Hch. apply az_not_delim, Hv, Hch.
Qed.

(** *** Upserts that hit *)

Lemma word_upsert_existing w src s s1 wr :
  inv s -> (exists x, In x (db_words (db s)) /\ w_word x = strip (lower w)) ->
  word_upsert w src s = (s1, inr wr) -> In wr (db_words (db s)) /\ db s1 = db s.
Proof.
  intros Hi Hex E. split; [eapply word_upsert_present; eauto|].
  revert E. cbv beta iota zeta delta [word_upsert bind get ret modify set_db set_word_cache with_words].
  destruct (word_cache s !! strip (lower w)); [intros [= <- _]; reflexivity|].
  destruct (List.find (fun w0 => String.eqb (w_word w0) (strip (lower w))) (db_words (db s))) eqn:Hf.
  - intros [= <- _]. simpl. rewrite existsb_find, Hf. destruct (db s); reflexivity.
  - destruct Hex as (x & Hx & Hxw). pose proof (find_none _ _ Hf x Hx) as H. simpl in H.
    rewrite Hxw, String.eqb_refl in H. discriminate.
Qed.

Lemma word_upsert_hit w src s wr :
  word_cache s !! strip (lower w) = Some wr -> word_upsert w src s = (s, inr wr).
Proof.
  intros Hc. cbv beta iota zeta delta [word_upsert bind get ret]. rewrite Hc. reflexivity.
Qed.

(** *** The channel handlers' results *)

Lemma find_channel_save d cs r0 r' :
  NoDup (map c_id cs) -> find_channel d cs = Some r0 -> c_id r0 = c_id r' -> c_discord_id r' = d ->
  find_channel d (save_map r' cs) = Some r'.
Proof.
  intros Hnd Hf Hid Hd. destruct (find_channel_some _ _ _ Hf) as [Hin Hdd].
  destruct (save_map_props cs r0 r' Hnd Hin Hid (eq_trans Hdd (eq_sym Hd))) as (_ & _ & Hfind & _).
  rewrite Hfind, Hf. simpl. rewrite Hid, Nat.eqb_refl. reflexivity.
Qed.

Lemma channel_add_effect d name s s' r :
  inv s -> channel_add d name s = (s', r) ->
  exists r', r = inr r' /\ c_discord_id r' = d /\ c_name r' = Some name /\
    channel_view s' d = Some r' /\ find_channel d (db_channels (db s')) = Some r' /\
    (forall r0, find_channel d (db_channels (db s)) = Some r0 ->
       c_id r' = c_id r0 /\ c_current_game r' = c_current_game r0 /\
       c_game_running r' = c_game_running r0 /\
       List.length (db_channels (db s')) = List.length (db_channels (db s))) /\
    (find_channel d (db_channels (db s)) = None ->
       c_id r' = next_id c_id (db_channels (db s)) /\ c_current_game r' = None /\
       c_game_running r' = false /\ db_channels (db s') = db_channels (db s) ++ [r']).
Proof.
  intros Hi. cbv beta iota zeta delta [channel_add bind get ret modify].
  destruct (find_channel d (db_channels (db s))) as [r0|] eqn:Hf.
  - destruct (find_channel_some _ _ _ Hf) as [Hin Hdr].
    destruct (decide (c_name r0 = Some name)) as [Hn|Hn].
    + unfold cache_channel, modify. intros [= <- <-].
      exists r0. unfold channel_view. simpl. rewrite lookup_insert_eq.
      split_and!; auto; [intros r1 [= <-]; auto|discriminate].
    + rewrite save_channel_eq. unfold cache_channel, modify. intros [= <- <-].
      eexists. unfold channel_view. simpl. rewrite lookup_insert_eq.
      split_and!; try reflexivity; auto.
      * apply (find_channel_save d _ r0); auto. apply (inv_chan_ids s Hi).
      * intros r1 [= <-]. split_and!; auto. unfold save_map. apply length_map.
      * discriminate.
  - destruct (decide (c_name (mkChannels (next_id c_id (db_channels (db s))) d None None false) = Some name))
      as [Hn|_]; [discriminate|].
    rewrite save_channel_eq. unfold cache_channel, modify. intros [= <- <-].
    set (r0 := mkChannels (next_id c_id (db_channels (db s))) d None None false).
    set (r' := mkChannels (next_id c_id (db_channels (db s))) d (Some name) None false).
    assert (Hsv : save_map r' (db_channels (db s) ++ [r0]) = db_channels (db s) ++ [r']).
    { unfold save_map. rewrite map_app. simpl. rewrite Nat.eqb_refl. f_equal.
      rewrite <- (map_id (db_channels (db s))) at 2. apply map_ext_in. intros x Hx. simpl.
      destruct (c_id x =? next_id c_id (db_channels (db s))) eqn:E; [|reflexivity].
      apply Nat.eqb_eq in E. pose proof (next_id_gt c_id _ x Hx). lia. }
    exists r'. unfold channel_view. simpl. rewrite lookup_insert_eq.
    assert (Hf' : find_channel d (db_channels (db s) ++ [r']) = Some r').
    { unfold find_channel. rewrite find_app_none by exact Hf. simpl. rewrite Nat.eqb_refl. reflexivity. }
    rewrite Hsv.
    split_and!; auto; try discriminate; try (intros _; split_and!; reflexivity).
Qed.

Lemma game_start_effect d now s s' r :
  inv s -> game_start d now s = (s', r) ->
  match channel_view s d with
  | None => r = inl (Exception "Not a game channel") /\ db s' = db s
  | Some c =>
      if c_game_running c
      then r = inl (Exception ("Game is already running in " ++ py_str_opt (c_name c))) /\ db s' = db s
      else exists g, r = inr g /\ g_id g = next_id g_id (db_games (db s)) /\
           g_timestamp g = now /\ g_channel g = c_id c /\
           db_games (db s') = db_games (db s) ++ [g] /\
           channel_view s' d = Some (mkChannels (c_id c) d (c_name c) (Some (g_id g)) true) /\
           find_channel d (db_channels (db s')) =
             Some (mkChannels (c_id c) d (c_name c) (Some (g_id g)) true)
  end.
Proof.
  intros Hi. cbv beta iota zeta delta [game_start bind get ret raise modify].
  destruct (channel_get d s) as [s0 r0] eqn:E0.
  pose proof E0 as E0'. apply channel_get_eq in E0' as (Hr0 & Hd0 & _).
  apply channel_get_spec in E0 as (_ & Hc0 & F0 & _); [|exact Hi].
  subst r0. unfold channel_view.
  destruct (match channel_cache s !! d with
            | Some v => v | None => find_channel d (db_channels (db s)) end) as [rc|] eqn:Ev;
    [|intros [= <- <-]; auto].
  destruct (c_game_running rc) eqn:Hrun; [intros [= <- <-]; auto|].
  rewrite save_channel_eq. unfold cache_channel, modify. intros [= <- <-].
  assert (Hi0 : inv s0) by apply F0.
  destruct (inv_cache_some s0 Hi0 d rc Hc0) as (Hdr & r1 & Hf0 & Hid0).
  eexists. split_and!; try reflexivity; simpl; rewrite ?Hd0; try reflexivity.
  - rewrite lookup_insert_eq. rewrite Hdr. reflexivity.
  - rewrite Hdr. apply (find_channel_save d _ r1); auto.
    + simpl. apply (inv_chan_ids s Hi).
    + rewrite Hd0 in Hf0. exact Hf0.
Qed.

Lemma channel_remove_effect d s s' r :
  inv s -> channel_remove d s = (s', r) ->
  match find_channel d (db_channels (db s)) with
  | Some rd => r = inr true /\
      db s' = with_channels (List.filter (fun r0 => negb (c_discord_id r0 =? d))) (db s)
  | None => r = inr false /\ db s' = db s
  end /\
  channel_view s' d = None /\
  (forall d', d' <> d -> channel_view s' d' = channel_view s d').
Proof.
  intros Hi E.
  revert E. cbv beta iota zeta delta [channel_remove bind get ret modify cache_channel].
  simpl.
  destruct (find_channel d (db_channels (db s))) as [rd|] eqn:Hf.
  2:{ intros [= <- <-]. split_and!; auto.
      - unfold channel_view. simpl. rewrite lookup_insert_eq. reflexivity.
      - intros d' Hne. unfold channel_view. simpl. rewrite lookup_insert_ne by congruence. reflexivity. }
  intros [= <- <-].
  destruct (find_channel_some _ _ _ Hf) as [Hin Hdd].
  assert (Hsame : forall x, In x (db_channels (db s)) ->
            negb (c_id x =? c_id rd) = negb (c_discord_id x =? d)).
  { intros x Hx. f_equal. apply eq_true_iff_eq. rewrite !Nat.eqb_eq. split; intros H.
    - rewrite <- Hdd. f_equal. apply (nodup_map_inj c_id _ _ _ (inv_chan_ids s Hi)); auto.
    - f_equal. apply (nodup_map_inj c_discord_id _ _ _ (inv_chan_discord s Hi)); auto. congruence. }
  split_and!; auto.
  - simpl. unfold delete_channel, with_channels. f_equal. apply filter_ext_in. exact Hsame.
  - unfold channel_view. simpl. rewrite lookup_insert_eq. reflexivity.
  - intros d' Hne. unfold channel_view. simpl. rewrite lookup_insert_ne by congruence.
    destruct (channel_cache s !! d') as [v|]; [reflexivity|].
    destruct (find_channel d' (db_channels (db s))) as [x|] eqn:Hx.
    + apply find_filter_some; auto. destruct (find_channel_some _ _ _ Hx) as [Hxin Hxd].
      rewrite Hsame by exact Hxin. apply negb_true_iff, Nat.eqb_neq. congruence.
    + apply find_filter_none. exact Hx.
Qed.

Lemma channel_message_unregistered m s s' r :
  channel_view s (msg_channel m) = None -> channel_message m s = (s', r) ->
  r = inr None /\ db s' = db s /\ out s' = out s.
Proof.
  intros Hv. unfold channel_message at 1. unfold bind at 1.
  destruct (channel_get (msg_channel m) s) as [s0 r0] eqn:E0.
  apply channel_get_eq in E0 as (-> & Hd & Ho). rewrite Hv.
  intros [= <- <-]. auto.
Qed.

Lemma channel_info_effect d s s' r :
  inv s -> channel_info d s = (s', r) ->
  s' = s /\
  match find_channel d (db_channels (db s)) with
  | None => r = inr None
  | Some c => exists cg,
      r = inr (Some (mkChannelInfo d (c_name c) (List.length (db_messages (db s)))
                                   (c_game_running c) cg)) /\
      (c_game_running c = true -> exists g, cg = Some g /\ c_current_game c = Some (g_id g) /\
                                            g_channel g = c_id c /\ In g (db_games (db s))) /\
      (c_game_running c = false -> cg = None)
  end.
Proof.
  intros Hi. cbv beta iota zeta delta [channel_info catch_does_not_exist bind get raise ret load_game].
  destruct (find_channel d (db_channels (db s))) as [c|] eqn:Hf; [|intros [= <- <-]; auto].
  destruct (find_channel_some _ _ _ Hf) as [Hin Hdc].
  pose proof (inv_chan_state s Hi c Hin) as Hst.
  destruct (c_current_game c) as [gid|] eqn:Hcur.
  - destruct (inv_chan_game s Hi c gid Hin Hcur) as (gr & Hgr & Hid & Hch).
    destruct (List.find (fun g => g_id g =? gid) (db_games (db s))) as [g|] eqn:Hg.
    + intros [= <- <-]. split; [reflexivity|]. exists (Some g). rewrite Hdc.
      apply find_some in Hg as [Hgin Hgid]. apply Nat.eqb_eq in Hgid.
      split; [reflexivity|split].
      * intros _. exists g. split; [reflexivity|split; [congruence|split; [|exact Hgin]]].
        assert (g = gr) as -> by (apply (nodup_map_inj g_id _ _ _ (inv_game_ids s Hi)); auto; congruence).
        exact Hch.
      * intros Hr. assert (Some gid <> None) as Hne by discriminate. apply Hst in Hne. congruence.
    + pose proof (find_none _ _ Hg gr Hgr) as Hx. simpl in Hx. rewrite Hid, Nat.eqb_refl in Hx.
      discriminate.
  - intros [= <- <-]. split; [reflexivity|]. exists None. rewrite Hdc.
    split; [reflexivity|split; [|reflexivity]].
    intros Hr. apply Hst in Hr. contradiction Hr. reflexivity.
Qed.

(** *** Command handlers: replies and state *)

(** A command step only appends to the list of sent messages. *)
Definition cm_extends {A} (m : CM A) : Prop :=
  forall st st' r, m st = (st', r) -> exists l, snd st' = snd st ++ l.

(** A command step only appends sent messages, and at least one when it
    returns normally. *)
Definition cm_replies (m : CM unit) : Prop :=
  forall st st' r, m st = (st', r) -> exists l, snd st' = snd st ++ l /\ (r = inr tt -> l <> []).

Lemma extends_lift {A} (m : M A) : cm_extends (lift m).
Proof.
  intros [s l] st' r. unfold lift. simpl. destruct (m s) as [s' [e|a]]; intros [= <- _];
    exists []; rewrite app_nil_r; reflexivity.
Qed.

Lemma extends_send x : cm_extends (send x).
Proof. intros [s l] st' r [= <- _]. exists [x]. reflexivity. Qed.

Lemma replies_send x : cm_replies (send x).
Proof. intros [s l] st' r [= <- _]. exists [x]. split; [reflexivity|discriminate]. Qed.

Lemma replies_raise e : cm_replies (craise e).
Proof. intros st st' r [= <- <-]. exists []. rewrite app_nil_r. split; [reflexivity|discriminate]. Qed.

Lemma replies_bind {A} (m : CM A) (k : A -> CM unit) :
  cm_extends m -> (forall a, cm_replies (k a)) -> cm_replies (cbind m k).
Proof.
  intros Hm Hk st st' r. unfold cbind.
  destruct (m st) as [st1 [e|a]] eqn:E; apply Hm in E as (l1 & Hl1).
  - intros [= <- <-]. exists l1. split; [exact Hl1|discriminate].
  - intros E2. apply Hk in E2 as (l2 & Hl2 & Hr). exists (l1 ++ l2).
    rewrite Hl2, Hl1, app_assoc. split; [reflexivity|].
    intros H. specialize (Hr H). destruct l1; simpl; [exact Hr|discriminate].
Qed.

Lemma replies_dispatch history now timeago e args :
  cm_replies (command_dispatch history now timeago e args).
Proof.
  unfold command_dispatch, command_help.
  repeat match goal with
         | |- cm_replies (if ?b then _ else _) => destruct b
         | |- cm_replies (send _) => apply replies_send
         | |- cm_replies (craise _) => apply replies_raise
         | |- cm_replies (cbind (lift _) _) => apply replies_bind; [apply extends_lift|intros ?]
         | |- cm_replies (cbind (send _) _) => apply replies_bind; [apply extends_send|intros ?]
         | |- cm_replies (match ?o with _ => _ end) => destruct o
         end.
Qed.

(** A command step that never raises [SystemExit]. *)
Definition cm_no_exit {A} (m : CM A) : Prop :=
  forall st st' r, m st = (st', r) -> r <> inl CmdSystemExit.

Lemma no_exit_send x : cm_no_exit (send x).
Proof. intros st st' r [= _ <-]. discriminate. Qed.

Lemma no_exit_raise {A} e : e <> CmdSystemExit -> cm_no_exit (@craise A e).
Proof. intros He st st' r [= _ <-] [= H]. exact (He H). Qed.

Lemma no_exit_lift {A} (m : M A) : cm_no_exit (lift m).
Proof. intros st st' r. unfold lift. destruct (m (fst st)) as [s' [x|x]]; intros [= _ <-]; discriminate. Qed.

Lemma no_exit_bind {A B} (m : CM A) (k : A -> CM B) :
  cm_no_exit m -> (forall a, cm_no_exit (k a)) -> cm_no_exit (cbind m k).
Proof.
  intros Hm Hk st st' r. unfold cbind.
  destruct (m st) as [st1 [x|a]] eqn:E; [|apply Hk].
  intros [= _ <-] [= ->]. exact (Hm st st1 _ E eq_refl).
Qed.

Lemma no_exit_dispatch history now timeago e args :
  cm_no_exit (command_dispatch history now timeago e args).
Proof.
  unfold command_dispatch, command_help.
  repeat match goal with
         | |- cm_no_exit (if ?b then _ else _) => destruct b
         | |- cm_no_exit (send _) => apply no_exit_send
         | |- cm_no_exit (craise _) => apply no_exit_raise; discriminate
         | |- cm_no_exit (cbind _ _) => apply no_exit_bind; [try apply no_exit_lift; try apply no_exit_send|intros ?]
         | |- cm_no_exit (match ?o with _ => _ end) => destruct o
         end.
Qed.

(** The only [SystemExit]: [docopt] on the words after "@iha". *)
Lemma body_system_exit shlex_split docopt history now timeago e st st' :
  command_body shlex_split docopt history now timeago e st = (st', inl CmdSystemExit) ->
  st' = st /\ exists a0 argv, shlex_split (msg_clean_content (ev_msg e)) = inr (a0 :: argv) /\
    lower a0 = "@iha" /\ docopt argv = DocoptSystemExit.
Proof.
  unfold command_body.
  destruct (shlex_split (msg_clean_content (ev_msg e))) as [msg|[|a0 argv]]; [intros [=]|intros [=]|].
  destruct (String.eqb (lower a0) "@iha") eqn:Hl; simpl; [|intros [=]].
  destruct (docopt argv) as [args| |] eqn:Hd.
  - intros E. exfalso. exact (no_exit_dispatch history now timeago e args _ _ _ E eq_refl).
  - intros [=].
  - intros [= <-]. split; [reflexivity|]. exists a0, argv. split_and!; auto.
    apply String.eqb_eq. exact Hl.
Qed.

Lemma replies_body shlex_split docopt history now timeago e :
  cm_replies (command_body shlex_split docopt history now timeago e).
Proof.
  unfold command_body.
  destruct (shlex_split (msg_clean_content (ev_msg e))) as [msg|[|a0 argv]]; try apply replies_raise.
  destruct (negb (String.eqb (lower a0) "@iha")); [apply replies_raise|].
  destruct (docopt argv); [apply replies_dispatch|apply replies_raise|apply replies_raise].
Qed.

Lemma load_game_state o s s' r : load_game o s = (s', r) -> s' = s.
Proof.
  unfold load_game, bind, get, ret, raise. destruct o; [|intros [= <- _]; reflexivity].
  destruct (List.find _ _); intros [= <- _]; reflexivity.
Qed.

Lemma channel_info_state d s s' r : channel_info d s = (s', r) -> s' = s.
Proof.
  cbv beta iota zeta delta [channel_info catch_does_not_exist bind get raise ret].
  destruct (find_channel d (db_channels (db s))) as [c|]; [|intros [= <- _]; reflexivity].
  destruct (load_game (c_current_game c) s) as [s1 [e|g]] eqn:E; apply load_game_state in E as ->;
    [destruct e|]; intros [= <- _]; reflexivity.
Qed.

(** Every run of a command step relates its start and end states by [P]. *)
Definition cm_state_from (P : Iha -> Iha -> Prop) {A} (m : CM A) : Prop :=
  forall s l st' r, m (s, l) = (st', r) -> P s (fst st').

Lemma state_lift P {A} (m : M A) : (forall s s' r, m s = (s', r) -> P s s') -> cm_state_from P (lift m).
Proof.
  intros H s l st' r. unfold lift. simpl. destruct (m s) as [s' x] eqn:E. apply H in E.
  destruct x; intros [= <- _]; exact E.
Qed.

Lemma state_send (P : Iha -> Iha -> Prop) x : (forall s, P s s) -> cm_state_from P (send x).
Proof. intros H s l st' r [= <- _]. apply H. Qed.

Lemma state_raise (P : Iha -> Iha -> Prop) {A} e : (forall s, P s s) -> cm_state_from P (@craise A e).
Proof. intros H s l st' r [= <- _]. apply H. Qed.

Lemma state_bind (P : Iha -> Iha -> Prop) {A B} (m : CM A) (k : A -> CM B) :
  cm_state_from P m -> (forall a, cm_state_from (fun s s' => s = s') (k a)) ->
  cm_state_from P (cbind m k).
Proof.
  intros Hm Hk s l st' r. unfold cbind.
  destruct (m (s, l)) as [[s1 l1] [e|a]] eqn:E; apply Hm in E; simpl in E.
  - intros [= <- _]. exact E.
  - intros E2. apply Hk in E2. simpl in E2. subst. exact E.
Qed.

(** The state changes a command may make: none, or one of the handlers
    [channel_add], [channel_remove] and [game_start] on the channel. *)
Definition command_effect (d : nat) (name : string) (now : nat) (s s' : Iha) : Prop :=
  s' = s \/ s' = fst (channel_add d name s) \/ s' = fst (channel_remove d s) \/
  s' = fst (game_start d now s).

Lemma state_dispatch history now timeago e args :
  cm_state_from (command_effect (msg_channel (ev_msg e)) (ev_channel_name e) now)
                (command_dispatch history now timeago e args).
Proof.
  unfold command_dispatch, command_help.
  repeat match goal with
         | |- cm_state_from _ (if ?b then _ else _) => destruct b
         | |- cm_state_from _ (send _) => apply state_send; intros; first [left; reflexivity|reflexivity]
         | |- cm_state_from _ (craise _) => apply state_raise; intros; first [left; reflexivity|reflexivity]
         | |- cm_state_from _ (cbind _ _) => apply state_bind; [|intros ?]
         | |- cm_state_from _ (match ?o with _ => _ end) => destruct o
         end.
  - apply state_lift. intros s s' r E. right; left. rewrite E. reflexivity.
  - apply state_lift. intros s s' r E. left. apply channel_sync_state in E. exact E.
  - apply state_lift. intros s s' r E. left. apply channel_info_state in E. exact E.
  - apply state_lift. intros s s' r E. right; right; left. rewrite E. reflexivity.
  - apply state_lift. intros s s' r E. right; right; right. rewrite E. reflexivity.
Qed.

Lemma command_execute_state shlex_split docopt history now timeago e s l s' l' r :
  command_execute shlex_split docopt history now timeago e (s, l) = ((s', l'), r) ->
  command_effect (msg_channel (ev_msg e)) (ev_channel_name e) now s s'.
Proof.
  unfold command_execute.
  destruct (command_body shlex_split docopt history now timeago e (s, l)) as [[s1 l1] r1] eqn:E.
  assert (H : command_effect (msg_channel (ev_msg e)) (ev_channel_name e) now s s1).
  { revert E. unfold command_body.
    destruct (shlex_split (msg_clean_content (ev_msg e))) as [msg|[|a0 argv]];
      [intros [= <- _ _]; left; reflexivity|intros [= <- _ _]; left; reflexivity|].
    destruct (negb (String.eqb (lower a0) "@iha")); [intros [= <- _ _]; left; reflexivity|].
    destruct (docopt argv) as [args| |]; [|intros [= <- _ _]; left; reflexivity..].
    intros E. apply (state_dispatch history now timeago e args) in E. exact E. }
  destruct r1 as [[]|]; intros [= <- _ _]; exact H.
Qed.

(** *** Loading a word list *)

Lemma fill_batch_spec acc lines :
  List.length acc <= 1000 ->
  fill_batch acc lines = (acc ++ map strip (firstn (1001 - List.length acc) lines),
                          skipn (1001 - List.length acc) lines).
Proof.
  revert acc. induction lines as [|l rest IH]; intros acc Hlen; simpl.
  - rewrite firstn_nil, skipn_nil, app_nil_r. reflexivity.
  - rewrite length_app. simpl.
    destruct (1000 <? List.length acc + 1) eqn:E.
    + apply Nat.ltb_lt in E. replace (1001 - List.length acc) with 1 by lia. reflexivity.
    + apply Nat.ltb_ge in E. rewrite IH by (rewrite length_app; simpl; lia).
      rewrite length_app. simpl.
      replace (1001 - List.length acc) with (S (1001 - (List.length acc + 1))) by lia.
      simpl. rewrite <- app_assoc. reflexivity.
Qed.

Lemma fill_batch_first lines :
  fill_batch [] lines = (map strip (firstn 1001 lines), skipn 1001 lines).
Proof. apply (fill_batch_spec [] lines). simpl. lia. Qed.

(** A batch of words inserts without an IntegrityError over the words
    [old]: its words are distinct and none is already in [old]. *)
Definition batch_ok (batch old : list string) : Prop :=
  NoDup batch /\ forall w, In w batch -> ~ In w old.

Lemma batch_ok_app a b old : batch_ok (a ++ b) old <-> batch_ok a old /\ batch_ok b (old ++ a).
Proof.
  unfold batch_ok. rewrite NoDup_app. split.
  - intros ((Ha & Hab & Hb) & Hn). split; split; auto.
    + intros w Hw. apply Hn. apply in_or_app. auto.
    + intros w Hw Hin. apply in_app_or in Hin as [Hin|Hin].
      * apply (Hn w); auto. apply in_or_app; auto.
      * apply (Hab w); apply list_elem_of_In; auto.
  - intros ((Ha & Hna) & (Hb & Hnb)). split; [split_and!; auto|].
    + intros w Hwa Hwb. apply list_elem_of_In in Hwa, Hwb. apply (Hnb w Hwb). apply in_or_app; auto.
    + intros w Hw. apply in_app_or in Hw as [Hw|Hw]; auto.
      intros Hin. apply (Hnb w Hw). apply in_or_app; auto.
Qed.

Lemma insert_rows_some batch ws :
  batch_ok batch (map w_word ws) ->
  exists rows, insert_rows batch ws = Some (ws ++ rows) /\ map w_word rows = batch /\
    Forall (fun r => w_source r = Some WORD_SOURCE_LIST) rows /\
    (NoDup (map w_id ws) -> NoDup (map w_id (ws ++ rows))).
Proof.
  revert ws. induction batch as [|w rest IH]; intros ws [Hnd Hn].
  - exists []. rewrite app_nil_r. split_and!; auto.
  - simpl. rewrite existsb_find.
    rewrite find_none_intro.
    2:{ intros x Hx. apply String.eqb_neq. intros Hxw. apply (Hn w (or_introl eq_refl)).
        apply in_map_iff. eauto. }
    set (row := mkWords (next_id w_id ws) w (Some WORD_SOURCE_LIST)).
    apply NoDup_cons in Hnd as [Hw Hnd]. rewrite list_elem_of_In in Hw.
    destruct (IH (ws ++ [row])) as (rows & Heq & Hk & Hs & Hid).
    { split; auto. intros w' Hw' Hin. rewrite map_app in Hin. apply in_app_or in Hin as [Hin|[Hin|[]]].
      - apply (Hn w'); simpl; auto.
      - simpl in Hin. subst w'. contradiction. }
    exists (row :: rows). rewrite Heq, <- app_assoc. split_and!; auto.
    + simpl. rewrite Hk. reflexivity.
    + intros Hnd0. replace (ws ++ row :: rows) with ((ws ++ [row]) ++ rows) by (rewrite <- app_assoc; reflexivity). apply Hid. apply nodup_map_snoc; auto.
Qed.

Lemma insert_rows_ok batch ws ws' :
  insert_rows batch ws = Some ws' -> batch_ok batch (map w_word ws).
Proof.
  revert ws. induction batch as [|w rest IH]; intros ws; simpl.
  - intros _. split; [constructor|intros _ []].
  - destruct (existsb (fun r => String.eqb (w_word r) w) ws) eqn:Hex; [discriminate|].
    intros E. apply IH in E as [Hnd Hn].
    split.
    + constructor; auto. rewrite list_elem_of_In. intros Hin. apply (Hn w Hin). rewrite map_app. apply in_or_app. right; left; reflexivity.
    + intros w' [<-|Hw'] Hin.
      * apply in_map_iff in Hin as (x & Hx & Hxin).
        assert (existsb (fun r => String.eqb (w_word r) w) ws = true) as Ht.
        { apply existsb_exists. exists x. split; auto. apply String.eqb_eq. exact Hx. }
        congruence.
      * apply (Hn w' Hw'). rewrite map_app. apply in_or_app. auto.
Qed.

Lemma firstn_add_skipn {A} n m (l : list A) : firstn (n + m) l = firstn n l ++ firstn m (skipn n l).
Proof.
  revert l. induction n as [|n IH]; intros l; [reflexivity|].
  destruct l as [|a l]; simpl; [rewrite firstn_nil; reflexivity|]. f_equal. apply IH.
Qed.

Lemma load_rounds_S fuel lines ws :
  load_rounds (S fuel) lines ws =
  let (words, rest) := fill_batch [] lines in
  match words with
  | [] => (ws, None)
  | _ :: _ => match insert_rows words ws with
              | None => (ws, Some IntegrityError)
              | Some ws' => load_rounds fuel rest ws'
              end
  end.
Proof. reflexivity. Qed.

Lemma load_rounds_spec fuel lines ws :
  List.length lines < fuel ->
  let (ws', err) := load_rounds fuel lines ws in
  (err = None <-> batch_ok (map strip lines) (map w_word ws)) /\
  exists rows, ws' = ws ++ rows /\
    Forall (fun r => w_source r = Some WORD_SOURCE_LIST) rows /\
    (NoDup (map w_id ws) -> NoDup (map w_id ws')) /\
    (err = None -> map w_word rows = map strip lines) /\
    (err = Some IntegrityError -> exists n, map w_word rows = map strip (firstn (1001 * n) lines)).
Proof.
  revert lines ws. induction fuel as [|fuel IH]; intros lines ws Hlen; [lia|].
  rewrite load_rounds_S, fill_batch_first.
  assert (Hsplit : map strip lines = map strip (firstn 1001 lines) ++ map strip (skipn 1001 lines))
    by (rewrite <- map_app, firstn_skipn; reflexivity).
  destruct (map strip (firstn 1001 lines)) as [|w0 b0] eqn:Hb.
  - assert (lines = []) as ->.
    { destruct lines; [reflexivity|]. simpl in Hb. discriminate. }
    split; [split; [intros _; split; [constructor|intros _ []]|reflexivity]|].
    exists []. rewrite app_nil_r. split_and!; auto. intros H; discriminate H.
  - rewrite <- Hb. rewrite <- Hb in Hsplit.
    destruct (insert_rows (map strip (firstn 1001 lines)) ws) as [ws1|] eqn:Hi.
    + pose proof (insert_rows_ok _ _ _ Hi) as Hok1.
      destruct (insert_rows_some _ _ Hok1) as (rows1 & Hi' & Hk1 & Hs1 & Hid1).
      rewrite Hi in Hi'. injection Hi' as ->.
      assert (Hlen' : List.length (skipn 1001 lines) < fuel).
      { rewrite length_skipn. destruct lines; [discriminate|]. simpl in Hlen |- *. lia. }
      specialize (IH (skipn 1001 lines) (ws ++ rows1) Hlen').
      destruct (load_rounds fuel (skipn 1001 lines) (ws ++ rows1)) as [ws' err].
      destruct IH as (Hiff & rows2 & -> & Hs2 & Hid2 & Hok2 & Hfail2).
      split.
      * rewrite Hiff, Hsplit, batch_ok_app, map_app, Hk1. tauto.
      * exists (rows1 ++ rows2). rewrite app_assoc. split_and!; auto.
        -- apply Forall_app; auto.
        -- intros Herr. rewrite map_app, Hk1, Hok2 by exact Herr. symmetry; exact Hsplit.
        -- intros Herr. destruct (Hfail2 Herr) as (n & Hn). exists (S n).
           rewrite map_app, Hk1, Hn.
           assert (E : 1001 * S n = 1001 + 1001 * n) by lia.
           rewrite E, (firstn_add_skipn 1001 (1001 * n)), map_app. reflexivity.
    + split.
      * split; [discriminate|]. intros Hok. rewrite Hsplit in Hok. apply batch_ok_app in Hok as [Hok _].
        destruct (insert_rows_some _ _ Hok) as (rows & Hs & _). congruence.
      * exists []. rewrite app_nil_r. split_and!; auto; [discriminate|].
        intros _. exists 0. reflexivity.
Qed.

(* ------------------------------------------------------------------ *)
(** ** Further properties *)

(** *** Extras: tokens *)

(** X1: [parse_message] returns at least one token exactly when the
    cleaned text starts with a character whose lowercase form is a letter
    a-z (the text has no leading space, delimiter, digit or symbol). *)
Theorem parse_message_nonempty_iff s :
  parse_message s <> [] <-> exists c rest, s = String c rest /\ az (lower_char c) = true.
Proof.
  unfold parse_message. destruct s as [|c rest].
  - simpl. split; [intros H; contradiction H; reflexivity|intros (c & r & [=] & _)].
  - rewrite lower_cons. unfold re_split. cbn [list_ascii_of_string re_split_aux].
    destruct (is_delim (lower_char c)) eqn:Hd.
    + cbn [rev string_of_list_ascii]. rewrite collect_words_cons. simpl (String.eqb "" " ").
      assert (Haz : az (lower_char c) = false).
      { destruct (az (lower_char c)) eqn:E; [|reflexivity]. rewrite az_not_delim in Hd by exact E. discriminate. }
      simpl (negb (starts_az "")). cbv iota.
      split; [intros H; contradiction H; reflexivity|].
      intros (c' & r' & [= <- <-] & H'). congruence.
    + destruct (re_split_aux_head (list_ascii_of_string (lower rest)) [lower_char c]) as (p & tl & ->).
      cbn [rev app string_of_list_ascii]. rewrite collect_words_cons.
      destruct (String.eqb (String (lower_char c) (string_of_list_ascii p)) " ") eqn:Hsp.
      { apply String.eqb_eq in Hsp. injection Hsp as Hc _. rewrite Hc in Hd. discriminate. }
      change (starts_az (String (lower_char c) (string_of_list_ascii p))) with (az (lower_char c)).
      destruct (az (lower_char c)) eqn:Haz; cbv iota beta; simpl negb; cbv iota.
      * split; [intros _; eauto|intros _; discriminate].
      * split; [intros H; contradiction H; reflexivity|intros (c' & r' & [= <- <-] & H'); congruence].
Qed.

(** X2: a non-empty word of ASCII letters parses to its lowercase form
    alone, on its own, followed by a delimiter other than a space and any
    text, or followed by two spaces and any text. *)
Theorem parse_message_single_word w :
  w <> EmptyString -> (forall ch, In ch (list_ascii_of_string w) -> ascii_letter ch = true) ->
  parse_message w = [lower w] /\
  (forall c rest, is_delim c = true -> c <> " "%char ->
     parse_message (w ++ String c rest)%string = [lower w]) /\
  (forall rest, parse_message (w ++ String " " (String " " rest))%string = [lower w]).
Proof.
  intros Hne Hl. pose proof (lower_letters w Hl) as Hv. pose proof (lower_nonempty w Hne) as Hvne.
  assert (Hsp : String.eqb (lower w) " " = false) by (apply word_not_space; auto).
  assert (Haz : starts_az (lower w) = true) by (apply starts_az_word; auto).
  unfold parse_message. split_and!.
  - rewrite (re_split_word_end _ Hv), collect_words_cons, Hsp, Haz. reflexivity.
  - intros c rest Hc Hcs. rewrite lower_app, lower_cons, delim_lower by exact Hc.
    rewrite (re_split_word_delim _ _ _ Hv Hc), collect_words_cons, Hsp, Haz. cbv iota beta. simpl negb. cbv iota.
    rewrite collect_words_cons.
    replace (String.eqb (String c EmptyString) " ") with false
      by (symmetry; apply String.eqb_neq; intros [= ->]; congruence).
    rewrite (delim_not_az c Hc). reflexivity.
  - intros rest. rewrite lower_app, !lower_cons, delim_lower by reflexivity.
    change (lower_char " ") with " "%char.
    rewrite (re_split_word_delim _ _ _ Hv (eq_refl : is_delim " " = true)), collect_words_cons, Hsp, Haz.
    cbv iota beta. simpl negb. cbv iota. rewrite collect_words_cons. simpl (String.eqb " " " "). cbv iota.
    unfold re_split. cbn [list_ascii_of_string re_split_aux is_delim rev string_of_list_ascii].
    rewrite collect_words_cons. reflexivity.
Qed.

Lemma parse_message_single_word_witness :
  "Apple" <> EmptyString /\
  (forall ch, In ch (list_ascii_of_string "Apple") -> ascii_letter ch = true) /\
  parse_message ("Apple" ++ String "(" "x)")%string = ["apple"].
Proof.
  assert (H1 : "Apple" <> EmptyString) by discriminate.
  assert (H2 : forall ch, In ch (list_ascii_of_string "Apple") -> ascii_letter ch = true)
    by (intros ch Hch; repeat (destruct Hch as [<-|Hch]; [reflexivity|]); destruct Hch).
  split_and!; [exact H1|exact H2|].
  apply (proj1 (proj2 (parse_message_single_word "Apple" H1 H2))); reflexivity || discriminate.
Defined.

(** *** Extras: upserts *)

(** X3: in a reachable state, once [word_upsert] has returned a Word for a
    word, a second call with any word of the same normalised form returns
    the same Word and changes nothing (the cache answers).  The first call
    reuses an existing row without touching the tables, and creates the
    row with the given source at the end of the table only when no row
    has the word. *)
Theorem word_upsert_idempotent w src w' src' s s1 wr :
  reachable s -> word_upsert w src s = (s1, inr wr) -> strip (lower w') = strip (lower w) ->
  word_upsert w' src' s1 = (s1, inr wr) /\ w_word wr = strip (lower w) /\
  ((exists x, In x (db_words (db s)) /\ w_word x = strip (lower w)) ->
     In wr (db_words (db s)) /\ db s1 = db s) /\
  ((forall x, In x (db_words (db s)) -> w_word x <> strip (lower w)) ->
     w_source wr = Some src /\ db_words (db s1) = db_words (db s) ++ [wr]).
Proof.
  intros Hr E Hk. pose proof (reachable_inv s Hr) as Hi.
  pose proof E as E'.
  apply word_upsert_spec in E' as (wr' & [= <-] & _ & _ & _ & _ & _ & _ & Hw & Hc & Hnew); [|exact Hi].
  split_and!.
  - apply word_upsert_hit. rewrite Hk. exact Hc.
  - exact Hw.
  - intros Hex. eapply word_upsert_existing; eauto.
  - intros Hnot. destruct (Hnew Hnot) as [H1 H2]. auto.
Qed.

Lemma word_upsert_idempotent_witness :
  reachable (initial_state [] []) /\
  word_upsert "Apple" WORD_SOURCE_GAME (initial_state [] []) =
    (fst (word_upsert "Apple" WORD_SOURCE_GAME (initial_state [] [])),
     inr (mkWords 1 "apple" (Some WORD_SOURCE_GAME))) /\
  word_upsert " apple " WORD_SOURCE_LIST (fst (word_upsert "Apple" WORD_SOURCE_GAME (initial_state [] []))) =
    (fst (word_upsert "Apple" WORD_SOURCE_GAME (initial_state [] [])),
     inr (mkWords 1 "apple" (Some WORD_SOURCE_GAME))).
Proof.
  assert (Hr : reachable (initial_state [] [])) by (constructor; constructor).
  assert (E : word_upsert "Apple" WORD_SOURCE_GAME (initial_state [] []) =
    (fst (word_upsert "Apple" WORD_SOURCE_GAME (initial_state [] [])),
     inr (mkWords 1 "apple" (Some WORD_SOURCE_GAME)))) by (vm_compute; reflexivity).
  split_and!; [exact Hr|exact E|].
  apply (proj1 (word_upsert_idempotent "Apple" WORD_SOURCE_GAME " apple " WORD_SOURCE_LIST _ _ _ Hr E
                  eq_refl)).
Defined.

(** X4: once [user_upsert] has returned a User for a discord user id, a
    second call for the same id (with any name) returns the same User and
    changes nothing.  The call leaves the Words, Channels, Games and
    Messages tables alone, and for an id neither cached nor in the Users
    table it appends a new User with the next id and the name
    "name#discriminator". *)
Theorem user_upsert_idempotent uid n dsc n' dsc' s s1 u :
  user_upsert uid n dsc s = (s1, inr u) ->
  user_upsert uid n' dsc' s1 = (s1, inr u) /\
  db_words (db s1) = db_words (db s) /\ db_channels (db s1) = db_channels (db s) /\
  db_games (db s1) = db_games (db s) /\ db_messages (db s1) = db_messages (db s) /\
  (user_cache s !! uid = None ->
   (forall x, In x (db_users (db s)) -> u_discord_user_id x <> uid) ->
   u = mkUsers (next_id u_id (db_users (db s))) uid (Some (n ++ "#" ++ dsc)%string) /\
   db_users (db s1) = db_users (db s) ++ [u]).
Proof.
  cbv beta iota zeta delta [user_upsert bind get ret modify set_db set_user_cache with_users].
  destruct (user_cache s !! uid) as [u0|] eqn:Hc.
  - intros [= <- <-]. rewrite Hc. split_and!; auto. discriminate.
  - intros [= <- <-]. simpl. rewrite lookup_insert_eq. split_and!; auto.
    intros _ Hnot. rewrite existsb_find.
    rewrite find_none_intro; [split; reflexivity|].
    intros x Hx. apply Nat.eqb_neq. apply Hnot. exact Hx.
Qed.

Lemma user_upsert_idempotent_witness :
  user_upsert 42 "bob" "0001" (initial_state [] []) =
    (fst (user_upsert 42 "bob" "0001" (initial_state [] [])), inr (mkUsers 1 42 (Some "bob#0001"))) /\
  user_upsert 42 "robert" "0002" (fst (user_upsert 42 "bob" "0001" (initial_state [] []))) =
    (fst (user_upsert 42 "bob" "0001" (initial_state [] [])), inr (mkUsers 1 42 (Some "bob#0001"))).
Proof.
  assert (E : user_upsert 42 "bob" "0001" (initial_state [] []) =
    (fst (user_upsert 42 "bob" "0001" (initial_state [] [])), inr (mkUsers 1 42 (Some "bob#0001"))))
    by (vm_compute; reflexivity).
  split; [exact E|]. apply (proj1 (user_upsert_idempotent 42 "bob" "0001" "robert" "0002" _ _ _ E)).
Defined.

(** *** Extras: the channel handlers *)

(** X5: in a reachable state, [channel_add d name] returns a channel record
    for [d] named [name], which is then both the cached record and the
    table row for [d].  A registered channel keeps its row id, current
    game and running flag, and the table keeps its size; an unregistered
    channel gets a new row at the end of the table with the next id, no
    current game and [game_running] false. *)
Theorem channel_add_registers d name s s' r :
  reachable s -> channel_add d name s = (s', r) ->
  exists r', r = inr r' /\ c_discord_id r' = d /\ c_name r' = Some name /\
    channel_view s' d = Some r' /\ find_channel d (db_channels (db s')) = Some r' /\
    (forall r0, find_channel d (db_channels (db s)) = Some r0 ->
       c_id r' = c_id r0 /\ c_current_game r' = c_current_game r0 /\
       c_game_running r' = c_game_running r0 /\
       List.length (db_channels (db s')) = List.length (db_channels (db s))) /\
    (find_channel d (db_channels (db s)) = None ->
       c_id r' = next_id c_id (db_channels (db s)) /\ c_current_game r' = None /\
       c_game_running r' = false /\ db_channels (db s') = db_channels (db s) ++ [r']).
Proof. intros Hr. apply channel_add_effect, reachable_inv, Hr. Qed.

Lemma channel_add_registers_witness :
  reachable (initial_state [] []) /\
  exists r', snd (channel_add 7 "shiritori" (initial_state [] [])) = inr r' /\
    c_name r' = Some "shiritori" /\
    db_channels (db (fst (channel_add 7 "shiritori" (initial_state [] [])))) = [r'].
Proof.
  assert (Hr : reachable (initial_state [] [])) by (constructor; constructor).
  destruct (channel_add_registers 7 "shiritori" (initial_state [] [])
              (fst (channel_add 7 "shiritori" (initial_state [] [])))
              (snd (channel_add 7 "shiritori" (initial_state [] []))) Hr (surjective_pairing _))
    as (r' & Hr' & _ & Hn & _ & _ & _ & Hnew).
  destruct (Hnew eq_refl) as (_ & _ & _ & Hcs).
  split; [exact Hr|]. exists r'. split_and!; [exact Hr'|exact Hn|exact Hcs].
Defined.

(** X6: in a reachable state, [game_start d now] on a channel not
    registered (through the cache or the table) raises "Not a game
    channel"; on a record whose game runs it raises "Game is already
    running in <name>"; in both cases the tables are unchanged.  Otherwise
    it appends a Game with the next id, timestamp [now] and the channel's
    row id, and the channel's cached record and table row both point to
    it with [game_running] true. *)
Theorem game_start_outcome d now s s' r :
  reachable s -> game_start d now s = (s', r) ->
  match channel_view s d with
  | None => r = inl (Exception "Not a game channel") /\ db s' = db s
  | Some c =>
      if c_game_running c
      then r = inl (Exception ("Game is already running in " ++ py_str_opt (c_name c))) /\ db s' = db s
      else exists g, r = inr g /\ g_id g = next_id g_id (db_games (db s)) /\
           g_timestamp g = now /\ g_channel g = c_id c /\
           db_games (db s') = db_games (db s) ++ [g] /\
           channel_view s' d = Some (mkChannels (c_id c) d (c_name c) (Some (g_id g)) true) /\
           find_channel d (db_channels (db s')) =
             Some (mkChannels (c_id c) d (c_name c) (Some (g_id g)) true)
  end.
Proof. intros Hr. apply game_start_effect, reachable_inv, Hr. Qed.

Lemma game_start_outcome_witness :
  let s := run_ops [OpAdd 7 "shiritori"] (initial_state [] []) in
  reachable s /\
  exists g, snd (game_start 7 100 s) = inr g /\ g_timestamp g = 100 /\
    db_games (db (fst (game_start 7 100 s))) = [g].
Proof.
  intros s.
  assert (Hr : reachable s) by (apply reachable_run_ops; constructor; constructor).
  pose proof (game_start_outcome 7 100 s (fst (game_start 7 100 s)) (snd (game_start 7 100 s)) Hr
                (surjective_pairing _)) as H.
  change (channel_view s 7) with (Some (mkChannels 1 7 (Some "shiritori") None false)) in H.
  cbv iota beta in H. destruct H as (g & H1 & _ & H3 & _ & H5 & _).
  split; [exact Hr|]. exists g. split_and!; [exact H1|exact H3|rewrite H5; reflexivity].
Defined.

(** X7: in a reachable state where the table row of [d], if any, has no
    running game, [channel_add d name] followed by [game_start d now]
    succeeds: it returns a Game of the added channel with timestamp [now],
    appended to the Games table.  In particular [add] makes [start] work
    again on a channel whose stored row is idle. *)
Theorem add_then_start_succeeds d name now s s1 r s2 r2 :
  reachable s -> channel_add d name s = (s1, inr r) ->
  (forall r0, find_channel d (db_channels (db s)) = Some r0 -> c_game_running r0 = false) ->
  game_start d now s1 = (s2, r2) ->
  exists g, r2 = inr g /\ g_channel g = c_id r /\ g_timestamp g = now /\
    db_games (db s2) = db_games (db s) ++ [g].
Proof.
  intros Hr E Hnr E2. pose proof (reachable_inv s Hr) as Hi.
  destruct (channel_add_spec d name s s1 (inr r) Hi E) as ((Hi1 & _ & _) & Hg1).
  destruct (channel_add_effect d name s s1 (inr r) Hi E)
    as (r' & [= <-] & _ & _ & Hv & _ & Hold & Hnew).
  pose proof (game_start_effect d now s1 s2 r2 Hi1 E2) as Hs. rewrite Hv in Hs.
  assert (Hrun : c_game_running r = false).
  { destruct (find_channel d (db_channels (db s))) as [r0|] eqn:Hf.
    - destruct (Hold r0 eq_refl) as (_ & _ & -> & _). apply Hnr. reflexivity.
    - apply (Hnew eq_refl). }
  rewrite Hrun in Hs. destruct Hs as (g & -> & _ & Hts & Hch & Hgs & _).
  exists g. rewrite <- Hg1. auto.
Qed.

Lemma add_then_start_succeeds_witness :
  let s := run_ops [OpAdd 7 "shiritori"; OpStart 7 100; OpEnd 7] (initial_state [] []) in
  reachable s /\
  snd (game_start 7 200 s) = inl (Exception "Game is already running in shiritori") /\
  exists g, snd (game_start 7 200 (fst (channel_add 7 "shiritori" s))) = inr g /\ g_timestamp g = 200.
Proof.
  intros s.
  assert (Hr : reachable s) by (apply reachable_run_ops; constructor; constructor).
  assert (E : channel_add 7 "shiritori" s =
              (fst (channel_add 7 "shiritori" s), inr (mkChannels 1 7 (Some "shiritori") None false)))
    by (vm_compute; reflexivity).
  assert (Hnr : forall r0, find_channel 7 (db_channels (db s)) = Some r0 -> c_game_running r0 = false)
    by (vm_compute; intros r0 [= <-]; reflexivity).
  destruct (add_then_start_succeeds 7 "shiritori" 200 s _ _ _ _ Hr E Hnr (surjective_pairing _))
    as (g & H1 & _ & H3 & _).
  split_and!; [exact Hr|vm_compute; reflexivity|]. exists g. auto.
Defined.

(** X8: in a reachable state, [channel_remove d] returns whether [d] had a
    table row.  If it had one, only that row leaves the Channels table:
    the Games, the Turns and every other table are unchanged, since the
    declared cascades are not enforced; if not, the tables are unchanged.
    Afterwards [d] is unregistered (cache and table), and every other
    channel is seen as before. *)
Theorem channel_remove_unregisters d s s' r :
  reachable s -> channel_remove d s = (s', r) ->
  match find_channel d (db_channels (db s)) with
  | Some rd => r = inr true /\
      db_channels (db s') = List.filter (fun r0 => negb (c_discord_id r0 =? d)) (db_channels (db s)) /\
      db_games (db s') = db_games (db s) /\ db_messages (db s') = db_messages (db s) /\
      db_words (db s') = db_words (db s) /\ db_users (db s') = db_users (db s)
  | None => r = inr false /\ db s' = db s
  end /\
  channel_view s' d = None /\
  (forall d', d' <> d -> channel_view s' d' = channel_view s d').
Proof.
  intros Hr E. destruct (channel_remove_effect d s s' r (reachable_inv s Hr) E) as (H1 & H2 & H3).
  split_and!; [|exact H2|exact H3].
  destruct (find_channel d (db_channels (db s))); [|exact H1].
  destruct H1 as [-> ->]. split_and!; reflexivity.
Qed.

Lemma channel_remove_unregisters_witness :
  let s := run_ops sample_game (initial_state [] []) in
  reachable s /\
  snd (channel_remove 7 s) = inr true /\ channel_view (fst (channel_remove 7 s)) 7 = None.
Proof.
  intros s.
  assert (Hr : reachable s) by (apply reachable_run_ops; constructor; constructor).
  destruct (channel_remove_unregisters 7 s (fst (channel_remove 7 s)) (snd (channel_remove 7 s)) Hr
              (surjective_pairing _)) as (H1 & H2 & _).
  change (find_channel 7 (db_channels (db s))) with (Some (mkChannels 1 7 (Some "shiritori") (Some 1) true)) in H1.
  destruct H1 as (H1 & _). split_and!; assumption.
Defined.

(** X9: in a reachable state, after [channel_remove d], a message in
    channel [d] is ignored (no Turn, no table change, nothing posted) and
    [game_start d] raises "Not a game channel" without changing the
    tables. *)
Theorem removed_channel_ignored d s s1 b m now s2 r2 s3 r3 :
  reachable s -> channel_remove d s = (s1, b) -> msg_channel m = d ->
  channel_message m s1 = (s2, r2) -> game_start d now s1 = (s3, r3) ->
  r2 = inr None /\ db s2 = db s1 /\ out s2 = out s1 /\
  r3 = inl (Exception "Not a game channel") /\ db s3 = db s1.
Proof.
  intros Hr E Hm E2 E3. pose proof (reachable_inv s Hr) as Hi.
  pose proof (channel_remove_spec d s s1 b Hi E) as ((Hi1 & _) & _).
  destruct (channel_remove_effect d s s1 b Hi E) as (_ & Hv & _).
  subst d. destruct (channel_message_unregistered m s1 s2 r2 Hv E2) as (Ha & Hb & Hc).
  pose proof (game_start_effect _ now s1 s3 r3 Hi1 E3) as Hg. rewrite Hv in Hg.
  destruct Hg. auto.
Qed.

Lemma removed_channel_ignored_witness :
  let s := run_ops sample_game (initial_state [] []) in
  let s1 := fst (channel_remove 7 s) in
  reachable s /\
  snd (channel_message (sample_msg 5 14 "egg") s1) = inr None /\
  snd (game_start 7 200 s1) = inl (Exception "Not a game channel").
Proof.
  intros s s1.
  assert (Hr : reachable s) by (apply reachable_run_ops; constructor; constructor).
  destruct (removed_channel_ignored 7 s s1 (snd (channel_remove 7 s)) (sample_msg 5 14 "egg") 200
              _ _ _ _ Hr (surjective_pairing _) eq_refl (surjective_pairing _) (surjective_pairing _))
    as (H1 & _ & _ & H4 & _).
  split_and!; assumption.
Defined.

(** X10: in a reachable state, a message in a channel that has no table
    row is ignored: [channel_message] returns [None], changes no table and
    posts nothing. *)
Theorem unregistered_message_ignored m s s' r :
  reachable s -> find_channel (msg_channel m) (db_channels (db s)) = None ->
  channel_message m s = (s', r) ->
  r = inr None /\ db s' = db s /\ out s' = out s.
Proof.
  intros Hr Hf. apply channel_message_unregistered.
  unfold channel_view. apply (channel_get_registered (msg_channel m) s (reachable_inv s Hr)). exact Hf.
Qed.

Lemma unregistered_message_ignored_witness :
  let s := run_ops sample_game (initial_state [] []) in
  let m := mkIncoming 9 8 42 "bob" "0001" "apple" 20 in
  reachable s /\ find_channel 8 (db_channels (db s)) = None /\
  snd (channel_message m s) = inr None /\ db (fst (channel_message m s)) = db s.
Proof.
  intros s m.
  assert (Hr : reachable s) by (apply reachable_run_ops; constructor; constructor).
  assert (Hf : find_channel 8 (db_channels (db s)) = None) by (vm_compute; reflexivity).
  destruct (unregistered_message_ignored m s _ _ Hr Hf (surjective_pairing _)) as (H1 & H2 & _).
  split_and!; assumption.
Defined.

(** X11: in a reachable state, [channel_info d] changes nothing.  For a
    channel without table row it returns [None].  For a row [c] it
    returns the row's discord id, name and running flag, the number of
    rows of the whole Messages table (not only the channel's), and the
    current Game: a Game of the channel, present in the table, when the
    game runs, none otherwise (the [DoesNotExist] handler is never
    reached through a dangling game). *)
Theorem channel_info_report d s s' r :
  reachable s -> channel_info d s = (s', r) ->
  s' = s /\
  match find_channel d (db_channels (db s)) with
  | None => r = inr None
  | Some c => exists cg,
      r = inr (Some (mkChannelInfo d (c_name c) (List.length (db_messages (db s)))
                                   (c_game_running c) cg)) /\
      (c_game_running c = true -> exists g, cg = Some g /\ c_current_game c = Some (g_id g) /\
                                            g_channel g = c_id c /\ In g (db_games (db s))) /\
      (c_game_running c = false -> cg = None)
  end.
Proof. intros Hr. apply channel_info_effect, reachable_inv, Hr. Qed.

Lemma channel_info_report_witness :
  let s := run_ops sample_game (initial_state [] []) in
  reachable s /\
  exists cg, snd (channel_info 7 s) =
    inr (Some (mkChannelInfo 7 (Some "shiritori") (List.length (db_messages (db s))) true cg)).
Proof.
  intros s.
  assert (Hr : reachable s) by (apply reachable_run_ops; constructor; constructor).
  destruct (channel_info_report 7 s _ _ Hr (surjective_pairing _)) as (_ & H).
  change (find_channel 7 (db_channels (db s))) with (Some (mkChannels 1 7 (Some "shiritori") (Some 1) true)) in H.
  destruct H as (cg & H1 & _). split; [exact Hr|]. exists cg. exact H1.
Defined.

(** *** Extras: commands and events *)

(** X12: [command_execute] lets out one exception only: the [SystemExit]
    of [docopt] (raised for [--version]), which is not an [Exception] and
    passes both [except] clauses; the state is then unchanged and nothing
    has been sent.  In every other case it returns normally, whatever
    [shlex.split] and [docopt] return, and has sent at least one text. *)
Theorem command_execute_replies_unless_exit shlex_split docopt history now timeago e st st' r :
  command_execute shlex_split docopt history now timeago e st = (st', r) ->
  (r = inr tt /\ exists l, snd st' = snd st ++ l /\ l <> []) \/
  (r = inl CmdSystemExit /\ st' = st /\
   exists a0 argv, shlex_split (msg_clean_content (ev_msg e)) = inr (a0 :: argv) /\
     lower a0 = "@iha" /\ docopt argv = DocoptSystemExit).
Proof.
  unfold command_execute.
  destruct (command_body shlex_split docopt history now timeago e st) as [st1 r1] eqn:E.
  destruct r1 as [[x|x|x| |]|[]].
  5:{ intros [= <- <-]. right. split; [reflexivity|]. apply body_system_exit in E. exact E. }
  all: apply replies_body in E as (l & Hl & Hr).
  all: intros [= <- <-]; left; split; auto; simpl; rewrite ?Hl.
  5:{ exists l. split; [reflexivity|apply Hr; reflexivity]. }
  all: eexists; (split; [rewrite <- app_assoc; reflexivity|]); destruct l; discriminate.
Qed.

Lemma command_execute_replies_unless_exit_witness :
  let sh := fun _ : string => inr ["@iha"; "--version"] in
  let dc := fun _ : list string => DocoptSystemExit in
  let e := mkEvent (mkIncoming 1 7 42 "bob" "0001" "@iha --version" 10) "shiritori" "<@99> --version" [99] in
  let st := (initial_state [] [], @nil sent) in
  let res := command_execute sh dc (fun _ _ => []) 0 (fun _ => "") e st in
  res = (st, inl CmdSystemExit) /\
  ((snd res = inr tt /\ exists l, snd (fst res) = snd st ++ l /\ l <> []) \/
   (snd res = inl CmdSystemExit /\ fst res = st /\
    exists a0 argv, sh (msg_clean_content (ev_msg e)) = inr (a0 :: argv) /\
      lower a0 = "@iha" /\ dc argv = DocoptSystemExit)).
Proof.
  intros sh dc e st res. split; [reflexivity|].
  exact (command_execute_replies_unless_exit sh dc (fun _ _ => []) 0 (fun _ => "") e st
           (fst res) (snd res) (surjective_pairing _)).
Defined.

(** X13: the client state after [command_execute] is the one before,
    or the one [channel_add], [channel_remove] or [game_start] leaves on
    the message's channel: the [sync], [info], [help], [end], [rules] and
    failing commands change no state. *)
Theorem command_execute_state_change shlex_split docopt history now timeago e s l s' l' r :
  command_execute shlex_split docopt history now timeago e (s, l) = ((s', l'), r) ->
  let d := msg_channel (ev_msg e) in
  s' = s \/ s' = fst (channel_add d (ev_channel_name e) s) \/ s' = fst (channel_remove d s) \/
  s' = fst (game_start d now s).
Proof. apply command_execute_state. Qed.

Lemma command_execute_state_change_witness :
  let st := (initial_state [] [], @nil sent) in
  let res := command_execute (fun _ : string => inr ["@iha"; "add"])
               (fun _ : list string => DocoptArgsOk (mkDocoptArgs false false true false false false false false false))
               (fun _ _ => []) 0 (fun _ => "")
               (mkEvent (mkIncoming 1 7 42 "bob" "0001" "@iha add" 10) "shiritori" "<@99> add" [99]) st in
  command_execute (fun _ : string => inr ["@iha"; "add"])
    (fun _ : list string => DocoptArgsOk (mkDocoptArgs false false true false false false false false false))
    (fun _ _ => []) 0 (fun _ => "")
    (mkEvent (mkIncoming 1 7 42 "bob" "0001" "@iha add" 10) "shiritori" "<@99> add" [99]) st =
    ((fst (fst res), snd (fst res)), snd res) /\
  (fst (fst res) = initial_state [] [] \/
   fst (fst res) = fst (channel_add 7 "shiritori" (initial_state [] [])) \/
   fst (fst res) = fst (channel_remove 7 (initial_state [] [])) \/
   fst (fst res) = fst (game_start 7 0 (initial_state [] []))).
Proof.
  intros st res.
  assert (E : command_execute (fun _ : string => inr ["@iha"; "add"])
    (fun _ : list string => DocoptArgsOk (mkDocoptArgs false false true false false false false false false))
    (fun _ _ => []) 0 (fun _ => "")
    (mkEvent (mkIncoming 1 7 42 "bob" "0001" "@iha add" 10) "shiritori" "<@99> add" [99]) st =
    ((fst (fst res), snd (fst res)), snd res)) by (rewrite <- !surjective_pairing; reflexivity).
  split; [exact E|]. exact (command_execute_state_change _ _ _ _ _ _ _ _ _ _ _ E).
Defined.

(** X14: [on_message] keeps the bot in reachable states: a message of the
    bot itself changes nothing, a mention goes through [command_execute]
    (whose state changes are those of [add], [remove] and [start]), and
    any other message through [channel_message].  A message that does not
    mention the bot runs no command: the texts sent with [channel.send]
    are unchanged, and the state is the one before (a message of the bot)
    or the one [channel_message] leaves, whose reactions and replies go to
    the Discord log. *)
Theorem on_message_keeps_reachable shlex_split docopt history now timeago bot_id e s l s' l' r :
  reachable s ->
  on_message shlex_split docopt history now timeago bot_id e (s, l) = ((s', l'), r) ->
  reachable s' /\
  (existsb (fun k => k =? bot_id) (ev_raw_mentions e) = false ->
   l' = l /\ (s' = s \/ s' = fst (channel_message (ev_msg e) s))).
Proof.
  intros Hr. unfold on_message.
  destruct (msg_author_id (ev_msg e) =? bot_id);
    [intros [= <- <- _]; split; [exact Hr|intros _; split; [reflexivity|left; reflexivity]]|].
  destruct (existsb (fun k => k =? bot_id) (ev_raw_mentions e)).
  - intros E. split; [|discriminate].
    apply command_execute_state in E as [ -> | [ -> | [ -> | -> ]]]; auto;
      [apply (reachable_step s (OpAdd _ _))|apply (reachable_step s (OpRemove _))
      |apply (reachable_step s (OpStart _ _))]; exact Hr.
  - unfold cbind, lift, cret. simpl.
    destruct (channel_message (ev_msg e) s) as [s1 [x|x]] eqn:E; intros [= <- <- _];
      (split; [|intros _; split; [reflexivity|right; reflexivity]]);
      change s1 with (fst (s1, @inl exn (option Messages) x)) || change s1 with (fst (s1, @inr exn (option Messages) x));
      rewrite <- E; apply (reachable_step s (OpMessage _)); exact Hr.
Qed.

Lemma on_message_keeps_reachable_witness :
  let s := run_ops [OpAdd 7 "shiritori"; OpStart 7 100] (initial_state [] []) in
  let e := mkEvent (sample_msg 1 10 "apple") "shiritori" "apple" [] in
  let res := on_message (fun _ => inr []) (fun _ => DocoptUsageExit) (fun _ _ => []) 0 (fun _ => "") 99 e (s, []) in
  reachable s /\
  on_message (fun _ => inr []) (fun _ => DocoptUsageExit) (fun _ _ => []) 0 (fun _ => "") 99 e (s, []) =
    ((fst (fst res), snd (fst res)), snd res) /\
  reachable (fst (fst res)) /\ snd (fst res) = [].
Proof.
  intros s e res.
  assert (Hr : reachable s) by (apply reachable_run_ops; constructor; constructor).
  assert (E : on_message (fun _ => inr []) (fun _ => DocoptUsageExit) (fun _ _ => []) 0 (fun _ => "") 99 e (s, []) =
    ((fst (fst res), snd (fst res)), snd res)) by (rewrite <- !surjective_pairing; reflexivity).
  destruct (on_message_keeps_reachable _ _ _ _ _ _ _ _ _ _ _ _ Hr E) as (H1 & H2).
  split_and!; [exact Hr|exact E|exact H1|apply H2; reflexivity].
Defined.

(** X15: in a reachable state, the [info] command changes no state and
    never fails: for a channel without table row it sends "**<name>** is
    not a registered channel."; for a row [c] it sends "**<c's name>** is
    registered. Currently logged <n> message(s)." with [n] the size of
    the whole Messages table, then "Currently in game. Started <timeago of
    the current Game's timestamp>!" when [c] has a current game and "No
    game in session." otherwise. *)
Theorem command_info_text shlex_split docopt history now timeago e s l a0 argv args :
  reachable s ->
  shlex_split (msg_clean_content (ev_msg e)) = inr (a0 :: argv) -> lower a0 = "@iha" ->
  docopt argv = DocoptArgsOk args -> a_help_opt args || a_help args = false ->
  a_add args = false -> a_sync args = false -> a_info args = true ->
  command_execute shlex_split docopt history now timeago e (s, l) =
    ((s, l ++ match find_channel (msg_channel (ev_msg e)) (db_channels (db s)) with
              | None => [SentText ("**" ++ ev_channel_name e ++ "** is not a registered channel.")%string]
              | Some c =>
                  SentText ("**" ++ py_str_opt (c_name c) ++ "** is registered. " ++ "Currently logged "
                            ++ NilZero.string_of_uint (Nat.to_uint (List.length (db_messages (db s))))
                            ++ " message(s).")%string ::
                  match c_current_game c with
                  | Some gid => [SentText ("Currently in game. Started "
                                  ++ timeago (match List.find (fun g => Nat.eqb (g_id g) gid) (db_games (db s)) with
                                              | Some g => g_timestamp g | None => 0%nat end) ++ "!")%string]
                  | None => [SentText "No game in session."]
                  end
              end), inr tt).
Proof.
  intros HR Hs Ha Hd Hh H1 H2 H3. pose proof (reachable_inv s HR) as Hi. unfold command_execute, command_body, command_dispatch.
  rewrite Hs, Ha, String.eqb_refl, Hd, Hh, H1, H2, H3. cbv beta iota zeta delta [negb]. unfold cbind at 1, lift at 1. cbv beta iota.
  cbn [fst snd].
  destruct (channel_info (msg_channel (ev_msg e)) s) as [s1 x] eqn:E.
  pose proof E as E'. apply channel_info_effect in E' as [-> Hx]; [|exact Hi].
  unfold cbind, lift, send, craise. cbn beta iota.
  destruct (find_channel (msg_channel (ev_msg e)) (db_channels (db s))) as [c|] eqn:Hf.
  - destruct Hx as (cg & -> & Hrun & Hnrun).
    destruct (find_channel_some _ _ _ Hf) as [Hin _].
    pose proof (inv_chan_state s Hi c Hin) as Hst.
    destruct (c_game_running c) eqn:Hr.
    + destruct (Hrun eq_refl) as (g & -> & Hcur & _ & Hgin). rewrite Hcur.
      replace (List.find (fun g0 => g_id g0 =? g_id g) (db_games (db s))) with (Some g).
      * simpl. rewrite <- app_assoc. reflexivity.
      * symmetry. destruct (List.find (fun g0 => g_id g0 =? g_id g) (db_games (db s))) as [g'|] eqn:Hg.
        -- apply find_some in Hg as [Hg' Hid]. apply Nat.eqb_eq in Hid. f_equal.
           apply (nodup_map_inj g_id _ _ _ (inv_game_ids s Hi)); auto.
        -- pose proof (find_none _ _ Hg g Hgin) as Hx. simpl in Hx. rewrite Nat.eqb_refl in Hx.
           discriminate.
    + rewrite (Hnrun eq_refl).
      destruct (c_current_game c) eqn:Hcur.
      * exfalso. assert (Some n <> None) as Hne by discriminate. apply Hst in Hne. congruence.
      * simpl. rewrite <- app_assoc. reflexivity.
  - subst x. reflexivity.
Qed.

Lemma command_info_text_witness :
  let sh := fun _ : string => inr ["@iha"; "info"] in
  let dc := fun _ : list string => DocoptArgsOk (mkDocoptArgs false false false true false false false false false) in
  let e := mkEvent (mkIncoming 9 7 42 "bob" "0001" "@iha info" 20) "shiritori" "<@99> info" [99] in
  let s := run_ops sample_game (initial_state [] []) in
  reachable s /\
  command_execute sh dc (fun _ _ => []) 0 (fun _ => "just now") e (s, []) =
    ((s, [SentText "**shiritori** is registered. Currently logged 2 message(s).";
          SentText "Currently in game. Started just now!"]), inr tt).
Proof.
  intros sh dc e s.
  assert (Hr : reachable s) by (apply reachable_run_ops; constructor; constructor).
  split; [exact Hr|].
  rewrite (command_info_text sh dc (fun _ _ => []) 0 (fun _ => "just now") e s [] "@iha" ["info"]
             (mkDocoptArgs false false false true false false false false false) Hr)
    by reflexivity.
  vm_compute. reflexivity.
Defined.

(** X16: [do_load] loads the whole file exactly when the stripped lines
    are pairwise distinct and none is already a word: then it raises
    nothing, only the Words table changes, and the new rows are appended
    after the old ones, one per line in file order, each with the stripped
    line as its word and source [WORD_SOURCE_LIST], keeping the word ids
    distinct. *)
Theorem do_load_complete lines d d' err :
  do_load lines d = (d', err) ->
  (err = None <-> batch_ok (map strip lines) (map w_word (db_words d))) /\
  (err = None -> exists rows,
     d' = with_words (fun ws => ws ++ rows) d /\
     map w_word rows = map strip lines /\
     Forall (fun r => w_source r = Some WORD_SOURCE_LIST) rows /\
     (NoDup (map w_id (db_words d)) -> NoDup (map w_id (db_words d')))).
Proof.
  unfold do_load. intros E.
  pose proof (load_rounds_spec (S (List.length lines)) lines (db_words d) (Nat.lt_succ_diag_r _)) as Hs.
  destruct (load_rounds (S (List.length lines)) lines (db_words d)) as [ws' e'].
  injection E as <- <-.
  destruct Hs as [Hiff (rows & -> & Hsrc & Hnd & Hall & _)].
  split; [exact Hiff|].
  intros ->. exists rows. split_and!; auto.
Qed.

Lemma do_load_complete_witness :
  let d := with_words (fun _ => [mkWords 1 "apple" None]) (mkDb [] [] [] [] [] []) in
  let res := do_load ["egg "; " banana"] d in
  do_load ["egg "; " banana"] d = (fst res, snd res) /\
  snd res = None /\
  exists rows, fst res = with_words (fun ws => ws ++ rows) d /\
    map w_word rows = ["egg"; "banana"].
Proof.
  intros d res.
  assert (E : do_load ["egg "; " banana"] d = (fst res, snd res)) by apply surjective_pairing.
  destruct (do_load_complete _ _ _ _ E) as [Hiff Hok].
  assert (Hn : snd res = None).
  { apply Hiff. unfold batch_ok.
    change (map strip ["egg "; " banana"]) with ["egg"; "banana"].
    change (map w_word (db_words d)) with ["apple"]. split.
    - apply (bool_decide_unpack _). vm_compute. reflexivity.
    - intros w [<-|[<-|[]]] [H|[]]; discriminate. }
  split_and!; [exact E|exact Hn|].
  destruct (Hok Hn) as (rows & Hd & Hw & _). exists rows. split; [exact Hd|exact Hw].
Defined.

(** X17: when [do_load] stops on an IntegrityError (a duplicate word),
    the rounds inserted before the failing one stay: the Words table
    gains exactly the stripped words of the first [1001 * n] lines, for
    some number [n] of complete rounds, each with source
    [WORD_SOURCE_LIST], and no other table changes. *)
Theorem do_load_partial lines d d' :
  do_load lines d = (d', Some IntegrityError) ->
  exists n rows,
    d' = with_words (fun ws => ws ++ rows) d /\
    map w_word rows = map strip (firstn (1001 * n) lines) /\
    Forall (fun r => w_source r = Some WORD_SOURCE_LIST) rows.
Proof.
  unfold do_load. intros E.
  pose proof (load_rounds_spec (S (List.length lines)) lines (db_words d) (Nat.lt_succ_diag_r _)) as Hs.
  destruct (load_rounds (S (List.length lines)) lines (db_words d)) as [ws' e'].
  injection E as <- ->.
  destruct Hs as [_ (rows & -> & Hsrc & _ & _ & Hpart)].
  destruct (Hpart eq_refl) as [n Hn]. exists n, rows. split_and!; auto.
Qed.

Lemma do_load_partial_witness :
  let d := mkDb [] [] [] [] [] [] in
  let res := do_load ["a"; "b"; "a"] d in
  do_load ["a"; "b"; "a"] d = (fst res, Some IntegrityError) /\
  exists n rows, fst res = with_words (fun ws => ws ++ rows) d /\
    map w_word rows = map strip (firstn (1001 * n) ["a"; "b"; "a"]).
Proof.
  intros d res.
  assert (E : do_load ["a"; "b"; "a"] d = (fst res, Some IntegrityError)) by (vm_compute; reflexivity).
  split; [exact E|].
  destruct (do_load_partial _ _ _ E) as (n & rows & Hd & Hw & _). exists n, rows. split; assumption.
Defined.
